(** * QCFractal: task claiming, task completion and torsiondrive service iteration

    A shallow embedding of
    - [qcfractal/components/tasks/sockets.py] ([TaskSocket.claim_tasks],
      [TaskSocket.update_finished]) and
    - [qcfractal/components/torsiondrive/record_socket.py]
      ([TorsiondriveRecordSocket.iterate_service], [_submit_optimizations]).

    Tables are finite maps keyed by primary key.  Code that works on a
    SQLAlchemy session is a computation in a state-and-exception monad over
    the session; an exception leaves the state as it was when it was raised,
    as in Python.  Calls into other sockets of the server are parameters. *)

From stdpp Require Import gmap strings list sorting pretty.
From Stdlib Require Import ZArith Lia.

(** ** Python exceptions and the state-and-exception monad *)

Inductive exn : Type :=
| ComputeManagerError (msg : string)
| RuntimeError (msg : string)
| IndexError
| InvalidRequestError
| OtherError (msg : string).

Inductive result (A : Type) : Type :=
| Ok (a : A)
| Raise (e : exn).
Arguments Ok {A} a.
Arguments Raise {A} e.

Definition is_Ok {A} (r : result A) : Prop :=
  match r with Ok _ => True | Raise _ => False end.

Definition M (S A : Type) : Type := S → result A * S.

#[global] Instance M_ret {S} : MRet (M S) := λ A a s, (Ok a, s).

#[global] Instance M_bind {S} : MBind (M S) := λ A B f m s,
  match m s with
  | (Ok a, s') => f a s'
  | (Raise e, s') => (Raise e, s')
  end.

Definition raise {S A} (e : exn) : M S A := λ s, (Raise e, s).
Definition gets {S A} (f : S → A) : M S A := λ s, (Ok (f s), s).
Definition modify {S} (f : S → S) : M S unit := λ s, (Ok tt, f s).

(** [for x in l: body x] *)
Fixpoint for_each {S A} (l : list A) (body : A → M S unit) : M S unit :=
  match l with
  | [] => mret tt
  | x :: l' => body x ;; for_each l' body
  end.

(** [[f x for x in l]] where [f] may raise *)
Fixpoint map_M {S A B} (f : A → M S B) (l : list A) : M S (list B) :=
  match l with
  | [] => mret []
  | x :: l' => y ← f x; ys ← map_M f l'; mret (y :: ys)
  end.

(** [try: body / except Exception: handler / finally: fin].  The [finally]
    block runs on every path; an exception of the handler goes on after it. *)
Definition try_except_finally {S A}
    (body : M S A) (handler : exn → M S A) (fin : M S unit) : M S A := λ s,
  let after (r : result A * S) : result A * S :=
    match fin r.2 with
    | (Ok _, s') => (r.1, s')
    | (Raise e, s') => (Raise e, s')
    end in
  match body s with
  | (Ok a, s1) => after (Ok a, s1)
  | (Raise e, s1) => after (handler e s1)
  end.

(** A computation on a component of the state, run on the whole state. *)
Definition zoom {S T A} (get : T → S) (set : S → T → T) (m : M S A) : M T A := λ t,
  let '(r, s') := m (get t) in (r, set s' t).

(** ** Enumerations *)

Module RecordStatusEnum.
Inductive t : Type := complete | invalid | running | error | waiting | cancelled | deleted.
#[global] Instance eq_dec : EqDecision t.
Proof. solve_decision. Defined.
End RecordStatusEnum.

Module ManagerStatusEnum.
Inductive t : Type := active | inactive.
#[global] Instance eq_dec : EqDecision t.
Proof. solve_decision. Defined.
End ManagerStatusEnum.

(** ** Rows *)

(** Modelled from the spec: the declaration of [BaseRecordORM] is not among
    the sources.  The columns are the ones the sockets read and write
    ([status], [manager_name], [modified_on]) and the compute history of the
    spec's data model (status at completion time and manager name of each
    entry).  The primary key [id] is the key of the row in its table. *)
Module BaseRecordORM.
Record t : Type := mk {
  status : RecordStatusEnum.t;
  manager_name : option string;
  modified_on : Z;
  compute_history : list (RecordStatusEnum.t * option string)
}.
Definition set_status (v : RecordStatusEnum.t) (r : t) : t :=
  mk v (manager_name r) (modified_on r) (compute_history r).
Definition set_manager_name (v : option string) (r : t) : t :=
  mk (status r) v (modified_on r) (compute_history r).
Definition set_modified_on (v : Z) (r : t) : t :=
  mk (status r) (manager_name r) v (compute_history r).
Definition set_compute_history (v : list (RecordStatusEnum.t * option string)) (r : t) : t :=
  mk (status r) (manager_name r) (modified_on r) v.
End BaseRecordORM.

(** Modelled from the spec: the declaration of [TaskQueueORM] is not among the
    sources.  The columns are the ones [claim_tasks] reads, the [available]
    column that the migration [12e2ba353ee6] adds, and [function], the
    specification that [generate_task_specification] fills in.  [priority] is
    the integer value of the priority enumeration, [created_on] a timestamp.
    The primary key [id] is the key of the row in its table. *)
Module TaskQueueORM.
Record t : Type := mk {
  record_id : nat;
  function : option string;
  tag : string;
  required_programs : list string;
  priority : Z;
  created_on : Z;
  available : bool
}.
End TaskQueueORM.

(** Modelled from the spec: the declaration of [ComputeManagerORM] is not
    among the sources; the columns are the ones the task socket uses. *)
Module ComputeManagerORM.
Record t : Type := mk {
  name : string;
  status : ManagerStatusEnum.t;
  programs : gmap string (option string);
  tags : list string;
  successes : Z;
  failures : Z;
  rejected : Z;
  claimed : Z
}.
Definition add_claimed (n : Z) (m : t) : t :=
  mk (name m) (status m) (programs m) (tags m) (successes m) (failures m) (rejected m)
     (claimed m + n).
Definition add_stats (s f r : Z) (m : t) : t :=
  mk (name m) (status m) (programs m) (tags m) (successes m + s) (failures m + f)
     (rejected m + r) (claimed m).
End ComputeManagerORM.

(** ** Results sent back by a manager *)

Record ComputeError : Type := mkComputeError {
  error_type : string;
  error_message : string
}.

Record FailedOperation : Type := mkFailedOperation {
  fo_error : ComputeError;
  fo_success : bool
}.

(** [AllResultTypes]: a [FailedOperation], or one of the result models, which
    all carry a boolean [success]. *)
Inductive AllResultTypes : Type :=
| Failed (f : FailedOperation)
| Computed (success : bool) (data : string).

Definition success (r : AllResultTypes) : bool :=
  match r with Failed f => fo_success f | Computed b _ => b end.

(** [Some f] when [isinstance(result, FailedOperation)] *)
Definition as_FailedOperation (r : AllResultTypes) : option FailedOperation :=
  match r with Failed f => Some f | Computed _ _ => None end.

Record TaskReturnMetadata : Type := mkTaskReturnMetadata {
  rejected_info : list (nat * string);
  accepted_ids : list nat
}.

(** ** The session *)

(** The record and task tables, on which the record sockets work. *)
Record Store : Type := mkStore {
  task_queue : gmap nat TaskQueueORM.t;
  base_record : gmap nat BaseRecordORM.t
}.

Definition set_base_record (v : gmap nat BaseRecordORM.t) (st : Store) : Store :=
  mkStore (task_queue st) v.

(** Rows locked [FOR UPDATE] by the transaction of the session. *)
Inductive RowLock : Type :=
| LockManager (name : string)
| LockTask (id : nat)
| LockRecord (id : nat).

(** Calls that leave the task socket.  The list of calls of a session is a
    record of what happened; it is not part of the database, and a rollback
    does not shorten it. *)
Inductive Call : Type :=
| CallUpdateFailedTask (record_id : nat) (failed_op : FailedOperation) (manager_name : string)
| CallUpdateCompletedTask (record_id : nat) (result : AllResultTypes) (manager_name : string)
| CallShouldReset (record_id : nat) (answer : bool)
| CallReset (record_ids : list nat)
| CallGenerateTaskSpecification (task_ids : list nat)
| CallNotifyFinishedWatch (record_id : nat) (status : RecordStatusEnum.t).

(** What a [SAVEPOINT] keeps: the tables and the locks held when it was set. *)
Record Snapshot : Type := mkSnapshot {
  snap_store : Store;
  snap_compute_manager : gmap string ComputeManagerORM.t;
  snap_row_locks : list RowLock
}.

Record Session : Type := mkSession {
  store : Store;
  compute_manager : gmap string ComputeManagerORM.t;
  row_locks : list RowLock;
  savepoints : list Snapshot;
  clock : Z;
  calls : list Call
}.

Definition set_store (v : Store) (s : Session) : Session :=
  mkSession v (compute_manager s) (row_locks s) (savepoints s) (clock s) (calls s).
Definition set_compute_manager (v : gmap string ComputeManagerORM.t) (s : Session) : Session :=
  mkSession (store s) v (row_locks s) (savepoints s) (clock s) (calls s).
Definition add_row_locks (l : list RowLock) (s : Session) : Session :=
  mkSession (store s) (compute_manager s) (row_locks s ++ l) (savepoints s) (clock s) (calls s).
Definition log_call (c : Call) (s : Session) : Session :=
  mkSession (store s) (compute_manager s) (row_locks s) (savepoints s) (clock s) (calls s ++ [c]).

(** [session.begin_nested()]: set a savepoint. *)
Definition begin_nested : M Session unit := λ s,
  (Ok tt,
   mkSession (store s) (compute_manager s) (row_locks s)
     (mkSnapshot (store s) (compute_manager s) (row_locks s) :: savepoints s)
     (clock s) (calls s)).

(** [nested_session.rollback()]: back to the tables and locks of the last
    savepoint, which is given up. *)
Definition nested_rollback : M Session unit := λ s,
  match savepoints s with
  | [] => (Raise InvalidRequestError, s)
  | sp :: rest =>
      (Ok tt,
       mkSession (snap_store sp) (snap_compute_manager sp) (snap_row_locks sp) rest
         (clock s) (calls s))
  end.

(** [nested_session.commit()]: release the last savepoint; nothing is
    committed to the database and no lock is released. *)
Definition nested_commit : M Session unit := λ s,
  match savepoints s with
  | [] => (Raise InvalidRequestError, s)
  | _ :: rest =>
      (Ok tt,
       mkSession (store s) (compute_manager s) (row_locks s) rest (clock s) (calls s))
  end.

(** A call into a record socket: noted, then run on the tables. *)
Definition call_records {A} (c : Call) (m : M Store A) : M Session A :=
  modify (log_call c) ;; zoom store set_store m.

(** [select(ComputeManagerORM).where(name == manager_name).with_for_update()]
    and [scalar_one_or_none()] *)
Definition select_manager_for_update (manager_name : string) :
    M Session (option ComputeManagerORM.t) := λ s,
  match compute_manager s !! manager_name with
  | None => (Ok None, s)
  | Some m => (Ok (Some m), add_row_locks [LockManager manager_name] s)
  end.

(** [select(TaskQueueORM).filter(id == task_id)] with the record joined
    ([innerjoin=True]) and [with_for_update]: the task row and its record. *)
Definition select_task_for_update (task_id : nat) :
    M Session (option (TaskQueueORM.t * BaseRecordORM.t)) := λ s,
  match task_queue (store s) !! task_id with
  | None => (Ok None, s)
  | Some t =>
      match base_record (store s) !! TaskQueueORM.record_id t with
      | None => (Ok None, s)
      | Some r =>
          (Ok (Some (t, r)),
           add_row_locks [LockTask task_id; LockRecord (TaskQueueORM.record_id t)] s)
      end
  end.

(** ** Configuration *)

(** Modelled from the spec: the configuration classes are not among the
    sources.  [AutoResetConfig] has the options the spec lists for the reset
    policy; [manager_tasks_claim] is the limit of [api_limits]. *)
Record AutoResetConfig : Type := mkAutoResetConfig {
  enabled : bool;
  max_reset_attempts : option Z;
  only_new : bool
}.

Record FractalConfig : Type := mkFractalConfig {
  auto_reset : AutoResetConfig;
  manager_tasks_claim : Z
}.

(** Modelled from the spec: [qcportal.utils.calculate_limit] is not among the
    sources.  The limit that is asked for is clamped to the configured
    maximum; without one the maximum is taken. *)
Definition calculate_limit (max_limit : Z) (given_limit : option Z) : Z :=
  match given_limit with
  | None => max_limit
  | Some l => Z.min l max_limit
  end.

(** The sockets and functions the task socket calls.  The record socket's
    functions work on the record and task tables and may raise.
    [should_reset] is the function of [reset_logic]; it reads the record
    through the session.  [format_exc] is [traceback.format_exc()]. *)
Record RootSocket : Type := mkRootSocket {
  qcf_config : FractalConfig;
  records_update_failed_task : nat → FailedOperation → string → M Store unit;
  records_update_completed_task : nat → AllResultTypes → string → M Store unit;
  records_reset : list nat → M Store unit;
  records_generate_task_specification : list nat → M Store unit;
  should_reset : Store → nat → AutoResetConfig → bool;
  format_exc : exn → string
}.

(** ** [TaskSocket] *)

Section TaskSocket.
Context (root_socket : RootSocket).

Definition _tasks_claim_limit : Z := manager_tasks_claim (qcf_config root_socket).

(** *** [claim_tasks] *)

(** [ORDER BY priority DESC, created_on]: [x] may come before [y]. *)
Definition task_order (x y : nat * TaskQueueORM.t) : Prop :=
  (TaskQueueORM.priority y.2 < TaskQueueORM.priority x.2)%Z ∨
  (TaskQueueORM.priority x.2 = TaskQueueORM.priority y.2 ∧
   (TaskQueueORM.created_on x.2 ≤ TaskQueueORM.created_on y.2)%Z).

Definition record_status (st : Store) (record_id : nat) : option RecordStatusEnum.t :=
  BaseRecordORM.status <$> base_record st !! record_id.

(** The [WHERE] clause for one tag, on the task joined with its record: the
    record is waiting, [manager_programs] contains the task's
    [required_programs], and the tag is the task's unless it is ["*"]. *)
Definition claimable (st : Store) (manager_programs : gset string) (tag : string)
    (row : nat * TaskQueueORM.t) : Prop :=
  record_status st (TaskQueueORM.record_id row.2) = Some RecordStatusEnum.waiting ∧
  Forall (λ p, p ∈ manager_programs) (TaskQueueORM.required_programs row.2) ∧
  (tag = "*" ∨ TaskQueueORM.tag row.2 = tag).

#[global] Instance task_order_dec : RelDecision task_order.
Proof. intros x y. unfold task_order. apply _. Defined.

#[global] Instance claimable_dec st ps tag row : Decision (claimable st ps tag row).
Proof. unfold claimable. apply _. Defined.

(** The query of one tag: filtered, ordered, limited, the rows found locked.
    The session is alone: no row is locked by another transaction, so
    [skip_locked] skips nothing.  Rows that tie in the order come as the
    merge sort leaves them. *)
Definition claim_query (st : Store) (manager_programs : gset string) (tag : string)
    (new_limit : Z) : list (nat * TaskQueueORM.t) :=
  take (Z.to_nat new_limit)
    (merge_sort task_order
       (filter (claimable st manager_programs tag) (map_to_list (task_queue st)))).

Definition select_claimable (manager_programs : gset string) (tag : string) (new_limit : Z) :
    M Session (list (nat * TaskQueueORM.t)) := λ s,
  let rows := claim_query (store s) manager_programs tag new_limit in
  (Ok rows,
   add_row_locks
     (flat_map (λ row, [LockTask row.1; LockRecord (TaskQueueORM.record_id row.2)]) rows) s).

(** The three assignments to [task_orm.record]. *)
Definition claim_record (manager_name : string) (now : Z) (r : BaseRecordORM.t) :
    BaseRecordORM.t :=
  BaseRecordORM.set_modified_on now
    (BaseRecordORM.set_manager_name (Some manager_name)
       (BaseRecordORM.set_status RecordStatusEnum.running r)).

Definition claim_task_record (manager_name : string) (row : nat * TaskQueueORM.t) :
    M Session unit := λ s,
  (Ok tt,
   set_store
     (set_base_record
        (alter (claim_record manager_name (clock s)) (TaskQueueORM.record_id row.2)
           (base_record (store s)))
        (store s)) s).

(** [task_orm.model_dict(exclude=["record"])]: the columns of the task as they
    are now. *)
Definition model_dict (task_id : nat) : M Session (nat * TaskQueueORM.t) := λ s,
  match task_queue (store s) !! task_id with
  | Some t => (Ok (task_id, t), s)
  | None => (Raise (OtherError "ObjectDeletedError"), s)
  end.

(** One pass of the loop over [manager.tags], after the test of [new_limit]:
    the query, the update of the records, the specifications, and the
    dictionaries with which [found] is extended. *)
Definition claim_for_tag (manager_name : string) (manager_programs : gset string)
    (tag : string) (new_limit : Z) : M Session (list (nat * TaskQueueORM.t)) :=
  new_items ← select_claimable manager_programs tag new_limit;
  for_each new_items (claim_task_record manager_name) ;;
  call_records (CallGenerateTaskSpecification new_items.*1)
    (records_generate_task_specification root_socket new_items.*1) ;;
  map_M (λ row, model_dict row.1) new_items.

(** The loop over [manager.tags]. *)
Fixpoint claim_tags (manager_name : string) (manager_programs : gset string) (limit : Z)
    (tags : list string) (found : list (nat * TaskQueueORM.t)) :
    M Session (list (nat * TaskQueueORM.t)) :=
  match tags with
  | [] => mret found
  | tag :: tags' =>
      let new_limit := (limit - Z.of_nat (length found))%Z in
      if decide (new_limit ≤ 0)%Z then mret found
      else
        dicts ← claim_for_tag manager_name manager_programs tag new_limit;
        claim_tags manager_name manager_programs limit tags' (found ++ dicts)
  end.

Definition add_claimed (manager_name : string) (n : Z) : M Session unit :=
  modify (λ s,
    set_compute_manager
      (alter (ComputeManagerORM.add_claimed n) manager_name (compute_manager s)) s).

Definition claim_tasks (manager_name : string) (limit : option Z) :
    M Session (list (nat * TaskQueueORM.t)) :=
  let limit := calculate_limit _tasks_claim_limit limit in
  manager ← select_manager_for_update manager_name;
  match manager with
  | None => raise (ComputeManagerError "Manager does not exist!")
  | Some manager =>
      if decide (ComputeManagerORM.status manager ≠ ManagerStatusEnum.active)
      then raise (ComputeManagerError "Manager is not active!")
      else
        let manager_programs := dom (ComputeManagerORM.programs manager) in
        found ← claim_tags manager_name manager_programs limit
                  (ComputeManagerORM.tags manager) [];
        add_claimed manager_name (Z.of_nat (length found)) ;;
        mret found
  end.

(** *** [update_finished] *)

(** The local variables of [update_finished] next to the session.  They are
    Python lists: what was appended stays appended when an exception is
    caught. *)
Record Frame : Type := mkFrame {
  session : Session;
  tasks_success : list nat;
  tasks_failures : list nat;
  tasks_rejected : list (nat * string);
  all_notifications : list (nat * RecordStatusEnum.t);
  to_be_reset : list nat;
  notify_status : option RecordStatusEnum.t
}.

Definition set_session (v : Session) (fr : Frame) : Frame :=
  mkFrame v (tasks_success fr) (tasks_failures fr) (tasks_rejected fr)
    (all_notifications fr) (to_be_reset fr) (notify_status fr).
Definition in_session {A} (m : M Session A) : M Frame A := zoom session set_session m.

Definition tasks_success_append (x : nat) : M Frame unit := modify (λ fr,
  mkFrame (session fr) (tasks_success fr ++ [x]) (tasks_failures fr) (tasks_rejected fr)
    (all_notifications fr) (to_be_reset fr) (notify_status fr)).
Definition tasks_failures_append (x : nat) : M Frame unit := modify (λ fr,
  mkFrame (session fr) (tasks_success fr) (tasks_failures fr ++ [x]) (tasks_rejected fr)
    (all_notifications fr) (to_be_reset fr) (notify_status fr)).
Definition tasks_rejected_append (x : nat * string) : M Frame unit := modify (λ fr,
  mkFrame (session fr) (tasks_success fr) (tasks_failures fr) (tasks_rejected fr ++ [x])
    (all_notifications fr) (to_be_reset fr) (notify_status fr)).
Definition all_notifications_append (x : nat * RecordStatusEnum.t) : M Frame unit :=
  modify (λ fr,
  mkFrame (session fr) (tasks_success fr) (tasks_failures fr) (tasks_rejected fr)
    (all_notifications fr ++ [x]) (to_be_reset fr) (notify_status fr)).
Definition to_be_reset_append (x : nat) : M Frame unit := modify (λ fr,
  mkFrame (session fr) (tasks_success fr) (tasks_failures fr) (tasks_rejected fr)
    (all_notifications fr) (to_be_reset fr ++ [x]) (notify_status fr)).
Definition set_notify_status (v : option RecordStatusEnum.t) : M Frame unit := modify (λ fr,
  mkFrame (session fr) (tasks_success fr) (tasks_failures fr) (tasks_rejected fr)
    (all_notifications fr) (to_be_reset fr) v).

Definition newline : string := String (Ascii.ascii_of_nat 10) EmptyString.

Definition unexpected_return_msg (task_id record_id : nat) : string :=
  "Unexpected return from manager for task " +:+ pretty task_id +:+ "/base result "
  +:+ pretty record_id +:+ ": Returned success != True, but not a FailedOperation".

Definition internal_error_msg (e : exn) : string :=
  "Internal FractalServer Error:" +:+ newline +:+ format_exc root_socket e.

(** [FailedOperation(error={"error_type": "internal_fractal_error",
    "error_message": msg}, success=False)] *)
Definition internal_failed_op (msg : string) : FailedOperation :=
  mkFailedOperation (mkComputeError "internal_fractal_error" msg) false.

Definition update_failed_task (record_id : nat) (failed_op : FailedOperation)
    (manager_name : string) : M Frame unit :=
  in_session (call_records (CallUpdateFailedTask record_id failed_op manager_name)
    (records_update_failed_task root_socket record_id failed_op manager_name)).

Definition update_completed_task (record_id : nat) (result : AllResultTypes)
    (manager_name : string) : M Frame unit :=
  in_session (call_records (CallUpdateCompletedTask record_id result manager_name)
    (records_update_completed_task root_socket record_id result manager_name)).

(** [should_reset(record_orm, auto_reset)], on the record as it is now. *)
Definition call_should_reset (record_id : nat) : M Frame bool := λ fr,
  let answer :=
    should_reset root_socket (store (session fr)) record_id
      (auto_reset (qcf_config root_socket)) in
  (Ok answer, set_session (log_call (CallShouldReset record_id answer) (session fr)) fr).

(** The [try] block for one result. *)
Definition apply_result (manager_name : string) (task_id : nat) (result : AllResultTypes)
    (record_id : nat) (record_orm : BaseRecordORM.t) : M Frame unit :=
  if decide (BaseRecordORM.status record_orm ≠ RecordStatusEnum.running) then
    tasks_rejected_append (task_id, "Task is not in a running state")
  else if decide (BaseRecordORM.manager_name record_orm ≠ Some manager_name) then
    tasks_rejected_append (task_id, "Task is claimed by another manager")
  else
    match (if success result then None else as_FailedOperation result) with
    | Some failed_result =>
        update_failed_task record_id failed_result manager_name ;;
        set_notify_status (Some RecordStatusEnum.error) ;;
        tasks_failures_append task_id ;;
        if enabled (auto_reset (qcf_config root_socket)) then
          answer ← call_should_reset record_id;
          if answer : bool then to_be_reset_append record_id else mret tt
        else mret tt
    | None =>
        if negb (success result) then
          let msg := unexpected_return_msg task_id record_id in
          let failed_op := internal_failed_op msg in
          update_failed_task record_id failed_op manager_name ;;
          set_notify_status (Some RecordStatusEnum.error) ;;
          tasks_rejected_append (task_id, "Returned success=False, but not a FailedOperation")
        else
          update_completed_task record_id result manager_name ;;
          set_notify_status (Some RecordStatusEnum.complete) ;;
          tasks_success_append task_id
    end.

(** The [except Exception] block. *)
Definition on_exception (manager_name : string) (task_id record_id : nat) (e : exn) :
    M Frame unit :=
  in_session nested_rollback ;;
  in_session begin_nested ;;
  let msg := internal_error_msg e in
  let failed_op := internal_failed_op msg in
  update_failed_task record_id failed_op manager_name ;;
  set_notify_status (Some RecordStatusEnum.error) ;;
  tasks_rejected_append (task_id, "Internal server error").

(** The [finally] block. *)
Definition release_savepoint (record_id : nat) : M Frame unit :=
  in_session nested_commit ;;
  status ← gets notify_status;
  match status with
  | Some st => all_notifications_append (record_id, st)
  | None => mret tt
  end.

(** The body of the loop over [results.items()]. *)
Definition process_result (manager_name : string) (item : nat * AllResultTypes) :
    M Frame unit :=
  let '(task_id, result) := item in
  task_orm ← in_session (select_task_for_update task_id);
  match task_orm with
  | None => tasks_rejected_append (task_id, "Task does not exist in the task queue")
  | Some (task_orm, record_orm) =>
      let record_id := TaskQueueORM.record_id task_orm in
      in_session begin_nested ;;
      set_notify_status None ;;
      try_except_finally
        (apply_result manager_name task_id result record_id record_orm)
        (on_exception manager_name task_id record_id)
        (release_savepoint record_id)
  end.

Definition add_stats (manager_name : string) (s f r : Z) : M Session unit :=
  modify (λ ses,
    set_compute_manager
      (alter (ComputeManagerORM.add_stats s f r) manager_name (compute_manager ses)) ses).

Definition notify_finished_watch (item : nat * RecordStatusEnum.t) : M Session unit :=
  modify (log_call (CallNotifyFinishedWatch item.1 item.2)).

(** The body of [update_finished], on its frame.  [results] is the dictionary
    as the list of its items, in the order of [results.items()]. *)
Definition update_finished_body (manager_name : string)
    (results : list (nat * AllResultTypes)) : M Frame TaskReturnMetadata :=
  manager ← in_session (select_manager_for_update manager_name);
  match manager with
  | None => raise (ComputeManagerError ("Manager " +:+ manager_name +:+ " does not exist"))
  | Some manager =>
      if decide (ComputeManagerORM.status manager ≠ ManagerStatusEnum.active)
      then raise (ComputeManagerError ("Manager " +:+ manager_name +:+ " is not active"))
      else
        for_each results (process_result manager_name) ;;
        n_success ← gets (λ fr, Z.of_nat (length (tasks_success fr)));
        n_failures ← gets (λ fr, Z.of_nat (length (tasks_failures fr)));
        n_rejected ← gets (λ fr, Z.of_nat (length (tasks_rejected fr)));
        in_session (add_stats manager_name n_success n_failures n_rejected) ;;
        resets ← gets to_be_reset;
        (if enabled (auto_reset (qcf_config root_socket)) && bool_decide (resets ≠ [])
         then in_session (call_records (CallReset resets) (records_reset root_socket resets))
         else mret tt) ;;
        notifications ← gets all_notifications;
        in_session (for_each notifications notify_finished_watch) ;;
        accepted ← gets (λ fr, tasks_success fr ++ tasks_failures fr);
        rejected ← gets tasks_rejected;
        mret (mkTaskReturnMetadata rejected accepted)
  end.

Definition new_frame (s : Session) : Frame := mkFrame s [] [] [] [] [] None.

Definition update_finished (manager_name : string) (results : list (nat * AllResultTypes)) :
    M Session TaskReturnMetadata := λ s,
  let '(r, fr) := update_finished_body manager_name results (new_frame s) in
  (r, session fr).

End TaskSocket.

(** ** A record socket after the spec's words *)

Module SpecRecords.

(** Modelled from the spec: [records.update_failed_task] is not among the
    sources.  "Apply failure outcome: append failure to compute history,
    status → error."  A record that is not in the table cannot be updated. *)
Definition update_failed_task (record_id : nat) (failed_op : FailedOperation)
    (manager_name : string) : M Store unit := λ st,
  match base_record st !! record_id with
  | None => (Raise (OtherError "record not found"), st)
  | Some r =>
      (Ok tt,
       set_base_record
         (<[record_id :=
              BaseRecordORM.set_compute_history
                (BaseRecordORM.compute_history r ++ [(RecordStatusEnum.error, Some manager_name)])
                (BaseRecordORM.set_status RecordStatusEnum.error r)]> (base_record st)) st)
  end.

(** Modelled from the spec: [records.update_completed_task] is not among the
    sources.  "Apply success outcome (append history, status → complete,
    persist outputs)."  The outputs are persisted last; a result without data
    has none, and the call raises with the record already changed. *)
Definition update_completed_task (record_id : nat) (result : AllResultTypes)
    (manager_name : string) : M Store unit := λ st,
  match base_record st !! record_id with
  | None => (Raise (OtherError "record not found"), st)
  | Some r =>
      let st' :=
        set_base_record
          (<[record_id :=
               BaseRecordORM.set_compute_history
                 (BaseRecordORM.compute_history r
                    ++ [(RecordStatusEnum.complete, Some manager_name)])
                 (BaseRecordORM.set_status RecordStatusEnum.complete r)]> (base_record st)) st in
      match result with
      | Computed _ EmptyString => (Raise (OtherError "no outputs"), st')
      | _ => (Ok tt, st')
      end
  end.

(** Modelled from the spec: [records.reset] is not among the sources.  "Reset:
    reverting a failed record to waiting", history preserved. *)
Definition reset_record (r : BaseRecordORM.t) : BaseRecordORM.t :=
  if decide (BaseRecordORM.status r = RecordStatusEnum.error)
  then BaseRecordORM.set_manager_name None
         (BaseRecordORM.set_status RecordStatusEnum.waiting r)
  else r.

Definition reset (record_ids : list nat) : M Store unit := λ st,
  (Ok tt,
   set_base_record (foldr (λ rid, alter reset_record rid) (base_record st) record_ids) st).

(** Modelled from the spec: [records.generate_task_specification] is not among
    the sources.  "Generate and attach any execution-ready specification
    payload lazily": a task without a specification gets one. *)
Definition attach_function (t : TaskQueueORM.t) : TaskQueueORM.t :=
  TaskQueueORM.mk (TaskQueueORM.record_id t)
    (match TaskQueueORM.function t with
     | None => Some "qcengine.compute"
     | Some f => Some f
     end)
    (TaskQueueORM.tag t) (TaskQueueORM.required_programs t) (TaskQueueORM.priority t)
    (TaskQueueORM.created_on t) (TaskQueueORM.available t).

Definition generate_task_specification (task_ids : list nat) : M Store unit := λ st,
  (Ok tt,
   mkStore (foldr (λ tid, alter attach_function tid) (task_queue st) task_ids)
     (base_record st)).

(** Modelled from the spec: [reset_logic.should_reset] is not among the
    sources.  It "examines the record's compute-history length and prior
    failure count against configured thresholds": the failures in the history
    are counted against [max_reset_attempts]. *)
Definition failure_count (r : BaseRecordORM.t) : nat :=
  length (filter (λ h, h.1 = RecordStatusEnum.error) (BaseRecordORM.compute_history r)).

Definition should_reset (st : Store) (record_id : nat) (config : AutoResetConfig) : bool :=
  match base_record st !! record_id with
  | None => false
  | Some r =>
      match max_reset_attempts config with
      | None => true
      | Some n => bool_decide (Z.of_nat (failure_count r) ≤ n)%Z
      end
  end.

Definition format_exc (e : exn) : string :=
  match e with
  | ComputeManagerError msg => "ComputeManagerError: " +:+ msg
  | RuntimeError msg => "RuntimeError: " +:+ msg
  | IndexError => "IndexError"
  | InvalidRequestError => "InvalidRequestError"
  | OtherError msg => msg
  end.

Definition root_socket (config : FractalConfig) : RootSocket :=
  mkRootSocket config update_failed_task update_completed_task reset
    generate_task_specification should_reset format_exc.

End SpecRecords.

(** ** [TorsiondriveRecordSocket] *)

Module Torsiondrive.

(** What the service passes on without looking into it.  Energies are
    floating-point numbers, of which the service uses only the equality and
    the order; [Database] stands for the tables of the other sockets. *)
Record Payloads : Type := mkPayloads {
  Energy : Type;
  Energy_eq_dec : EqDecision Energy;
  Energy_lt : Energy → Energy → bool;
  Geometry : Type;
  TDState : Type;
  MoleculeTemplate : Type;
  Keywords : Type;
  Database : Type
}.
#[global] Existing Instance Energy_eq_dec.

(** An entry of the dihedral template: [{"type": "dihedral", "indices": idx}],
    with ["value"] once it is set. *)
Record Constraint : Type := mkConstraint {
  constraint_type : string;
  indices : list nat;
  value : option Z
}.

(** [extras] of a dependency: [{"td_api_key": ..., "position": ...}] *)
Record DependencyExtras : Type := mkDependencyExtras {
  td_api_key : string;
  position : nat
}.

Record ServiceDependencyORM : Type := mkServiceDependencyORM {
  record_id : nat;
  extras : DependencyExtras
}.

Record TorsiondriveOptimizationORM : Type := mkTorsiondriveOptimizationORM {
  torsiondrive_id : nat;
  optimization_id : nat;
  key : string
}.

Record InsertMetadata : Type := mkInsertMetadata {
  success : bool;
  error_string : string
}.

Record Provenance : Type := mkProvenance {
  creator : string;
  version : string;
  routine : string
}.

(** Modelled from the spec: the declaration of the compute history is not
    among the sources; an entry has its provenance and its outputs, of which
    the service writes the standard output. *)
Record ComputeHistoryORM : Type := mkComputeHistoryORM {
  provenance : option Provenance;
  stdout : string
}.

Section Rows.
Context {P : Payloads}.

Record Molecule : Type := mkMolecule {
  template : MoleculeTemplate P;
  geometry : Geometry P
}.

(** An optimization specification: of its keywords, the service reads and
    writes [keywords["constraints"]["set"]], which may be absent. *)
Record OptimizationSpecification : Type := mkOptimizationSpecification {
  keywords : Keywords P;
  constraints_set : option (list Constraint)
}.

(** [TorsiondriveServiceState]; the two templates are kept as JSON text, which
    stands here for the value it encodes. *)
Record TorsiondriveServiceState : Type := mkTorsiondriveServiceState {
  torsiondrive_state : TDState P;
  molecule_template : MoleculeTemplate P;
  dihedral_template : list Constraint
}.

(** Modelled from the spec: the declaration of [ServiceQueueORM] is not among
    the sources; the columns are those of the spec's Service that the socket
    uses. *)
Record ServiceQueueORM : Type := mkServiceQueueORM {
  service_record_id : nat;
  compute_tag : string;
  compute_priority : Z;
  find_existing : bool;
  service_state : TorsiondriveServiceState;
  dependencies : list ServiceDependencyORM
}.

(** Modelled from the spec: the declaration of [TorsiondriveRecordORM] is not
    among the sources; of the record, the socket uses the compute history, the
    optimizations, the optimization specification and the owner. *)
Record TorsiondriveRecordORM : Type := mkTorsiondriveRecordORM {
  compute_history : list ComputeHistoryORM;
  optimizations : list TorsiondriveOptimizationORM;
  optimization_specification : OptimizationSpecification;
  owner_user_id : option nat;
  owner_group_id : option nat
}.

(** The record of a dependency, an optimization. *)
Record OptimizationRecordORM : Type := mkOptimizationRecordORM {
  initial_molecule_id : nat;
  final_molecule_id : option nat;
  energies : list (Energy P)
}.

(** What [iterate_service] works on: the service, its record, and the rest of
    the database. *)
Record State : Type := mkState {
  service_orm : ServiceQueueORM;
  td_orm : TorsiondriveRecordORM;
  database : Database P
}.

(** [next_tasks], and the results of the finished tasks: dictionaries, as the
    lists of their items in the order of insertion. *)
Definition NextTasks : Type := list (string * list (Geometry P)).
Definition TaskResults : Type :=
  list (string * list (Geometry P * Geometry P * Energy P)).

(** The torsiondrive package, the other sockets, and the columns that are
    read through the session.  What the package prints comes with its
    results. *)
Record Collaborators : Type := mkCollaborators {
  torsiondrive_version : string;
  update_state : TDState P → TaskResults → result (TDState P) * string;
  next_jobs_from_state : TDState P → result NextTasks * string;
  collect_lowest_energies : TDState P → list (list Z * Energy P);
  grid_id_from_string : string → list Z;
  serialize_key : list Z → string;
  optimization_add :
    list Molecule → OptimizationSpecification → string → Z → option nat → option nat →
    bool → M (Database P) (InsertMetadata * list nat);
  molecules_get : list (option nat) → M (Database P) (list (Geometry P));
  dependency_record : Database P → nat → option OptimizationRecordORM;
  optimization_energy : Database P → nat → option (Energy P)
}.

End Rows.
Arguments Molecule : clear implicits.
Arguments OptimizationSpecification : clear implicits.
Arguments TorsiondriveServiceState : clear implicits.
Arguments ServiceQueueORM : clear implicits.
Arguments TorsiondriveRecordORM : clear implicits.
Arguments OptimizationRecordORM : clear implicits.
Arguments State : clear implicits.
Arguments NextTasks : clear implicits.
Arguments TaskResults : clear implicits.
Arguments Collaborators : clear implicits.

(** [l[-1] = f(l[-1])], for a list that is not empty. *)
Fixpoint alter_last {A} (f : A → A) (l : list A) : list A :=
  match l with
  | [] => []
  | [x] => [f x]
  | x :: l' => x :: alter_last f l'
  end.

(** [sorted(l, key=key)]: stable. *)
Fixpoint insert_by {A} (key : A → nat) (x : A) (l : list A) : list A :=
  match l with
  | [] => [x]
  | y :: l' => if decide (key x < key y) then x :: y :: l' else y :: insert_by key x l'
  end.

Definition sorted_by {A} (key : A → nat) (l : list A) : list A :=
  foldl (λ acc x, insert_by key x acc) [] l.

(** [d.setdefault(k, []); d[k].append(v)] *)
Fixpoint dict_append {V} (k : string) (v : V) (d : list (string * list V)) :
    list (string * list V) :=
  match d with
  | [] => [(k, [v])]
  | (k', vs) :: d' =>
      if decide (k' = k) then (k', vs ++ [v]) :: d' else (k', vs) :: dict_append k v d'
  end.

(** [list(enumerate(l))] *)
Definition enumerate {A} (l : list A) : list (nat * A) := imap (λ i x, (i, x)) l.

Section Socket.
Context {P : Payloads} (root_socket : Collaborators P).

Definition set_service_orm (v : ServiceQueueORM P) (s : State P) : State P :=
  mkState v (td_orm s) (database s).
Definition set_td_orm (v : TorsiondriveRecordORM P) (s : State P) : State P :=
  mkState (service_orm s) v (database s).
Definition set_database (v : Database P) (s : State P) : State P :=
  mkState (service_orm s) (td_orm s) v.
Definition in_database {A} (m : M (Database P) A) : M (State P) A :=
  zoom database set_database m.

Definition set_dependencies (v : list ServiceDependencyORM) (svc : ServiceQueueORM P) :
    ServiceQueueORM P :=
  mkServiceQueueORM (service_record_id svc) (compute_tag svc) (compute_priority svc)
    (find_existing svc) (service_state svc) v.
Definition set_service_state (v : TorsiondriveServiceState P) (svc : ServiceQueueORM P) :
    ServiceQueueORM P :=
  mkServiceQueueORM (service_record_id svc) (compute_tag svc) (compute_priority svc)
    (find_existing svc) v (dependencies svc).
Definition set_compute_history (v : list ComputeHistoryORM) (r : TorsiondriveRecordORM P) :
    TorsiondriveRecordORM P :=
  mkTorsiondriveRecordORM v (optimizations r) (optimization_specification r)
    (owner_user_id r) (owner_group_id r).
Definition set_optimizations (v : list TorsiondriveOptimizationORM)
    (r : TorsiondriveRecordORM P) : TorsiondriveRecordORM P :=
  mkTorsiondriveRecordORM (compute_history r) v (optimization_specification r)
    (owner_user_id r) (owner_group_id r).
Definition set_torsiondrive_state (v : TDState P) (st : TorsiondriveServiceState P) :
    TorsiondriveServiceState P :=
  mkTorsiondriveServiceState v (molecule_template st) (dihedral_template st).

(** [td_orm.compute_history[-1].provenance = {...}] *)
Definition set_provenance : M (State P) unit := λ s,
  match compute_history (td_orm s) with
  | [] => (Raise IndexError, s)
  | h =>
      (Ok tt,
       set_td_orm
         (set_compute_history
            (alter_last
               (λ entry,
                  mkComputeHistoryORM
                    (Some (mkProvenance "torsiondrive" (torsiondrive_version root_socket)
                             "torsiondrive.td_api"))
                    (stdout entry))
               h)
            (td_orm s)) s)
  end.

(** Modelled from the spec: [records.append_output] is not among the sources.
    The text is appended to the standard output of the record, which is with
    the last entry of its compute history. *)
Definition append_output (text : string) : M (State P) unit := λ s,
  match compute_history (td_orm s) with
  | [] => (Raise IndexError, s)
  | h =>
      (Ok tt,
       set_td_orm
         (set_compute_history
            (alter_last
               (λ entry, mkComputeHistoryORM (provenance entry) (stdout entry +:+ text)) h)
            (td_orm s)) s)
  end.

(** [l[i]] *)
Definition index {S A} (l : list A) (i : nat) : M S A :=
  match l !! i with
  | Some x => mret x
  | None => raise IndexError
  end.

(** [l[-1]] *)
Definition last_item {S A} (l : list A) : M S A :=
  match last l with
  | Some x => mret x
  | None => raise IndexError
  end.

(** The body of the loop over [complete_tasks]: the entry for [task_results]. *)
Definition task_result (task : ServiceDependencyORM) :
    M (State P) (string * (Geometry P * Geometry P * Energy P)) :=
  let td_api_key := td_api_key (extras task) in
  db ← gets database;
  match dependency_record root_socket db (record_id task) with
  | None => raise (OtherError "AttributeError")
  | Some opt_record =>
      let mol_ids := [Some (initial_molecule_id opt_record); final_molecule_id opt_record] in
      mol_data ← in_database (molecules_get root_socket mol_ids);
      initial_mol_geom ← index mol_data 0;
      final_mol_geom ← index mol_data 1;
      energy ← last_item (energies opt_record);
      mret (td_api_key, (initial_mol_geom, final_mol_geom, energy))
  end.

(** The first part of [iterate_service], up to the answer of the torsiondrive
    package: the service state with the updated state of the package, the
    next tasks, and the text to append to the standard output. *)
Definition ask_torsiondrive :
    M (State P) (TorsiondriveServiceState P * NextTasks P * string) :=
  set_provenance ;;
  service_state ← gets (λ s, service_state (service_orm s));
  deps ← gets (λ s, dependencies (service_orm s));
  let complete_tasks := sorted_by (λ x, position (extras x)) deps in
  entries ← map_M task_result complete_tasks;
  let task_results := foldl (λ d entry, dict_append entry.1 entry.2 d) [] entries in
  match update_state root_socket (torsiondrive_state service_state) task_results with
  | (Raise e, _) => raise e
  | (Ok td_state, printed) =>
      match next_jobs_from_state root_socket td_state with
      | (Raise e, _) => raise e
      | (Ok next_tasks, printed') =>
          mret (set_torsiondrive_state td_state service_state, next_tasks,
                newline +:+ printed +:+ printed')
      end
  end.

(** [for con_num, k in enumerate(grid_id): constraints[con_num]["value"] = k] *)
Fixpoint set_values {S} (constraints : list Constraint) (grid_id : list (nat * Z)) :
    M S (list Constraint) :=
  match grid_id with
  | [] => mret constraints
  | (con_num, k) :: rest =>
      match constraints !! con_num with
      | None => raise IndexError
      | Some c =>
          set_values
            (<[con_num := mkConstraint (constraint_type c) (indices c) (Some k)]> constraints)
            rest
      end
  end.

Definition extend_constraints (constraints : list Constraint)
    (opt_spec : OptimizationSpecification P) : OptimizationSpecification P :=
  mkOptimizationSpecification (keywords opt_spec)
    (Some (default [] (constraints_set opt_spec) ++ constraints)).

(** The body of the loop over [enumerate(opt_ids)]. *)
Definition add_dependency (td_api_key opt_key : string) (item : nat * nat) :
    M (State P) unit :=
  let '(position, opt_id) := item in
  modify (λ s,
    let svc_dep := mkServiceDependencyORM opt_id (mkDependencyExtras td_api_key position) in
    let opt_history :=
      mkTorsiondriveOptimizationORM (service_record_id (service_orm s)) opt_id opt_key in
    set_td_orm (set_optimizations (optimizations (td_orm s) ++ [opt_history]) (td_orm s))
      (set_service_orm
         (set_dependencies (dependencies (service_orm s) ++ [svc_dep]) (service_orm s)) s)).

(** The body of the loop over [next_tasks.items()]. *)
Definition submit_for_key (service_state : TorsiondriveServiceState P)
    (opt_spec : OptimizationSpecification P) (item : string * list (Geometry P)) :
    M (State P) unit :=
  let '(td_api_key, geometries) := item in
  let grid_id := grid_id_from_string root_socket td_api_key in
  constraints ← set_values (dihedral_template service_state) (enumerate grid_id);
  let opt_spec2 := extend_constraints constraints opt_spec in
  let constrained_mols := mkMolecule (molecule_template service_state) <$> geometries in
  service_orm ← gets service_orm;
  td_orm ← gets td_orm;
  added ← in_database
    (optimization_add root_socket constrained_mols opt_spec2 (compute_tag service_orm)
       (compute_priority service_orm) (owner_user_id td_orm) (owner_group_id td_orm)
       (find_existing service_orm));
  let '(meta, opt_ids) := added in
  if negb (success meta) then
    raise (RuntimeError
             ("Error adding optimizations - likely a developer error: "
              +:+ error_string meta))
  else
    let opt_key := serialize_key root_socket grid_id in
    for_each (enumerate opt_ids) (add_dependency td_api_key opt_key).

Definition _submit_optimizations (service_state : TorsiondriveServiceState P)
    (next_tasks : NextTasks P) : M (State P) unit :=
  modify (λ s, set_service_orm (set_dependencies [] (service_orm s)) s) ;;
  opt_spec ← gets (λ s, optimization_specification (td_orm s));
  for_each next_tasks (submit_for_key service_state opt_spec).

(** A dictionary from its items, a later item replacing an earlier one with
    the same key. *)
Definition dict_of_items {V} (items : list (string * V)) : gmap string V :=
  foldl (λ d item, <[item.1 := item.2]> d) ∅ items.

(** [min(l)] for a list that is not empty, [None] for the empty list. *)
Definition min_energy (l : list (Energy P)) : option (Energy P) :=
  match l with
  | [] => None
  | e :: l' => Some (foldl (λ m x, if Energy_lt P x m then x else m) e l')
  end.

Definition lowest_energies (service_state : TorsiondriveServiceState P) :
    gmap string (option (Energy P)) :=
  dict_of_items
    ((λ item, (serialize_key root_socket item.1, Some item.2))
     <$> collect_lowest_energies root_socket (torsiondrive_state service_state)).

(** [our_energies]: for every key of an optimization, the energies of the
    optimizations with that key that have one. *)
Definition our_energies (s : State P) : gmap string (list (Energy P)) :=
  foldl
    (λ d x,
       match optimization_energy root_socket (database s) (optimization_id x) with
       | Some energy => <[key x := default [] (d !! key x) ++ [energy]]> d
       | None => d
       end)
    (dict_of_items ((λ x, (key x, [])) <$> optimizations (td_orm s)))
    (optimizations (td_orm s)).

Definition min_energies (s : State P) : gmap string (option (Energy P)) :=
  min_energy <$> our_energies s.

(** The [else] branch of [iterate_service]. *)
Definition check_lowest_energies (service_state : TorsiondriveServiceState P) :
    M (State P) unit := λ s,
  if decide (lowest_energies service_state ≠ min_energies s) then
    (Raise
       (RuntimeError
          "Minimum energies reported by the torsiondrive package do not match ours!"), s)
  else (Ok tt, s).

Definition iterate_service : M (State P) bool :=
  answer ← ask_torsiondrive;
  let '(service_state, next_tasks, stdout_append) := answer in
  (if decide (0 < length next_tasks)
   then _submit_optimizations service_state next_tasks
   else check_lowest_energies service_state) ;;
  append_output stdout_append ;;
  modify (λ s, set_service_orm (set_service_state service_state (service_orm s)) s) ;;
  mret (bool_decide (length next_tasks = 0)).

End Socket.

(** *** The end of an iteration *)

Section Finished.
Context {P : Payloads}.

(** The state after [append_output], for a record with a compute history. *)
Definition with_output (text : string) (s : State P) : State P :=
  set_td_orm
    (set_compute_history
       (alter_last (λ entry, mkComputeHistoryORM (provenance entry) (stdout entry +:+ text))
          (compute_history (td_orm s)))
       (td_orm s)) s.

(** The state after the last statements of [iterate_service]: the output is
    appended and the service state is stored. *)
Definition finished (service_state : TorsiondriveServiceState P) (text : string)
    (s : State P) : State P :=
  set_service_orm (set_service_state service_state (service_orm (with_output text s)))
    (with_output text s).

End Finished.

(** *** What a batch of next tasks leaves *)

(** The dependencies made for the optimizations [opt_ids] of one key: one for
    each, with the key and the position among them as [extras]. *)
Definition new_dependencies (offset : nat) (td_api_key : string) (opt_ids : list nat) :
    list ServiceDependencyORM :=
  imap (λ i opt_id, mkServiceDependencyORM opt_id (mkDependencyExtras td_api_key (offset + i)))
    opt_ids.

Definition new_history (service_id : nat) (opt_key : string) (opt_ids : list nat) :
    list TorsiondriveOptimizationORM :=
  (λ opt_id, mkTorsiondriveOptimizationORM service_id opt_id opt_key) <$> opt_ids.

(** The [extras] that a batch of next tasks asks for: for every key, the
    positions of its geometries. *)
Definition expected_extras {P : Payloads} (next_tasks : NextTasks P) : list DependencyExtras :=
  flat_map (λ item, imap (λ i _, mkDependencyExtras item.1 i) item.2) next_tasks.

(** The number of sub-tasks of a batch: the geometries of all keys. *)
Definition task_count {P : Payloads} (next_tasks : NextTasks P) : nat :=
  sum_list ((λ item, length item.2) <$> next_tasks).

(** [optimization.add] returns the ids "in the same order as the molecules":
    when it succeeds, one id for each molecule. *)
Definition add_returns_an_id_for_each_molecule {P : Payloads} (rs : Collaborators P) : Prop :=
  ∀ mols spec tag priority user group find db meta opt_ids db',
    optimization_add rs mols spec tag priority user group find db
      = (Ok (meta, opt_ids), db') →
    success meta = true → length opt_ids = length mols.

(** [groups] are the ids that [optimization.add] has returned for
    [next_tasks], key by key: for each key, the ids that a successful call
    returned for the molecules made of the geometries of the key. *)
Definition submitted {P : Payloads} (rs : Collaborators P)
    (service_state : TorsiondriveServiceState P) (svc : ServiceQueueORM P)
    (td : TorsiondriveRecordORM P) (next_tasks : NextTasks P)
    (groups : list (string * list nat)) : Prop :=
  Forall2
    (λ group item,
       group.1 = item.1 ∧
       ∃ spec db meta db',
         optimization_add rs (mkMolecule (molecule_template service_state) <$> item.2) spec
           (compute_tag svc) (compute_priority svc) (owner_user_id td) (owner_group_id td)
           (find_existing svc) db = (Ok (meta, group.2), db') ∧
         success meta = true)
    groups next_tasks.


End Torsiondrive.

(** ** Contracts of the record socket *)

(** Two task rows that differ at most in [function]. *)
Definition same_columns (t t' : TaskQueueORM.t) : Prop :=
  TaskQueueORM.record_id t = TaskQueueORM.record_id t' ∧
  TaskQueueORM.tag t = TaskQueueORM.tag t' ∧
  TaskQueueORM.required_programs t = TaskQueueORM.required_programs t' ∧
  TaskQueueORM.priority t = TaskQueueORM.priority t' ∧
  TaskQueueORM.created_on t = TaskQueueORM.created_on t' ∧
  TaskQueueORM.available t = TaskQueueORM.available t'.

(** [generate_task_specification] attaches specifications: when it returns,
    the records are as they were, and so is every task but for [function]. *)
Definition generate_task_specification_frame (rs : RootSocket) : Prop :=
  ∀ task_ids st st',
    records_generate_task_specification rs task_ids st = (Ok tt, st') →
    base_record st' = base_record st ∧
    ∀ task_id, option_Forall2 same_columns (task_queue st' !! task_id) (task_queue st !! task_id).


(** [update_failed_task] works on the record it is given and on its task:
    other records, and the tasks of other records, are as they were. *)
Definition update_failed_task_frame (rs : RootSocket) : Prop :=
  ∀ record_id failed_op manager_name st st',
    records_update_failed_task rs record_id failed_op manager_name st = (Ok tt, st') →
    (∀ rid, rid ≠ record_id → base_record st' !! rid = base_record st !! rid) ∧
    (∀ task_id t, task_queue st !! task_id = Some t → TaskQueueORM.record_id t ≠ record_id →
       task_queue st' !! task_id = Some t).


(** The records of the tasks of one query after the loop over [new_items]. *)
Definition claim_records (manager_name : string) (now : Z) (record_ids : list nat)
    (records : gmap nat BaseRecordORM.t) : gmap nat BaseRecordORM.t :=
  foldl (λ b rid, alter (claim_record manager_name now) rid b) records record_ids.

(** A returned task dictionary and a task row with the same key and the same
    columns but for [function]. *)
Definition row_equiv (d row : nat * TaskQueueORM.t) : Prop :=
  d.1 = row.1 ∧ same_columns d.2 row.2.

Definition record_ids (rows : list (nat * TaskQueueORM.t)) : list nat :=
  (λ row, TaskQueueORM.record_id row.2) <$> rows.

(** What a session [s] is in the middle of a claim that began in [s0], when
    the records [claimed] have been claimed for [manager_name]: the task rows
    have their columns but for [function], and the records are those of [s0]
    with the claimed ones marked. *)
Definition claim_inv (manager_name : string) (s0 : Session) (claimed : list nat)
    (s : Session) : Prop :=
  (∀ task_id,
     option_Forall2 same_columns
       (task_queue (store s) !! task_id) (task_queue (store s0) !! task_id)) ∧
  (∀ rid,
     base_record (store s) !! rid =
     if decide (rid ∈ claimed)
     then claim_record manager_name (clock s0) <$> base_record (store s0) !! rid
     else base_record (store s0) !! rid) ∧
  clock s = clock s0 ∧
  compute_manager s = compute_manager s0.

(** What [claim_tasks] takes for one tag, in terms of the session [s0] in
    which the claim began: [group] are the task dictionaries returned for
    [tag] when [remaining] tasks may still be claimed and the records
    [claimed_before] have been claimed for earlier tags.  The tasks are
    claimable in [s0] and not yet claimed, they come in the order of the
    query, and a claimable task that is left out comes after all of them,
    the group then being full. *)
Definition claimed_group (manager_programs : gset string) (s0 : Session)
    (claimed_before : list nat) (tag : string) (remaining : Z)
    (group : list (nat * TaskQueueORM.t)) : Prop :=
  (0 < remaining)%Z ∧
  (Z.of_nat (length group) ≤ remaining)%Z ∧
  StronglySorted task_order group ∧
  NoDup group.*1 ∧
  Forall (λ d, ∃ t0,
    task_queue (store s0) !! d.1 = Some t0 ∧ same_columns d.2 t0 ∧
    claimable (store s0) manager_programs tag (d.1, t0) ∧
    TaskQueueORM.record_id t0 ∉ claimed_before) group ∧
  (∀ task_id t0,
     task_queue (store s0) !! task_id = Some t0 →
     claimable (store s0) manager_programs tag (task_id, t0) →
     TaskQueueORM.record_id t0 ∉ claimed_before →
     task_id ∈ group.*1 ∨
     (Z.of_nat (length group) = remaining ∧ ∀ d, d ∈ group → task_order d (task_id, t0))).

(** ** One result of [update_finished], case by case *)

(** How the body of the loop ends: with nothing, or with an exception. *)
Definition ending : Type := result unit.

Section ProcessResultCases.
Context (rs : RootSocket) (manager_name : string).

(** The task and its record as [select_task_for_update] finds them. *)
Definition lookup_task (s : Session) (task_id : nat) :
    option (TaskQueueORM.t * BaseRecordORM.t) :=
  t ← task_queue (store s) !! task_id;
  r ← base_record (store s) !! TaskQueueORM.record_id t;
  Some (t, r).

(** The session after the result of a task that was found: the rows of the
    task and its record are locked, the savepoint is released, the tables are
    [st'], and [new_calls] were made. *)
Definition session_after (s : Session) (task_id record_id : nat) (st' : Store)
    (new_calls : list Call) : Session :=
  mkSession st' (compute_manager s)
    (row_locks s ++ [LockTask task_id; LockRecord record_id])
    (savepoints s) (clock s) (calls s ++ new_calls).

(** The call that [apply_result] makes for a result that passes the checks. *)
Definition first_call (task_id record_id : nat) (result : AllResultTypes) :
    Call * M Store unit :=
  if success result then
    (CallUpdateCompletedTask record_id result manager_name,
     records_update_completed_task rs record_id result manager_name)
  else
    let failed_op :=
      match as_FailedOperation result with
      | Some f => f
      | None => internal_failed_op (unexpected_return_msg task_id record_id)
      end in
    (CallUpdateFailedTask record_id failed_op manager_name,
     records_update_failed_task rs record_id failed_op manager_name).

(** The failure payload of the [except] block. *)
Definition internal_error_op (e : exn) : FailedOperation :=
  internal_failed_op (internal_error_msg rs e).

Definition reset_calls (st' : Store) (record_id : nat) : list Call :=
  if enabled (auto_reset (qcf_config rs))
  then [CallShouldReset record_id
          (should_reset rs st' record_id (auto_reset (qcf_config rs)))]
  else [].

Definition reset_ids (st' : Store) (record_id : nat) : list nat :=
  if enabled (auto_reset (qcf_config rs))
     && should_reset rs st' record_id (auto_reset (qcf_config rs))
  then [record_id] else [].

(** [process_result_case task_id result fr r fr']: the result [result] for
    [task_id], processed in the frame [fr], ends with [r] in the frame [fr'].
    Every way through the body of the loop is one case. *)
Inductive process_result_case (task_id : nat) (result : AllResultTypes) (fr : Frame) :
    ending → Frame → Prop :=
| case_missing :
    lookup_task (session fr) task_id = None →
    process_result_case task_id result fr (Ok tt)
      (mkFrame (session fr) (tasks_success fr) (tasks_failures fr)
         (tasks_rejected fr ++ [(task_id, "Task does not exist in the task queue")])
         (all_notifications fr) (to_be_reset fr) (notify_status fr))
| case_not_running t r :
    lookup_task (session fr) task_id = Some (t, r) →
    BaseRecordORM.status r ≠ RecordStatusEnum.running →
    process_result_case task_id result fr (Ok tt)
      (mkFrame
         (session_after (session fr) task_id (TaskQueueORM.record_id t)
            (store (session fr)) [])
         (tasks_success fr) (tasks_failures fr)
         (tasks_rejected fr ++ [(task_id, "Task is not in a running state")])
         (all_notifications fr) (to_be_reset fr) None)
| case_other_manager t r :
    lookup_task (session fr) task_id = Some (t, r) →
    BaseRecordORM.status r = RecordStatusEnum.running →
    BaseRecordORM.manager_name r ≠ Some manager_name →
    process_result_case task_id result fr (Ok tt)
      (mkFrame
         (session_after (session fr) task_id (TaskQueueORM.record_id t)
            (store (session fr)) [])
         (tasks_success fr) (tasks_failures fr)
         (tasks_rejected fr ++ [(task_id, "Task is claimed by another manager")])
         (all_notifications fr) (to_be_reset fr) None)
| case_failure t r f st' :
    lookup_task (session fr) task_id = Some (t, r) →
    BaseRecordORM.status r = RecordStatusEnum.running →
    BaseRecordORM.manager_name r = Some manager_name →
    result = Failed f → fo_success f = false →
    records_update_failed_task rs (TaskQueueORM.record_id t) f manager_name
      (store (session fr)) = (Ok tt, st') →
    process_result_case task_id result fr (Ok tt)
      (mkFrame
         (session_after (session fr) task_id (TaskQueueORM.record_id t) st'
            (CallUpdateFailedTask (TaskQueueORM.record_id t) f manager_name
             :: reset_calls st' (TaskQueueORM.record_id t)))
         (tasks_success fr) (tasks_failures fr ++ [task_id]) (tasks_rejected fr)
         (all_notifications fr ++ [(TaskQueueORM.record_id t, RecordStatusEnum.error)])
         (to_be_reset fr ++ reset_ids st' (TaskQueueORM.record_id t))
         (Some RecordStatusEnum.error))
| case_malformed t r data st' :
    lookup_task (session fr) task_id = Some (t, r) →
    BaseRecordORM.status r = RecordStatusEnum.running →
    BaseRecordORM.manager_name r = Some manager_name →
    result = Computed false data →
    records_update_failed_task rs (TaskQueueORM.record_id t)
      (internal_failed_op (unexpected_return_msg task_id (TaskQueueORM.record_id t)))
      manager_name (store (session fr)) = (Ok tt, st') →
    process_result_case task_id result fr (Ok tt)
      (mkFrame
         (session_after (session fr) task_id (TaskQueueORM.record_id t) st'
            [CallUpdateFailedTask (TaskQueueORM.record_id t)
               (internal_failed_op
                  (unexpected_return_msg task_id (TaskQueueORM.record_id t)))
               manager_name])
         (tasks_success fr) (tasks_failures fr)
         (tasks_rejected fr
          ++ [(task_id, "Returned success=False, but not a FailedOperation")])
         (all_notifications fr ++ [(TaskQueueORM.record_id t, RecordStatusEnum.error)])
         (to_be_reset fr) (Some RecordStatusEnum.error))
| case_success t r st' :
    lookup_task (session fr) task_id = Some (t, r) →
    BaseRecordORM.status r = RecordStatusEnum.running →
    BaseRecordORM.manager_name r = Some manager_name →
    success result = true →
    records_update_completed_task rs (TaskQueueORM.record_id t) result manager_name
      (store (session fr)) = (Ok tt, st') →
    process_result_case task_id result fr (Ok tt)
      (mkFrame
         (session_after (session fr) task_id (TaskQueueORM.record_id t) st'
            [CallUpdateCompletedTask (TaskQueueORM.record_id t) result manager_name])
         (tasks_success fr ++ [task_id]) (tasks_failures fr) (tasks_rejected fr)
         (all_notifications fr ++ [(TaskQueueORM.record_id t, RecordStatusEnum.complete)])
         (to_be_reset fr) (Some RecordStatusEnum.complete))
| case_internal_error t r e st_raised st' :
    lookup_task (session fr) task_id = Some (t, r) →
    BaseRecordORM.status r = RecordStatusEnum.running →
    BaseRecordORM.manager_name r = Some manager_name →
    (first_call task_id (TaskQueueORM.record_id t) result).2 (store (session fr))
      = (Raise e, st_raised) →
    records_update_failed_task rs (TaskQueueORM.record_id t) (internal_error_op e)
      manager_name (store (session fr)) = (Ok tt, st') →
    process_result_case task_id result fr (Ok tt)
      (mkFrame
         (session_after (session fr) task_id (TaskQueueORM.record_id t) st'
            [(first_call task_id (TaskQueueORM.record_id t) result).1;
             CallUpdateFailedTask (TaskQueueORM.record_id t) (internal_error_op e)
               manager_name])
         (tasks_success fr) (tasks_failures fr)
         (tasks_rejected fr ++ [(task_id, "Internal server error")])
         (all_notifications fr ++ [(TaskQueueORM.record_id t, RecordStatusEnum.error)])
         (to_be_reset fr) (Some RecordStatusEnum.error))
| case_double_fault t r e st_raised e' st_raised' :
    lookup_task (session fr) task_id = Some (t, r) →
    BaseRecordORM.status r = RecordStatusEnum.running →
    BaseRecordORM.manager_name r = Some manager_name →
    (first_call task_id (TaskQueueORM.record_id t) result).2 (store (session fr))
      = (Raise e, st_raised) →
    records_update_failed_task rs (TaskQueueORM.record_id t) (internal_error_op e)
      manager_name (store (session fr)) = (Raise e', st_raised') →
    process_result_case task_id result fr (Raise e')
      (mkFrame
         (session_after (session fr) task_id (TaskQueueORM.record_id t) st_raised'
            [(first_call task_id (TaskQueueORM.record_id t) result).1;
             CallUpdateFailedTask (TaskQueueORM.record_id t) (internal_error_op e)
               manager_name])
         (tasks_success fr) (tasks_failures fr) (tasks_rejected fr)
         (all_notifications fr) (to_be_reset fr) None).

End ProcessResultCases.

(** ** What a batch of results adds *)

(** The reasons with which [update_finished] rejects a result. *)
Definition rejection_reasons : list string :=
  ["Task does not exist in the task queue"; "Task is not in a running state";
   "Task is claimed by another manager";
   "Returned success=False, but not a FailedOperation"; "Internal server error"].

(** The records for which [should_reset] answered yes, in the order of the
    calls. *)
Definition recommended_resets (cs : list Call) : list nat :=
  omap (λ c, match c with CallShouldReset rid true => Some rid | _ => None end) cs.

Definition is_reset_call (c : Call) : Prop :=
  match c with CallReset _ => True | _ => False end.

Definition is_should_reset_call (c : Call) : Prop :=
  match c with CallShouldReset _ _ => True | _ => False end.

Definition is_notify_call (c : Call) : Prop :=
  match c with CallNotifyFinishedWatch _ _ => True | _ => False end.

Definition notifies_completion (c : Call) : Prop :=
  match c with
  | CallNotifyFinishedWatch _ RecordStatusEnum.complete => True
  | _ => False
  end.

#[global] Instance notifies_completion_dec c : Decision (notifies_completion c).
Proof. destruct c as [| | | | |? []]; simpl; apply _. Defined.

(** Every call of [should_reset] in [cs] is made with automatic resets
    enabled, and comes right after the call that recorded, for the same
    record, a [FailedOperation] with [success = False] that is among
    [results]. *)
Definition should_reset_discipline (rs : RootSocket) (manager_name : string)
    (results : list (nat * AllResultTypes)) (cs : list Call) : Prop :=
  ∀ before after rid answer,
    cs = before ++ CallShouldReset rid answer :: after →
    enabled (auto_reset (qcf_config rs)) = true ∧
    ∃ before' task_id f,
      before = before' ++ [CallUpdateFailedTask rid f manager_name] ∧
      (task_id, Failed f) ∈ results ∧ fo_success f = false.

(** What the results [results], processed without an exception that leaves
    the loop, add to the frame [fr], which becomes [fr']. *)
Definition batch_delta (rs : RootSocket) (manager_name : string)
    (results : list (nat * AllResultTypes)) (fr fr' : Frame) : Prop :=
  ∃ succ fail rej notifs resets new_calls new_locks,
    tasks_success fr' = tasks_success fr ++ succ ∧
    tasks_failures fr' = tasks_failures fr ++ fail ∧
    tasks_rejected fr' = tasks_rejected fr ++ rej ∧
    all_notifications fr' = all_notifications fr ++ notifs ∧
    to_be_reset fr' = to_be_reset fr ++ resets ∧
    calls (session fr') = calls (session fr) ++ new_calls ∧
    row_locks (session fr') = row_locks (session fr) ++ new_locks ∧
    compute_manager (session fr') = compute_manager (session fr) ∧
    savepoints (session fr') = savepoints (session fr) ∧
    clock (session fr') = clock (session fr) ∧
    succ ++ fail ++ rej.*1 ≡ₚ results.*1 ∧
    (∀ task_id, task_id ∈ succ → ∃ result rid,
       (task_id, result) ∈ results ∧ success result = true ∧
       CallUpdateCompletedTask rid result manager_name ∈ new_calls ∧
       (rid, RecordStatusEnum.complete) ∈ notifs) ∧
    (∀ task_id, task_id ∈ fail → ∃ f rid,
       (task_id, Failed f) ∈ results ∧ fo_success f = false ∧
       CallUpdateFailedTask rid f manager_name ∈ new_calls ∧
       (rid, RecordStatusEnum.error) ∈ notifs) ∧
    (∀ task_id reason, (task_id, reason) ∈ rej →
       task_id ∈ results.*1 ∧ reason ∈ rejection_reasons) ∧
    resets = recommended_resets new_calls ∧
    should_reset_discipline rs manager_name results new_calls ∧
    Forall (λ c, ¬ is_reset_call c ∧ ¬ is_notify_call c) new_calls ∧
    length (filter (λ n, n.2 = RecordStatusEnum.complete) notifs) = length succ.


(** The session after the loop of [update_finished] has ended in the frame
    [fr]: the counters of the manager are updated, the records queued for a
    reset are reset in one call if there are any and automatic resets are
    enabled, and the notifications are sent. *)
Definition log_calls (cs : list Call) (s : Session) : Session :=
  mkSession (store s) (compute_manager s) (row_locks s) (savepoints s) (clock s)
    (calls s ++ cs).

Definition with_stats (manager_name : string) (fr : Frame) : Session :=
  set_compute_manager
    (alter
       (ComputeManagerORM.add_stats (Z.of_nat (length (tasks_success fr)))
          (Z.of_nat (length (tasks_failures fr))) (Z.of_nat (length (tasks_rejected fr))))
       manager_name (compute_manager (session fr)))
    (session fr).

Definition notification_calls (fr : Frame) : list Call :=
  (λ item, CallNotifyFinishedWatch item.1 item.2) <$> all_notifications fr.

(** ** A small server *)

(** One manager, four tasks and their records, with the record socket
    modelled above.  Task 4 needs a program the manager does not have. *)
Module Example.

Definition config : FractalConfig :=
  mkFractalConfig (mkAutoResetConfig true (Some 1%Z) false) 5%Z.

Definition root_socket : RootSocket := SpecRecords.root_socket config.

Definition record (status : RecordStatusEnum.t) (manager_name : option string) :
    BaseRecordORM.t :=
  BaseRecordORM.mk status manager_name 0%Z [].

Definition task (record_id : nat) (tag : string) (programs : list string)
    (priority created_on : Z) : TaskQueueORM.t :=
  TaskQueueORM.mk record_id None tag programs priority created_on true.

Definition manager : ComputeManagerORM.t :=
  ComputeManagerORM.mk "manager-1" ManagerStatusEnum.active
    {[ "psi4" := None; "rdkit" := None ]} ["tagA"; "*"] 0 0 0 0.

Definition sleeper : ComputeManagerORM.t :=
  ComputeManagerORM.mk "manager-2" ManagerStatusEnum.inactive
    {[ "psi4" := None ]} ["*"] 0 0 0 0.

Definition tasks : gmap nat TaskQueueORM.t :=
  list_to_map
    [(1, task 11 "tagA" ["psi4"] 1 10); (2, task 12 "tagB" ["psi4"] 2 11);
     (3, task 13 "tagA" ["psi4"] 2 12); (4, task 14 "tagA" ["xtb"] 2 5)].

Definition managers : gmap string ComputeManagerORM.t :=
  {[ "manager-1" := manager; "manager-2" := sleeper ]}.

(** Every record waits. *)
Definition waiting_session : Session :=
  mkSession
    (mkStore tasks
       (list_to_map
          [(11, record RecordStatusEnum.waiting None);
           (12, record RecordStatusEnum.waiting None);
           (13, record RecordStatusEnum.waiting None);
           (14, record RecordStatusEnum.waiting None)]))
    managers [] [] 100%Z [].

(** Records 11 to 13 run on the manager; record 14 is complete. *)
Definition running_session : Session :=
  mkSession
    (mkStore tasks
       (list_to_map
          [(11, record RecordStatusEnum.running (Some "manager-1"));
           (12, record RecordStatusEnum.running (Some "manager-1"));
           (13, record RecordStatusEnum.running (Some "manager-1"));
           (14, record RecordStatusEnum.complete None)]))
    managers [] [] 200%Z [].

Definition value {A} (r : result A * Session) (default : A) : A :=
  match r.1 with Ok a => a | Raise _ => default end.

(** The manager asks for two tasks. *)
Definition claim_run : result (list (nat * TaskQueueORM.t)) * Session :=
  claim_tasks root_socket "manager-1" (Some 2%Z) waiting_session.
Definition claim_found : list (nat * TaskQueueORM.t) := value claim_run [].

(** The manager sends back five results: a success, a success without data
    (the record socket raises), a failure, something that is neither for the
    task of the complete record, and a success for a task that is not there. *)
Definition failure : FailedOperation :=
  mkFailedOperation (mkComputeError "random_error" "boom") false.

Definition batch : list (nat * AllResultTypes) :=
  [(1, Computed true "energy"); (2, Computed true EmptyString); (3, Failed failure);
   (4, Computed false "junk"); (7, Computed true "energy")].

Definition update_run : result TaskReturnMetadata * Session :=
  update_finished root_socket "manager-1" batch running_session.
Definition update_meta : TaskReturnMetadata :=
  value update_run (mkTaskReturnMetadata [] []).

(** The frame in which the loop of [update_finished] begins. *)
Definition first_frame : Frame :=
  new_frame (add_row_locks [LockManager "manager-1"] running_session).


End Example.

(** ** A small torsiondrive service *)

(** Modelled from the spec: the torsiondrive package, [optimization.add] and
    [molecules.get] are not among the sources.  Here a package that keeps the
    jobs still to run and the lowest energy of each grid point it has results
    for, and a database that numbers what it adds. *)
Module TorsiondriveExample.
Import Torsiondrive.

Record td_state : Type := mk_td_state {
  pending : list (string * list (list Z));
  lowest : list (list Z * Z)
}.

(** Optimizations as (initial molecule, final molecule, energies), and the
    geometries of the molecules. *)
Record db : Type := mk_db {
  optimization_rows : gmap nat (nat * option nat * list Z);
  molecule_rows : gmap nat (list Z);
  next_id : nat
}.

Definition payloads : Payloads :=
  mkPayloads Z Z.eq_dec Z.ltb (list Z) td_state string string db.

Definition grid_id_from_string (td_api_key : string) : list Z :=
  if decide (td_api_key = "0") then [0%Z]
  else if decide (td_api_key = "90") then [90%Z] else [].

Definition serialize_key (grid_id : list Z) : string :=
  if decide (grid_id = [0%Z]) then "[0]"
  else if decide (grid_id = [90%Z]) then "[90]" else "[]".

Definition lowest_of (energies : list Z) : option Z :=
  match energies with
  | [] => None
  | e :: l => Some (foldl Z.min e l)
  end.

Definition update_state (st : td_state) (task_results : list (string * list (list Z * list Z * Z))) :
    result td_state * string :=
  (Ok (mk_td_state
         (filter (λ job, job.1 ∉ task_results.*1) (pending st))
         (lowest st
          ++ omap (λ item, pair (grid_id_from_string item.1) <$> lowest_of (item.2.*2))
               task_results)),
   "update_state ").

Definition next_jobs_from_state (st : td_state) :
    result (list (string * list (list Z))) * string :=
  (Ok (pending st), "next_jobs").

Definition add_row (base : nat) (d : db) (item : nat * list Z) : db :=
  mk_db (<[base + item.1 := (base + item.1, None, [])]> (optimization_rows d))
    (<[base + item.1 := item.2]> (molecule_rows d)) (S (base + item.1)).

Definition optimization_add (mols : list (Molecule payloads))
    (spec : OptimizationSpecification payloads) (tag : string) (priority : Z)
    (user group : option nat) (find : bool) : M db (InsertMetadata * list nat) := λ d,
  if decide (tag = "closed") then
    (Ok (mkInsertMetadata false "no such tag", []), d)
  else
    (Ok (mkInsertMetadata true EmptyString, seq (next_id d) (length mols)),
     foldl (add_row (next_id d)) d (enumerate (geometry <$> mols))).

Definition molecules_get (ids : list (option nat)) : M db (list (list Z)) := λ d,
  match mapM (λ id : option nat, id ≫= λ i, molecule_rows d !! i) ids with
  | Some found => (Ok found, d)
  | None => (Raise (OtherError "MissingDataError"), d)
  end.

Definition dependency_record (d : db) (rid : nat) : option (OptimizationRecordORM payloads) :=
  (λ row : nat * option nat * list Z,
     @mkOptimizationRecordORM payloads row.1.1 row.1.2 row.2)
  <$> optimization_rows d !! rid.

Definition optimization_energy (d : db) (rid : nat) : option Z :=
  optimization_rows d !! rid ≫= λ row, last row.2.

Definition root_socket : Collaborators payloads :=
  @mkCollaborators payloads "1.1.0" update_state next_jobs_from_state lowest grid_id_from_string
    serialize_key optimization_add molecules_get dependency_record optimization_energy.

(** Two optimizations for the grid point 0 have run. *)
Definition rows : db :=
  mk_db
    (list_to_map [(201, (1, Some 2, [5; 4]%Z)); (202, (3, Some 4, [6; 3]%Z))])
    (list_to_map [(1, [10%Z]); (2, [11%Z]); (3, [12%Z]); (4, [13%Z])])
    300.

Definition record : TorsiondriveRecordORM payloads :=
  @mkTorsiondriveRecordORM payloads [mkComputeHistoryORM None "started"]
    [mkTorsiondriveOptimizationORM 7 201 "[0]"; mkTorsiondriveOptimizationORM 7 202 "[0]"]
    (@mkOptimizationSpecification payloads "{}" None) None None.

Definition service (jobs : list (string * list (list Z))) : ServiceQueueORM payloads :=
  @mkServiceQueueORM payloads 7 "tagA" 1 true
    (@mkTorsiondriveServiceState payloads (mk_td_state jobs []) "molecule"
       [mkConstraint "dihedral" [0; 1; 2; 3] None])
    [mkServiceDependencyORM 202 (mkDependencyExtras "0" 1);
     mkServiceDependencyORM 201 (mkDependencyExtras "0" 0)].

(** The package still has the grid point 90 to run, from three geometries. *)
Definition middle : State payloads :=
  @mkState payloads (service [("0", [[10]; [12]]%Z); ("90", [[11]; [13]; [14]]%Z)]) record rows.

(** The package has nothing more to run. *)
Definition final : State payloads :=
  @mkState payloads (service [("0", [[10]; [12]]%Z)]) record rows.

(** What the package answers, in a state where it answers. *)
Definition answer (s : State payloads) :
    TorsiondriveServiceState payloads * NextTasks payloads * string :=
  match (ask_torsiondrive root_socket s).1 with
  | Ok a => a
  | Raise _ => (service_state (service_orm s), [], EmptyString)
  end.

Definition asked (s : State payloads) : State payloads :=
  (ask_torsiondrive root_socket s).2.

End TorsiondriveExample.

(** ** [TorsiondriveRecordSocket.initialize_service] *)

Module TorsiondriveInitialize.
Import Torsiondrive.

Section Socket.
Context {P : Payloads} {StoredMolecule Symbols : Type}.

(** The keywords of a torsiondrive specification that the socket reads. *)
Record TorsiondriveKeywords : Type := mkTorsiondriveKeywords {
  dihedrals : list (list nat);
  grid_spacing : list Z;
  dihedral_ranges : option (list (Z * Z));
  energy_decrease_thresh : option (Energy P);
  energy_upper_limit : option (Energy P)
}.

(** The torsiondrive package, with what it prints; what is read through the
    session, from the id of the record: the keywords of the specification of
    the record and the dictionaries of its initial molecules; and the
    conversions of a molecule: its dictionary as JSON without the id and the
    identifiers, the symbols of that, and its geometry as a list. *)
Record Package : Type := mkPackage {
  create_initial_state :
    list (list nat) → list Z → Symbols → list (Geometry P) → option (list (Z * Z)) →
    option (Energy P) → option (Energy P) → result (TDState P) * string;
  specification_keywords : Database P → nat → TorsiondriveKeywords;
  initial_molecule_dicts : Database P → nat → list StoredMolecule;
  molecule_dict : StoredMolecule → MoleculeTemplate P;
  symbols : MoleculeTemplate P → Symbols;
  geometry_list : StoredMolecule → Geometry P
}.

Context (td_api : Package).

Definition initialize_service : M (State P) unit :=
  db ← gets database;
  record_id ← gets (λ s, service_record_id (service_orm s));
  let keywords := specification_keywords td_api db record_id in
  let initial_molecules := initial_molecule_dicts td_api db record_id in
  first_molecule ← index initial_molecules 0;
  let molecule_template := molecule_dict td_api first_molecule in
  match
    create_initial_state td_api (dihedrals keywords) (grid_spacing keywords)
      (symbols td_api molecule_template) (geometry_list td_api <$> initial_molecules)
      (dihedral_ranges keywords) (energy_decrease_thresh keywords)
      (energy_upper_limit keywords)
  with
  | (Raise e, _) => raise e
  | (Ok td_state, stdout) =>
      let dihedral_template := (λ idx, mkConstraint "dihedral" idx None) <$> dihedrals keywords in
      append_output stdout ;;
      modify (λ s,
        set_service_orm
          (set_service_state
             (mkTorsiondriveServiceState td_state molecule_template dihedral_template)
             (service_orm s)) s)
  end.

End Socket.
Arguments TorsiondriveKeywords : clear implicits.
Arguments Package : clear implicits.

End TorsiondriveInitialize.

(** The record 7 of the small service has two initial molecules, and its
    specification one dihedral. *)
Module TorsiondriveInitializeExample.
Import Torsiondrive TorsiondriveInitialize.

Definition keywords : TorsiondriveKeywords TorsiondriveExample.payloads :=
  @mkTorsiondriveKeywords TorsiondriveExample.payloads [[0; 1; 2; 3]] [90%Z] None None None.

Definition td_api : Package TorsiondriveExample.payloads (string * list Z) string :=
  @mkPackage TorsiondriveExample.payloads (string * list Z) string
    (λ dihedrals grid_spacing elements init_coords ranges thresh limit,
       (Ok (TorsiondriveExample.mk_td_state [("0", init_coords)] []), "initial state"))
    (λ _ _, keywords)
    (λ _ record_id, if decide (record_id = 7) then [("C2H6", [10%Z]); ("C2H6", [12%Z])] else [])
    fst id snd.

Definition initialized : result unit * State TorsiondriveExample.payloads :=
  initialize_service td_api TorsiondriveExample.middle.

End TorsiondriveInitializeExample.

(** ** [TorsiondriveRecordSocket]: adding and reading records *)

(** [for x in l: acc = body acc x], where the body may raise. *)
Fixpoint fold_M {S A B} (body : B → A → M S B) (acc : B) (l : list A) : M S B :=
  match l with
  | [] => mret acc
  | x :: l' => acc' ← body acc x; fold_M body acc' l'
  end.

(** [str.lower()], for ASCII text. *)
Definition lower_ascii (c : Ascii.ascii) : Ascii.ascii :=
  let n := Ascii.nat_of_ascii c in
  if decide (65 ≤ n ≤ 90) then Ascii.ascii_of_nat (n + 32) else c.

Fixpoint lower (s : string) : string :=
  match s with
  | EmptyString => EmptyString
  | String c s' => String (lower_ascii c) (lower s')
  end.

(** [sorted(set(l))] *)
Definition sorted_set (l : list nat) : list nat := merge_sort (≤) (remove_dups l).

Module TorsiondriveAdd.

(** Modelled from the spec: [InsertMetadata] of [qcportal.metadata_models] is
    not among the sources.  The fields are those that the socket gives to its
    constructor, and [errors]; [success] and [error_string], which are read
    from it, come with the other sockets below. *)
Record InsertMetadata : Type := mkInsertMetadata {
  error_description : option string;
  errors : list (nat * string);
  inserted_idx : list nat;
  existing_idx : list nat
}.

(** Modelled from the spec: the Service of the spec's data model, as
    [create_service] attaches it to a record. *)
Record ServiceQueueORM : Type := mkServiceQueueORM {
  compute_tag : string;
  compute_priority : Z;
  find_existing : bool
}.

(** A row of the torsiondrive records, with the columns that [add_internal]
    sets.  The specification is [None] where Python has [None]. *)
Record TorsiondriveRecordORM : Type := mkTorsiondriveRecordORM {
  is_service : bool;
  specification_id : option nat;
  status : RecordStatusEnum.t;
  owner_user_id : option nat;
  owner_group_id : option nat;
  service : option ServiceQueueORM
}.

(** [TorsiondriveInitialMoleculeORM(molecule_id, torsiondrive_id)] *)
Record TorsiondriveInitialMoleculeORM : Type := mkTorsiondriveInitialMoleculeORM {
  molecule_id : nat;
  torsiondrive_id : nat
}.

(** The tables of the torsiondrive records: the records by id, the initial
    molecules and the optimizations in the order in which they were added, the
    sequence from which a new record gets its id, and the advisory locks that
    the transaction holds. *)
Record Tables : Type := mkTables {
  torsiondrive_record : gmap nat TorsiondriveRecordORM;
  torsiondrive_initial_molecule : list TorsiondriveInitialMoleculeORM;
  torsiondrive_optimization : list Torsiondrive.TorsiondriveOptimizationORM;
  record_id_seq : nat;
  advisory_locks : list Z
}.

Definition torsiondrive_insert_lock_id : Z := 14200.
Definition torsiondrive_spec_insert_lock_id : Z := 14201.

(** How the database and Python answer where the sources do not say:
    [first], the row that [.scalars().first()] takes of the rows that a query
    without an order finds; [assert_group_member] of the user socket, with
    the exception it raises, if any; [success] and [error_string] of
    [InsertMetadata]. *)
Record Answers : Type := mkAnswers {
  first : list nat → option nat;
  assert_group_member : option nat → option nat → option exn;
  success : InsertMetadata → bool;
  error_string : InsertMetadata → string
}.

(** [first] takes one of the rows, and none only if there is none. *)
Definition first_is_a_row (answers : Answers) : Prop :=
  ∀ rows,
    match first answers rows with
    | Some row => row ∈ rows
    | None => rows = []
    end.

Section Socket.
Context (answers : Answers).

(** The molecules of a record, as the rows of the table have them. *)
Definition initial_molecules (t : Tables) (record_id : nat) : list nat :=
  molecule_id <$> filter (λ x, torsiondrive_id x = record_id) (torsiondrive_initial_molecule t).

(** [init_mol_cte]: for every record that is joined with an initial molecule,
    its id, its specification and the array of its molecule ids, ascending. *)
Definition init_mol_cte (t : Tables) : list (nat * option nat * list nat) :=
  omap
    (λ item : nat * TorsiondriveRecordORM,
       match merge_sort (≤) (initial_molecules t item.1) with
       | [] => None
       | molecule_ids => Some (item.1, specification_id item.2, molecule_ids)
       end)
    (map_to_list (torsiondrive_record t)).

(** [select(init_mol_cte.c.id)] where the specification and the molecules are
    the given ones, and [.scalars().first()]. *)
Definition select_existing (td_spec_id : option nat) (mol_ids : list nat) :
    M Tables (option nat) :=
  gets (λ t,
    first answers
      ((λ row : nat * option nat * list nat, row.1.1)
       <$> filter (λ row, row.1.2 = td_spec_id ∧ row.2 = mol_ids) (init_mol_cte t))).

(** Modelled from the spec: [BaseRecordSocket.create_service] is not among the
    sources; the service of a record has the tag, the priority and the
    [find_existing] flag it is created with. *)
Definition create_service (td_orm : TorsiondriveRecordORM) (tag : string) (priority : Z)
    (find : bool) : TorsiondriveRecordORM :=
  mkTorsiondriveRecordORM (is_service td_orm) (specification_id td_orm) (status td_orm)
    (owner_user_id td_orm) (owner_group_id td_orm)
    (Some (mkServiceQueueORM tag priority find)).

(** [session.add(td_orm); session.flush()]: the record gets the next id of
    the sequence; a row with that id must not be there. *)
Definition add_record (td_orm : TorsiondriveRecordORM) : M Tables nat := λ t,
  let id := record_id_seq t in
  match torsiondrive_record t !! id with
  | Some _ =>
      (Raise (OtherError "IntegrityError"),
       mkTables (torsiondrive_record t) (torsiondrive_initial_molecule t)
         (torsiondrive_optimization t) (S id) (advisory_locks t))
  | None =>
      (Ok id,
       mkTables (<[id := td_orm]> (torsiondrive_record t)) (torsiondrive_initial_molecule t)
         (torsiondrive_optimization t) (S id) (advisory_locks t))
  end.

(** [for mid in mol_ids: session.add(TorsiondriveInitialMoleculeORM(...))]
    and [session.flush()] *)
Definition add_initial_molecules (td_id : nat) (mol_ids : list nat) : M Tables unit :=
  modify (λ t,
    mkTables (torsiondrive_record t)
      (torsiondrive_initial_molecule t
       ++ ((λ mid, mkTorsiondriveInitialMoleculeORM mid td_id) <$> mol_ids))
      (torsiondrive_optimization t) (record_id_seq t) (advisory_locks t)).

(** The local lists of [add_internal]. *)
Record Found : Type := mkFound {
  td_ids : list nat;
  found_inserted_idx : list nat;
  found_existing_idx : list nat
}.

(** The record is made, gets its service, and is added with its molecules. *)
Definition insert_new (td_spec_id : option nat) (as_service : bool) (compute_tag : string)
    (compute_priority : Z) (owner_user owner_group : option nat) (find : bool)
    (found : Found) (idx : nat) (mol_ids : list nat) : M Tables Found :=
  let td_orm :=
    mkTorsiondriveRecordORM as_service td_spec_id RecordStatusEnum.waiting
      owner_user owner_group None in
  let td_orm := create_service td_orm compute_tag compute_priority find in
  td_id ← add_record td_orm;
  add_initial_molecules td_id mol_ids ;;
  mret (mkFound (td_ids found ++ [td_id]) (found_inserted_idx found ++ [idx])
          (found_existing_idx found)).

(** [not existing], for the id or [None] that the query gives. *)
Definition not_existing (existing : option nat) : bool :=
  match existing with
  | None => true
  | Some id => bool_decide (id = 0)
  end.

(** The body of the loop with [find_existing]. *)
Definition add_or_find (td_spec_id : option nat) (as_service : bool) (compute_tag : string)
    (compute_priority : Z) (owner_user owner_group : option nat) (find : bool)
    (found : Found) (item : nat * list nat) : M Tables Found :=
  let '(idx, mol_ids) := item in
  let mol_ids := sorted_set mol_ids in
  existing ← select_existing td_spec_id mol_ids;
  if not_existing existing then
    insert_new td_spec_id as_service compute_tag compute_priority owner_user owner_group find
      found idx mol_ids
  else
    mret (mkFound (td_ids found ++ [default 0 existing]) (found_inserted_idx found)
            (found_existing_idx found ++ [idx])).

(** The body of the loop without. *)
Definition add_always (td_spec_id : option nat) (as_service : bool) (compute_tag : string)
    (compute_priority : Z) (owner_user owner_group : option nat) (find : bool)
    (found : Found) (item : nat * list nat) : M Tables Found :=
  let '(idx, mol_ids) := item in
  let mol_ids := sorted_set mol_ids in
  insert_new td_spec_id as_service compute_tag compute_priority owner_user owner_group find
    found idx mol_ids.

Definition lock (id : Z) : M Tables unit :=
  modify (λ t,
    mkTables (torsiondrive_record t) (torsiondrive_initial_molecule t)
      (torsiondrive_optimization t) (record_id_seq t) (advisory_locks t ++ [id])).

Definition add_internal (initial_molecule_ids : list (list nat)) (td_spec_id : option nat)
    (as_service : bool) (compute_tag : string) (compute_priority : Z)
    (owner_user_id owner_group_id : option nat) (find_existing : bool) :
    M Tables (InsertMetadata * list nat) :=
  let compute_tag := lower compute_tag in
  match assert_group_member answers owner_user_id owner_group_id with
  | Some e => raise e
  | None =>
      lock torsiondrive_insert_lock_id ;;
      found ←
        (if find_existing then
           fold_M
             (add_or_find td_spec_id as_service compute_tag compute_priority owner_user_id
                owner_group_id find_existing)
             (mkFound [] [] []) (Torsiondrive.enumerate initial_molecule_ids)
         else
           fold_M
             (add_always td_spec_id as_service compute_tag compute_priority owner_user_id
                owner_group_id find_existing)
             (mkFound [] [] []) (Torsiondrive.enumerate initial_molecule_ids));
      mret (mkInsertMetadata None [] (found_inserted_idx found) (found_existing_idx found),
            td_ids found)
  end.

(** [session.get(TorsiondriveRecordORM, record_id)] and the ids of its
    initial molecules.  The source fixes no order for the rows of
    [rec.initial_molecules]; here they come as the table has them, and what
    is proved of the result does not depend on their order. *)
Definition get_initial_molecules_ids (record_id : nat) : M Tables (list nat) := λ t,
  match torsiondrive_record t !! record_id with
  | None =>
      (Raise (OtherError ("MissingDataError: Cannot find record " +:+ pretty record_id)), t)
  | Some _ => (Ok (initial_molecules t record_id), t)
  end.

Definition get_optimizations (record_id : nat) :
    M Tables (list Torsiondrive.TorsiondriveOptimizationORM) := λ t,
  match torsiondrive_record t !! record_id with
  | None =>
      (Raise (OtherError ("MissingDataError: Cannot find record " +:+ pretty record_id)), t)
  | Some _ =>
      (Ok (filter (λ x, Torsiondrive.torsiondrive_id x = record_id)
             (torsiondrive_optimization t)), t)
  end.

End Socket.

(** The tables as the database keeps them: the ids of the records are below
    the next value of the sequence and are not 0, and an initial molecule is
    one of a record. *)
Definition consistent (t : Tables) : Prop :=
  (∀ id, is_Some (torsiondrive_record t !! id) → 0 < id < record_id_seq t) ∧
  0 < record_id_seq t ∧
  ∀ x, x ∈ torsiondrive_initial_molecule t →
    is_Some (torsiondrive_record t !! torsiondrive_id x).

(** The record [id] is, in [t], one for the specification [td_spec_id] and
    the molecules [mol_ids]. *)
Definition is_record_for (t : Tables) (td_spec_id : option nat) (mol_ids : list nat)
    (id : nat) : Prop :=
  (∃ td_orm, torsiondrive_record t !! id = Some td_orm ∧
             specification_id td_orm = td_spec_id) ∧
  merge_sort (≤) (initial_molecules t id) = sorted_set mol_ids.

(** The records of [t] are in [t'] what they are in [t], with the same
    molecules. *)
Definition unchanged_records (t t' : Tables) : Prop :=
  ∀ id td_orm,
    torsiondrive_record t !! id = Some td_orm →
    torsiondrive_record t' !! id = Some td_orm ∧
    initial_molecules t' id = initial_molecules t id.

(** The row that [add_internal] makes for a new record. *)
Definition new_record (td_spec_id : option nat) (as_service : bool) (compute_tag : string)
    (compute_priority : Z) (owner_user owner_group : option nat) (find : bool) :
    TorsiondriveRecordORM :=
  mkTorsiondriveRecordORM as_service td_spec_id RecordStatusEnum.waiting owner_user owner_group
    (Some (mkServiceQueueORM (lower compute_tag) compute_priority find)).

(** [t] after a record [td_orm] with the molecules [mol_ids] is added. *)
Definition with_record (t : Tables) (td_orm : TorsiondriveRecordORM) (mol_ids : list nat) :
    Tables :=
  mkTables (<[record_id_seq t := td_orm]> (torsiondrive_record t))
    (torsiondrive_initial_molecule t
     ++ ((λ mid, mkTorsiondriveInitialMoleculeORM mid (record_id_seq t)) <$> mol_ids))
    (torsiondrive_optimization t) (S (record_id_seq t)) (advisory_locks t).

(** A body of the loop of [add_internal] either adds a record [td_orm] for
    the molecules, or finds a record for them and leaves the tables alone. *)
Definition adds_or_finds (td_orm : TorsiondriveRecordORM)
    (body : Found → nat * list nat → M Tables Found) : Prop :=
  ∀ found idx mol_ids t,
    consistent t →
    body found (idx, mol_ids) t =
      (Ok (mkFound (td_ids found ++ [record_id_seq t]) (found_inserted_idx found ++ [idx])
             (found_existing_idx found)),
       with_record t td_orm (sorted_set mol_ids)) ∨
    ∃ id,
      body found (idx, mol_ids) t =
        (Ok (mkFound (td_ids found ++ [id]) (found_inserted_idx found)
               (found_existing_idx found ++ [idx])), t) ∧
      is_record_for t (specification_id td_orm) mol_ids id.

(** No two records with molecules have the same specification and the same
    molecules. *)
Definition no_duplicates (t : Tables) : Prop :=
  ∀ id1 id2 td_spec_id molecule_ids,
    (id1, td_spec_id, molecule_ids) ∈ init_mol_cte t →
    (id2, td_spec_id, molecule_ids) ∈ init_mol_cte t →
    id1 = id2.

(** [t] with the advisory lock of [add_internal]. *)
Definition locked (t : Tables) : Tables :=
  mkTables (torsiondrive_record t) (torsiondrive_initial_molecule t)
    (torsiondrive_optimization t) (record_id_seq t)
    (advisory_locks t ++ [torsiondrive_insert_lock_id]).

End TorsiondriveAdd.

(** A small table of torsiondrive records: record 1, for the specification 5
    and the molecules 3 and 7. *)
Module TorsiondriveAddExample.
Import TorsiondriveAdd.

Definition answers : Answers :=
  mkAnswers head (λ _ _, None)
    (λ meta, bool_decide (error_description meta = None ∧ errors meta = []))
    (λ meta, default EmptyString (error_description meta)).

(** The user is not a member of the group. *)
Definition refusing : Answers :=
  mkAnswers head (λ _ _, Some (OtherError "AuthorizationFailure"))
    (success answers) (error_string answers).

Definition tables : Tables :=
  mkTables
    {[1 := mkTorsiondriveRecordORM true (Some 5) RecordStatusEnum.waiting None None None]}
    [mkTorsiondriveInitialMoleculeORM 7 1; mkTorsiondriveInitialMoleculeORM 3 1]
    [] 2 [].

End TorsiondriveAddExample.

(** ** [TorsiondriveRecordSocket.add] and the specifications *)

Module TorsiondriveSocketAdd.
Import TorsiondriveAdd.

(** [TorsiondriveSpecification]: what the socket reads of it. *)
Record TorsiondriveSpecification (Keywords OptSpec : Type) : Type :=
  mkTorsiondriveSpecification {
    program : string;
    keywords : Keywords;
    optimization_specification : OptSpec
  }.
Arguments mkTorsiondriveSpecification {Keywords OptSpec} _ _ _.
Arguments program {Keywords OptSpec} _.
Arguments keywords {Keywords OptSpec} _.
Arguments optimization_specification {Keywords OptSpec} _.

(** [TorsiondriveSpecificationORM(program, keywords, protocols,
    specification_hash)], and the id of its optimization specification once it
    is set. *)
Record TorsiondriveSpecificationORM (Keywords : Type) : Type :=
  mkTorsiondriveSpecificationORM {
    spec_program : string;
    spec_keywords : Keywords;
    spec_protocols : list (string * string);
    specification_hash : string;
    optimization_specification_id : option nat
  }.
Arguments mkTorsiondriveSpecificationORM {Keywords} _ _ _ _ _.
Arguments spec_program {Keywords} _.
Arguments spec_keywords {Keywords} _.
Arguments spec_protocols {Keywords} _.
Arguments specification_hash {Keywords} _.
Arguments optimization_specification_id {Keywords} _.

(** The other sockets and helpers, none of which is among the sources; they
    work on the rest of the database, [Db].  [hash_dict] is given the
    dictionary of the program, the keywords and the protocols; [insert_general]
    the rows and the lock, its columns being fixed, and it answers with the
    ids, the only column it is asked to return. *)
Record Sockets (Db Mol Keywords OptSpec : Type) : Type := mkSockets {
  get_owner_ids : option string → option string → M Db (option nat * option nat);
  hash_dict : string * Keywords * list (string * string) → string;
  optimization_add_specifications : list OptSpec → M Db (InsertMetadata * list nat);
  insert_general :
    list (TorsiondriveSpecificationORM Keywords) → Z → M Db (InsertMetadata * list nat);
  add_mixed : list Mol → M Db (InsertMetadata * list nat)
}.
Arguments mkSockets {Db Mol Keywords OptSpec} _ _ _ _ _.
Arguments get_owner_ids {Db Mol Keywords OptSpec} _ _ _.
Arguments hash_dict {Db Mol Keywords OptSpec} _ _.
Arguments optimization_add_specifications {Db Mol Keywords OptSpec} _ _.
Arguments insert_general {Db Mol Keywords OptSpec} _ _ _.
Arguments add_mixed {Db Mol Keywords OptSpec} _ _.

(** The tables of the torsiondrive records and the rest of the database. *)
Record State (Db : Type) : Type := mkState {
  tables : Tables;
  database : Db
}.
Arguments mkState {Db} _ _.
Arguments tables {Db} _.
Arguments database {Db} _.

Section Socket.
Context {Db Mol Keywords OptSpec : Type}.
Context (answers : Answers) (root_socket : Sockets Db Mol Keywords OptSpec).

Definition in_database {A} (m : M Db A) : M (State Db) A :=
  zoom database (λ db s, mkState (tables s) db) m.
Definition in_tables {A} (m : M Tables A) : M (State Db) A :=
  zoom tables (λ t s, mkState t (database s)) m.

(** [InsertMetadata(error_description=...)] *)
Definition error_metadata (description : string) : InsertMetadata :=
  mkInsertMetadata (Some description) [] [] [].

Definition add_specifications
    (td_specs : list (TorsiondriveSpecification Keywords OptSpec)) :
    M (State Db) (InsertMetadata * list nat) :=
  let to_add :=
    (λ td_spec,
       let td_kw_dict := keywords td_spec in
       let td_spec_dict := (program td_spec, td_kw_dict, []) in
       let td_spec_hash := hash_dict root_socket td_spec_dict in
       mkTorsiondriveSpecificationORM (program td_spec) td_kw_dict td_spec_dict.2 td_spec_hash
         None) <$> td_specs in
  let opt_specs := optimization_specification <$> td_specs in
  added ← in_database (optimization_add_specifications root_socket opt_specs);
  let '(meta, opt_spec_ids) := added in
  if negb (success answers meta) then
    mret (error_metadata
            ("Unable to add optimization specifications: " +:+ error_string answers meta),
          [])
  else if negb (length opt_spec_ids =? length td_specs) then
    raise (OtherError "AssertionError")
  else
    let to_add :=
      zip_with
        (λ td_spec_orm opt_spec_id,
           mkTorsiondriveSpecificationORM (spec_program td_spec_orm)
             (spec_keywords td_spec_orm) (spec_protocols td_spec_orm)
             (specification_hash td_spec_orm) (Some opt_spec_id))
        to_add opt_spec_ids in
    in_database (insert_general root_socket to_add torsiondrive_spec_insert_lock_id).

Definition add_specification (td_spec : TorsiondriveSpecification Keywords OptSpec) :
    M (State Db) (InsertMetadata * option nat) :=
  added ← add_specifications [td_spec];
  let '(meta, ids) := added in
  match ids with
  | [] => mret (meta, None)
  | id :: _ => mret (meta, Some id)
  end.

(** The loop of [add] over the sets of molecules: the metadata with which
    [add] returns from inside the loop, or the ids of all the sets. *)
Fixpoint add_all_molecules (initial_molecules : list (list Mol))
    (init_mol_ids : list (list nat)) : M (State Db) (InsertMetadata + list (list nat)) :=
  match initial_molecules with
  | [] => mret (inr init_mol_ids)
  | init_mol :: rest =>
      added ← in_database (add_mixed root_socket init_mol);
      let '(mol_meta, mol_ids) := added in
      if negb (success answers mol_meta) then
        mret (inl (error_metadata
                     ("Aborted - could not add all molecules: "
                      +:+ error_string answers mol_meta)))
      else add_all_molecules rest (init_mol_ids ++ [mol_ids])
  end.

Definition add (initial_molecules : list (list Mol))
    (td_spec : TorsiondriveSpecification Keywords OptSpec) (as_service : bool)
    (compute_tag : string) (compute_priority : Z) (owner_user owner_group : option string)
    (find_existing : bool) : M (State Db) (InsertMetadata * list nat) :=
  owner ← in_database (get_owner_ids root_socket owner_user owner_group);
  let '(owner_user_id, owner_group_id) := owner in
  added ← add_specification td_spec;
  let '(spec_meta, spec_id) := added in
  if negb (success answers spec_meta) then
    mret (error_metadata
            ("Aborted - could not add specification: " +:+ error_string answers spec_meta),
          [])
  else
    molecules ← add_all_molecules initial_molecules [];
    match molecules with
    | inl meta => mret (meta, [])
    | inr init_mol_ids =>
        in_tables
          (add_internal answers init_mol_ids spec_id as_service compute_tag compute_priority
             owner_user_id owner_group_id find_existing)
    end.

End Socket.

End TorsiondriveSocketAdd.

(** Sockets for the small table: molecules are given by their ids and are
    added to the list of the known ones, except the molecule 0, which cannot
    be added; an optimization specification is known by its name, and
    ["unknown"] cannot be added. *)
Module TorsiondriveSocketAddExample.
Import TorsiondriveAdd TorsiondriveSocketAdd.

Definition ok : InsertMetadata := mkInsertMetadata None [] [] [].

Definition root_socket : Sockets (list nat) nat string string :=
  mkSockets
    (λ _ _, mret (Some 1, None))
    (λ d, d.1.1 +:+ d.1.2)
    (λ opt_specs,
       if decide ("unknown" ∈ opt_specs)
       then mret (error_metadata "unknown optimization program", [])
       else mret (ok, seq 1 (length opt_specs)))
    (λ rows _, mret (ok, seq 5 (length rows)))
    (λ mols,
       if decide (0 ∈ mols)
       then mret (error_metadata "molecule 0", [])
       else λ db, (Ok (ok, mols), db ++ mols)).

Definition td_spec : TorsiondriveSpecification string string :=
  mkTorsiondriveSpecification "torsiondrive" "grid_spacing" "geometric".

Definition state : State (list nat) := mkState TorsiondriveAddExample.tables [].

(** Two sets of molecules are added; the second set of the other call cannot
    be. *)
Definition added : result (InsertMetadata * list nat) * State (list nat) :=
  add TorsiondriveAddExample.answers root_socket [[7; 3; 7]; [4]] td_spec true "Tag" 1%Z
    (Some "user") None true state.

Definition aborted : result (InsertMetadata * list nat) * State (list nat) :=
  add TorsiondriveAddExample.answers root_socket [[7; 3; 7]; [4; 0]] td_spec true "Tag" 1%Z
    (Some "user") None true state.

End TorsiondriveSocketAddExample.

(** ** Further notions for the task socket *)

(** [update_completed_task] works on the record it is given and on its task:
    other records, and the tasks of other records, are as they were. *)
Definition update_completed_task_frame (rs : RootSocket) : Prop :=
  ∀ record_id result manager_name st st',
    records_update_completed_task rs record_id result manager_name st = (Ok tt, st') →
    (∀ rid, rid ≠ record_id → base_record st' !! rid = base_record st !! rid) ∧
    (∀ task_id t, task_queue st !! task_id = Some t → TaskQueueORM.record_id t ≠ record_id →
       task_queue st' !! task_id = Some t).

(** No two tasks of the queue are for the same record. *)
Definition one_task_per_record (st : Store) : Prop :=
  ∀ id1 id2 t1 t2,
    task_queue st !! id1 = Some t1 → task_queue st !! id2 = Some t2 →
    TaskQueueORM.record_id t1 = TaskQueueORM.record_id t2 → id1 = id2.

(** The tasks [ids] are, in the tables [st], the rows they are in [st1], and
    their records run for [manager_name]. *)
Definition run_for (manager_name : string) (st1 st : Store) (ids : list nat) : Prop :=
  ∀ task_id, task_id ∈ ids →
    ∃ t r,
      task_queue st1 !! task_id = Some t ∧ task_queue st !! task_id = Some t ∧
      base_record st !! TaskQueueORM.record_id t = Some r ∧
      BaseRecordORM.status r = RecordStatusEnum.running ∧
      BaseRecordORM.manager_name r = Some manager_name.

(** The two reasons with which a result is rejected after the record socket
    was called for it. *)
Definition internal_reasons : list string :=
  ["Returned success=False, but not a FailedOperation"; "Internal server error"].

(** The small server again: the manager asks for as many tasks as it may
    have, and sends back results for what it has claimed. *)
Module ExampleClaims.

Definition claim_all : result (list (nat * TaskQueueORM.t)) * Session :=
  claim_tasks Example.root_socket "manager-1" None Example.waiting_session.
Definition claim_all_found : list (nat * TaskQueueORM.t) := Example.value claim_all [].

Definition claim_again : result (list (nat * TaskQueueORM.t)) * Session :=
  claim_tasks Example.root_socket "manager-1" None Example.claim_run.2.
Definition claim_again_found : list (nat * TaskQueueORM.t) := Example.value claim_again [].

Definition returned : list (nat * AllResultTypes) :=
  [(3, Failed Example.failure); (1, Computed true "energy")].

Definition return_run : result TaskReturnMetadata * Session :=
  update_finished Example.root_socket "manager-1" returned Example.claim_run.2.
Definition return_meta : TaskReturnMetadata :=
  Example.value return_run (mkTaskReturnMetadata [] []).

End ExampleClaims.

(** ** Further notions for the torsiondrive socket *)

(** [d[k]] for a dictionary kept as the list of its items, [None] for a key
    that is not there. *)
Fixpoint dict_get {V} (k : string) (d : list (string * V)) : option V :=
  match d with
  | [] => None
  | (k', v) :: d' => if decide (k' = k) then Some v else dict_get k d'
  end.

Section TorsiondriveNotions.
Import Torsiondrive.
Context {P : Payloads} (rs : Collaborators P).

(** [v] is what the loop over [complete_tasks] appends for the dependency
    [task]: the geometries of the initial and the final molecule of its
    optimization, as [molecules.get] returns them, and the last energy of
    the optimization. *)
Definition result_of (task : ServiceDependencyORM)
    (v : Geometry P * Geometry P * Energy P) : Prop :=
  ∃ db opt_record mol_data db',
    dependency_record rs db (record_id task) = Some opt_record ∧
    molecules_get rs [Some (initial_molecule_id opt_record); final_molecule_id opt_record] db
      = (Ok mol_data, db') ∧
    mol_data !! 0 = Some v.1.1 ∧ mol_data !! 1 = Some v.1.2 ∧
    last (energies opt_record) = Some v.2.

(** The dependencies with the key [k], by position. *)
Definition tasks_of_key (k : string) (deps : list ServiceDependencyORM) :
    list ServiceDependencyORM :=
  sorted_by (λ x, position (extras x)) (filter (λ x, td_api_key (extras x) = k) deps).

(** What a part of [iterate_service] keeps: the stored state of the package,
    the columns of the service but for the dependencies, the compute history
    and the specification of the record; the optimizations of the record are
    only added to. *)
Definition kept (s s' : State P) : Prop :=
  service_state (service_orm s') = service_state (service_orm s) ∧
  service_record_id (service_orm s') = service_record_id (service_orm s) ∧
  compute_tag (service_orm s') = compute_tag (service_orm s) ∧
  compute_priority (service_orm s') = compute_priority (service_orm s) ∧
  find_existing (service_orm s') = find_existing (service_orm s) ∧
  compute_history (td_orm s') = compute_history (td_orm s) ∧
  optimization_specification (td_orm s') = optimization_specification (td_orm s) ∧
  owner_user_id (td_orm s') = owner_user_id (td_orm s) ∧
  owner_group_id (td_orm s') = owner_group_id (td_orm s) ∧
  optimizations (td_orm s) `prefix_of` optimizations (td_orm s').

End TorsiondriveNotions.

(** The small torsiondrive service, where an iteration fails. *)
Module TorsiondriveFailing.
Import Torsiondrive.

(** The package reports an energy for a grid point that has no optimization. *)
Definition inconsistent : State TorsiondriveExample.payloads :=
  @mkState TorsiondriveExample.payloads
    (@mkServiceQueueORM TorsiondriveExample.payloads 7 "tagA" 1 true
       (@mkTorsiondriveServiceState TorsiondriveExample.payloads
          (TorsiondriveExample.mk_td_state [("0", [[10]; [12]]%Z)] [([90], 7)]%Z) "molecule"
          [mkConstraint "dihedral" [0; 1; 2; 3] None])
       (dependencies (TorsiondriveExample.service [])))
    TorsiondriveExample.record TorsiondriveExample.rows.

(** The tag of the service is one for which nothing can be added. *)
Definition closed : State TorsiondriveExample.payloads :=
  @mkState TorsiondriveExample.payloads
    (@mkServiceQueueORM TorsiondriveExample.payloads 7 "closed" 1 true
       (service_state (TorsiondriveExample.service [("90", [[11]; [13]]%Z)]))
       (dependencies (TorsiondriveExample.service [])))
    TorsiondriveExample.record TorsiondriveExample.rows.

End TorsiondriveFailing.

(** * Properties *)

(** ** The monad *)

Lemma bind_run {S A B} (m : M S A) (f : A → M S B) s :
  (m ≫= f) s =
  match m s with
  | (Ok a, s') => f a s'
  | (Raise e, s') => (Raise e, s')
  end.
Proof. reflexivity. Qed.

Lemma bind_Ok_inv {S A B} (m : M S A) (f : A → M S B) s b s' :
  (m ≫= f) s = (Ok b, s') → ∃ a s1, m s = (Ok a, s1) ∧ f a s1 = (Ok b, s').
Proof.
  rewrite bind_run. destruct (m s) as [[a|e] s1]; [eauto | discriminate].
Qed.

Lemma for_each_app {S A} (l1 l2 : list A) (body : A → M S unit) s :
  for_each (l1 ++ l2) body s =
  match for_each l1 body s with
  | (Ok _, s') => for_each l2 body s'
  | (Raise e, s') => (Raise e, s')
  end.
Proof.
  revert s. induction l1 as [|x l1 IH]; intros s; simpl; [done|].
  rewrite !bind_run. destruct (body x s) as [[[]|e] s1]; [apply IH | done].
Qed.

Lemma map_M_length {S A B} (f : A → M S B) l s ys s' :
  map_M f l s = (Ok ys, s') → length ys = length l.
Proof.
  revert s ys s'. induction l as [|x l IH]; intros s ys s'; simpl.
  - intros H. injection H as <- _. done.
  - intros (y & s1 & _ & H)%bind_Ok_inv.
    apply bind_Ok_inv in H as (ys' & s2 & H & H').
    injection H' as <- _. simpl. f_equal. eauto.
Qed.

(** ** The order of the claim query *)

#[global] Instance task_order_total : Total task_order.
Proof. intros x y. unfold task_order. lia. Qed.

#[global] Instance task_order_trans : Transitive task_order.
Proof. intros x y z. unfold task_order. lia. Qed.

Lemma StronglySorted_take {A} (R : relation A) n l :
  StronglySorted R l → StronglySorted R (take n l).
Proof.
  intros H. rewrite <- (take_drop n l) in H. by apply StronglySorted_app_1_l in H.
Qed.

Lemma StronglySorted_take_drop {A} (R : relation A) n l x y :
  StronglySorted R l → x ∈ take n l → y ∈ drop n l → R x y.
Proof.
  intros H Hx Hy. rewrite <- (take_drop n l) in H.
  eapply StronglySorted_app_1_elem_of; eauto.
Qed.
Section ClaimQuery.
Context (st : Store) (ps : gset string) (tag : string) (n : Z).

Lemma claim_query_elem row :
  row ∈ claim_query st ps tag n →
  task_queue st !! row.1 = Some row.2 ∧ claimable st ps tag row.
Proof.
  unfold claim_query. intros H%subseteq_take.
  rewrite merge_sort_Permutation in H.
  apply list_elem_of_filter in H as [Hc H]. split; [|done].
  destruct row. by apply elem_of_map_to_list in H.
Qed.

Lemma claim_query_sorted : StronglySorted task_order (claim_query st ps tag n).
Proof. apply StronglySorted_take, StronglySorted_merge_sort; apply _. Qed.

Lemma claim_query_length : length (claim_query st ps tag n) ≤ Z.to_nat n.
Proof. unfold claim_query. rewrite length_take. lia. Qed.

Lemma claim_query_NoDup : NoDup (claim_query st ps tag n).*1.
Proof.
  unfold claim_query. rewrite fmap_take.
  eapply sublist_NoDup; [|apply sublist_take].
  rewrite merge_sort_Permutation.
  eapply sublist_NoDup; [|apply fmap_sublist, sublist_filter].
  apply NoDup_fst_map_to_list.
Qed.

Lemma claim_query_complete task_id t :
  task_queue st !! task_id = Some t →
  claimable st ps tag (task_id, t) →
  (task_id, t) ∈ claim_query st ps tag n ∨
  (length (claim_query st ps tag n) = Z.to_nat n ∧
   ∀ row, row ∈ claim_query st ps tag n → task_order row (task_id, t)).
Proof.
  intros Ht Hc. unfold claim_query.
  set (l := merge_sort task_order _).
  assert (Hin : (task_id, t) ∈ l).
  { unfold l. rewrite merge_sort_Permutation. apply list_elem_of_filter.
    split; [done|]. by apply elem_of_map_to_list. }
  rewrite <- (take_drop (Z.to_nat n) l) in Hin.
  apply elem_of_app in Hin as [Hin|Hin]; [by left|right]. split.
  - rewrite length_take. apply list_elem_of_lookup in Hin as [i Hi].
    apply lookup_lt_Some in Hi. rewrite length_drop in Hi. lia.
  - intros row Hrow. eapply StronglySorted_take_drop; eauto.
    apply StronglySorted_merge_sort; apply _.
Qed.

End ClaimQuery.
(** ** One pass of the loop of [claim_tasks] *)

Lemma same_columns_refl t : same_columns t t.
Proof. by repeat split. Qed.

Lemma same_columns_trans t1 t2 t3 :
  same_columns t1 t2 → same_columns t2 t3 → same_columns t1 t3.
Proof. unfold same_columns. intuition congruence. Qed.

Lemma same_columns_sym t1 t2 : same_columns t1 t2 → same_columns t2 t1.
Proof. unfold same_columns. intuition congruence. Qed.

Lemma task_order_equiv d1 d2 r1 r2 :
  row_equiv d1 r1 → row_equiv d2 r2 → task_order r1 r2 → task_order d1 d2.
Proof.
  intros [_ (_ & _ & _ & Hp1 & Hc1 & _)] [_ (_ & _ & _ & Hp2 & Hc2 & _)].
  unfold task_order. rewrite Hp1, Hp2, Hc1, Hc2. done.
Qed.

Lemma claimable_equiv st ps tag d r :
  row_equiv d r → claimable st ps tag r → claimable st ps tag d.
Proof.
  intros [_ (Hr & Ht & Hq & _)]. unfold claimable. rewrite Hr, Ht, Hq. done.
Qed.

Lemma StronglySorted_Forall2 {A B} (R : relation A) (R' : relation B)
    (Q : A → B → Prop) l l' :
  (∀ x x' y y', Q x x' → Q y y' → R' x' y' → R x y) →
  Forall2 Q l l' → StronglySorted R' l' → StronglySorted R l.
Proof.
  intros HQ H. induction H as [|x x' l l' Hx Hl IH]; intros Hs.
  - constructor.
  - apply StronglySorted_inv in Hs as [Hs Hall]. constructor; [auto|].
    clear IH Hs. induction Hl as [|y y' l l' Hy Hl IH]; [constructor|].
    apply Forall_cons in Hall as [Hxy Hall]. constructor; eauto.
Qed.

Lemma claim_record_idemp mn now r :
  claim_record mn now (claim_record mn now r) = claim_record mn now r.
Proof. reflexivity. Qed.

Lemma claim_records_lookup mn now rids b rid :
  claim_records mn now rids b !! rid =
  if decide (rid ∈ rids) then claim_record mn now <$> b !! rid else b !! rid.
Proof.
  revert b. induction rids as [|r rids IH]; intros b.
  - reflexivity.
  - change (claim_records mn now (r :: rids) b)
      with (claim_records mn now rids (alter (claim_record mn now) r b)).
    rewrite IH. destruct (decide (rid = r)) as [->|Hne].
    + rewrite lookup_alter_eq. rewrite (decide_True _ _ (list_elem_of_here _ _)).
      destruct (b !! r); simpl; case_decide; done.
    + rewrite lookup_alter_ne by done.
      destruct (decide (rid ∈ rids)) as [Hin|Hin].
      * rewrite decide_True; [done|]. by apply list_elem_of_further.
      * rewrite decide_False; [done|]. rewrite elem_of_cons. tauto.
Qed.

Section ClaimLoop.
Context (rs : RootSocket) (manager_name : string).

Lemma for_each_claim_run rows s :
  for_each rows (claim_task_record manager_name) s =
  (Ok tt,
   set_store
     (set_base_record
        (claim_records manager_name (clock s) (record_ids rows) (base_record (store s)))
        (store s)) s).
Proof.
  revert s. induction rows as [|row rows IH]; intros s.
  - simpl. destruct s as [[] ?]. reflexivity.
  - simpl. rewrite bind_run. unfold claim_task_record at 1. rewrite IH. reflexivity.
Qed.

Lemma call_records_run {A} c (m : M Store A) s :
  call_records c m s = let '(r, st') := m (store s) in (r, set_store st' (log_call c s)).
Proof. reflexivity. Qed.

Lemma map_M_model_dict rows s dicts s' :
  map_M (λ row : nat * TaskQueueORM.t, model_dict row.1) rows s = (Ok dicts, s') →
  s' = s ∧
  Forall2 (λ d row, d.1 = row.1 ∧ task_queue (store s) !! row.1 = Some d.2) dicts rows.
Proof.
  revert dicts. induction rows as [|row rows IH]; intros dicts; simpl.
  - intros H. injection H as <- <-. by split.
  - intros (d & s1 & Hd & H)%bind_Ok_inv.
    apply bind_Ok_inv in H as (ds & s2 & Hds & H). injection H as <- <-.
    unfold model_dict in Hd. destruct (task_queue (store s) !! row.1) eqn:Ht; [|done].
    injection Hd as <- <-. apply IH in Hds as [-> Hds]. split; [done|].
    constructor; [by split|done].
Qed.

End ClaimLoop.
Lemma Forall2_Forall_impl_r {A B} (P Q : A → B → Prop) (R : B → Prop) l k :
  Forall2 P l k → Forall R k → (∀ x y, P x y → R y → Q x y) → Forall2 Q l k.
Proof.
  intros H. induction H as [|x y l k Hxy _ IH]; intros HR HQ; [constructor|].
  apply Forall_cons in HR as [Hy HR]. constructor; auto.
Qed.

Lemma Forall2_elem_of_l {A B} (P : A → B → Prop) l k x :
  Forall2 P l k → x ∈ l → ∃ y, y ∈ k ∧ P x y.
Proof.
  intros H. induction H as [|x' y l k Hxy _ IH]; intros Hx.
  - by apply elem_of_nil in Hx.
  - apply elem_of_cons in Hx as [->|Hx].
    + exists y. split; [apply list_elem_of_here|done].
    + destruct (IH Hx) as (y' & Hy' & HP). exists y'. split; [by apply list_elem_of_further|done].
Qed.

Section ClaimPass.
Context (rs : RootSocket) (manager_name : string).
Hypothesis gen_frame : generate_task_specification_frame rs.

Lemma record_ids_equiv dicts rows :
  Forall2 row_equiv dicts rows → record_ids dicts = record_ids rows ∧ dicts.*1 = rows.*1.
Proof.
  induction 1 as [|d row dicts rows [H1 (H2 & _)] _ [IH1 IH2]]; [done|].
  unfold record_ids in *. rewrite !fmap_cons. by rewrite H1, H2, IH1, IH2.
Qed.

Lemma claim_inv_waiting s0 claimed s rid :
  claim_inv manager_name s0 claimed s →
  record_status (store s) rid = Some RecordStatusEnum.waiting ↔
  ((rid ∉ claimed) ∧ record_status (store s0) rid = Some RecordStatusEnum.waiting).
Proof.
  intros (_ & Hrec & _). unfold record_status. rewrite Hrec.
  case_decide as Hin.
  - split; [|tauto]. destruct (base_record (store s0) !! rid); simpl; done.
  - tauto.
Qed.

(** One pass of the loop, from the query to the dictionaries. *)
Lemma claim_pass ps tag new_limit s0 claimed s dicts s' :
  claim_inv manager_name s0 claimed s →
  (0 < new_limit)%Z →
  claim_for_tag rs manager_name ps tag new_limit s = (Ok dicts, s') →
  claimed_group ps s0 claimed tag new_limit dicts ∧
  claim_inv manager_name s0 (claimed ++ record_ids dicts) s'.
Proof.
  intros Hinv Hpos H. unfold claim_for_tag in H.
  apply bind_Ok_inv in H as (rows & s1 & Hsel & H).
  unfold select_claimable in Hsel. injection Hsel as <- <-.
  set (rows := claim_query (store s) ps tag new_limit) in *.
  apply bind_Ok_inv in H as ([] & s2 & Hfor & H).
  rewrite for_each_claim_run in Hfor. injection Hfor as <-.
  apply bind_Ok_inv in H as ([] & s3 & Hgen & H).
  rewrite call_records_run in Hgen.
  match type of Hgen with context [records_generate_task_specification rs ?ids ?st] =>
    destruct (records_generate_task_specification rs ids st) as [[[]|e] st3] eqn:Hg end;
    [|done].
  injection Hgen as <-.
  apply gen_frame in Hg as [Hg_rec Hg_task]. simpl in Hg_rec, Hg_task.
  apply map_M_model_dict in H as [-> Hdict]. simpl in Hdict.
  assert (Hrows : Forall (λ row, task_queue (store s) !! row.1 = Some row.2 ∧
                               claimable (store s) ps tag row) rows).
  { apply Forall_forall. intros row Hrow. by apply claim_query_elem in Hrow. }
  assert (Heq : Forall2 row_equiv dicts rows).
  { eapply Forall2_Forall_impl_r; [exact Hdict|exact Hrows|].
    intros d row [Hk Hd] [Hrow _]. split; [done|].
    specialize (Hg_task row.1). rewrite Hd, Hrow in Hg_task.
    by inversion Hg_task. }
  destruct (record_ids_equiv _ _ Heq) as [Hrids Hkeys].
  pose proof Hinv as (Hinv_t & Hinv_r & Hinv_c & Hinv_m).
  split.
  - (* the group *)
    unfold claimed_group. split_and!.
    + done.
    + apply Forall2_length in Heq. rewrite Heq.
      pose proof (claim_query_length (store s) ps tag new_limit). fold rows in H. lia.
    + eapply StronglySorted_Forall2; [|exact Heq|apply claim_query_sorted].
      intros. eapply task_order_equiv; eauto.
    + rewrite Hkeys. apply claim_query_NoDup.
    + apply Forall_forall. intros d Hd.
      destruct (Forall2_elem_of_l _ _ _ _ Heq Hd) as (row & Hrow & Hdr).
      apply claim_query_elem in Hrow as [Hrow Hc].
      specialize (Hinv_t row.1). rewrite Hrow in Hinv_t.
      inversion Hinv_t as [? t0 Hsame Ha Hb|]; subst. symmetry in Hb.
      destruct Hdr as [Hk Hcols]. exists t0. rewrite Hk. split_and!.
      * done.
      * eapply same_columns_trans; eauto.
      * destruct Hc as (Hw & Hp & Ht).
        destruct Hsame as (Hr & Htag & Hprog & _).
        apply (claim_inv_waiting _ _ _ _ Hinv) in Hw as [_ Hw].
        unfold claimable. simpl in *. rewrite <- Hr, <- Htag, <- Hprog. done.
      * destruct Hc as (Hw & _). apply (claim_inv_waiting _ _ _ _ Hinv) in Hw as [Hw _].
        destruct Hsame as (Hr & _). by rewrite <- Hr.
    + intros task_id t0 Ht0 Hc Hnot.
      specialize (Hinv_t task_id). rewrite Ht0 in Hinv_t.
      inversion Hinv_t as [t ? Hsame Ha Hb|]; subst. symmetry in Ha.
      assert (Hc' : claimable (store s) ps tag (task_id, t)).
      { destruct Hc as (Hw & Hp & Ht). destruct Hsame as (Hr & Htag & Hprog & _).
        unfold claimable. simpl in *. rewrite Hr, Htag, Hprog. split_and!; [|done..].
        apply (claim_inv_waiting _ _ _ _ Hinv). done. }
      destruct (claim_query_complete (store s) ps tag new_limit task_id t Ha Hc')
        as [Hin|[Hlen Hord]]; fold rows in Hin || fold rows in Hlen, Hord.
      * left. rewrite Hkeys. apply list_elem_of_fmap. by exists (task_id, t).
      * right. split.
        { apply Forall2_length in Heq. rewrite Heq, Hlen. lia. }
        intros d Hd. destruct (Forall2_elem_of_l _ _ _ _ Heq Hd) as (row & Hrow & Hdr).
        eapply task_order_equiv; [exact Hdr| |apply Hord, Hrow].
        split; [done|]. by apply same_columns_sym.
  - (* the session *)
    rewrite Hrids. unfold claim_inv. simpl. split_and!.
    + intros task_id. specialize (Hg_task task_id). specialize (Hinv_t task_id).
      destruct Hg_task as [a b Hab|]; [|done].
      inversion Hinv_t as [? c Hbc|]; subst. constructor.
      eapply same_columns_trans; eauto.
    + intros rid. rewrite Hg_rec, claim_records_lookup, Hinv_r, Hinv_c.
      destruct (decide (rid ∈ claimed)) as [Hin|Hin];
        destruct (decide (rid ∈ record_ids rows)) as [Hin'|Hin'].
      * rewrite decide_True by (apply elem_of_app; tauto).
        by destruct (base_record (store s0) !! rid).
      * rewrite decide_True by (apply elem_of_app; tauto). done.
      * rewrite decide_True by (apply elem_of_app; tauto). done.
      * rewrite decide_False by (rewrite elem_of_app; tauto). done.
    + done.
    + done.
Qed.
End ClaimPass.
Lemma record_ids_app l1 l2 : record_ids (l1 ++ l2) = record_ids l1 ++ record_ids l2.
Proof. apply fmap_app. Qed.

Section ClaimTags.
Context (rs : RootSocket) (manager_name : string).

Lemma claim_for_tag_length ps tag new_limit s dicts s' :
  claim_for_tag rs manager_name ps tag new_limit s = (Ok dicts, s') →
  length dicts ≤ Z.to_nat new_limit.
Proof.
  unfold claim_for_tag. intros H.
  apply bind_Ok_inv in H as (rows & s1 & Hsel & H).
  unfold select_claimable in Hsel. injection Hsel as <- <-.
  apply bind_Ok_inv in H as ([] & s2 & _ & H).
  apply bind_Ok_inv in H as ([] & s3 & _ & H).
  apply map_M_length in H. rewrite H. apply claim_query_length.
Qed.

(** The loop never goes beyond [limit], and it does nothing once [limit] is
    reached. *)
Lemma claim_tags_length ps limit tags found s found' s' :
  claim_tags rs manager_name ps limit tags found s = (Ok found', s') →
  (Z.of_nat (length found) ≤ Z.max 0 limit)%Z →
  (Z.of_nat (length found') ≤ Z.max 0 limit)%Z.
Proof.
  revert found s. induction tags as [|tag tags IH]; intros found s; simpl.
  - intros H. injection H as <- <-. done.
  - case_decide as Hlim.
    + intros H. injection H as <- <-. done.
    + intros (dicts & s1 & Hpass & H)%bind_Ok_inv Hlen.
      apply IH in H; [done|]. apply claim_for_tag_length in Hpass.
      rewrite length_app. lia.
Qed.

Lemma claim_tags_stop ps limit tags found s :
  (limit ≤ Z.of_nat (length found))%Z →
  claim_tags rs manager_name ps limit tags found s = (Ok found, s).
Proof.
  intros H. destruct tags as [|tag tags]; simpl; [done|].
  rewrite decide_True by lia. done.
Qed.

Hypothesis gen_frame : generate_task_specification_frame rs.

Lemma claim_tags_groups ps limit s0 tags found claimed s found' s' :
  claim_inv manager_name s0 claimed s →
  claim_tags rs manager_name ps limit tags found s = (Ok found', s') →
  ∃ groups,
    found' = found ++ concat groups ∧
    length groups ≤ length tags ∧
    claim_inv manager_name s0 (claimed ++ record_ids (concat groups)) s' ∧
    ∀ i tag group, tags !! i = Some tag → groups !! i = Some group →
      claimed_group ps s0 (claimed ++ record_ids (concat (take i groups))) tag
        (limit - Z.of_nat (length found) - Z.of_nat (length (concat (take i groups))))
        group.
Proof.
  revert found claimed s. induction tags as [|tag tags IH]; intros found claimed s Hinv; simpl.
  - intros H. injection H as <- <-. exists []. simpl. rewrite !app_nil_r.
    split_and!; [done..|]. intros i ? ? ?. by rewrite lookup_nil.
  - case_decide as Hlim.
    + intros H. injection H as <- <-. exists []. simpl. rewrite !app_nil_r.
      split_and!; [done|lia|done|]. intros i ? ? ?. by rewrite lookup_nil.
    + intros (dicts & s1 & Hpass & H)%bind_Ok_inv.
      eapply (claim_pass rs manager_name gen_frame) in Hpass as [Hgroup Hinv1];
        [|exact Hinv|lia].
      destruct (IH _ _ _ Hinv1 H) as (groups & -> & Hlen & Hinv' & Hgroups).
      exists (dicts :: groups). simpl. rewrite record_ids_app.
      rewrite <- !(assoc_L (++)) in Hinv'. rewrite !(assoc_L (++)).
      split_and!; [done|lia| |].
      { by rewrite <- !(assoc_L (++)). }
      intros [|i] tag' group; simpl.
      * intros [= <-] [= <-]. rewrite app_nil_r.
        by replace (limit - Z.of_nat (length found) - Z.of_nat 0)%Z
          with (limit - Z.of_nat (length found))%Z by lia.
      * intros Ht Hg. specialize (Hgroups i tag' group Ht Hg).
        rewrite record_ids_app, length_app, (assoc_L (++)).
        rewrite length_app in Hgroups.
        by replace (limit - Z.of_nat (length found)
                    - Z.of_nat (length dicts + length (concat (take i groups))))%Z
          with (limit - Z.of_nat (length found + length dicts)
                - Z.of_nat (length (concat (take i groups))))%Z by lia.
Qed.

End ClaimTags.

Section ClaimTagsAll.
Context (rs : RootSocket) (manager_name : string).
Hypothesis gen_frame : generate_task_specification_frame rs.

(** The loop makes a group for every tag, one after the other, and leaves a
    tag out only when the limit is reached. *)
Lemma claim_tags_all_groups ps limit s0 tags found claimed s found' s' :
  claim_inv manager_name s0 claimed s →
  claim_tags rs manager_name ps limit tags found s = (Ok found', s') →
  ∃ groups,
    found' = found ++ concat groups ∧
    length groups ≤ length tags ∧
    (length groups < length tags → (limit ≤ Z.of_nat (length found'))%Z) ∧
    ∀ i tag group, tags !! i = Some tag → groups !! i = Some group →
      claimed_group ps s0 (claimed ++ record_ids (concat (take i groups))) tag
        (limit - Z.of_nat (length found) - Z.of_nat (length (concat (take i groups))))
        group.
Proof.
  revert found claimed s. induction tags as [|tag tags IH]; intros found claimed s Hinv; simpl.
  - intros H. injection H as <- <-. exists []. simpl. rewrite !app_nil_r.
    split_and!; [done|done|lia|]. intros i ? ? ?. by rewrite lookup_nil.
  - case_decide as Hlim.
    + intros H. injection H as <- <-. exists []. simpl. rewrite !app_nil_r.
      split_and!; [done|lia|lia|]. intros i ? ? ?. by rewrite lookup_nil.
    + intros (dicts & s1 & Hpass & H)%bind_Ok_inv.
      eapply (claim_pass rs manager_name gen_frame) in Hpass as [Hgroup Hinv1];
        [|exact Hinv|lia].
      destruct (IH _ _ _ Hinv1 H) as (groups & -> & Hlen & Hall & Hgroups).
      exists (dicts :: groups). simpl.
      split_and!; [by rewrite <- !(assoc_L (++))|lia|intros ?; apply Hall; lia|].
      intros [|i] tag' group; simpl.
      * intros [= <-] [= <-]. rewrite app_nil_r.
        by replace (limit - Z.of_nat (length found) - Z.of_nat 0)%Z
          with (limit - Z.of_nat (length found))%Z by lia.
      * intros Ht Hg. specialize (Hgroups i tag' group Ht Hg).
        rewrite record_ids_app, length_app, (assoc_L (++)).
        rewrite length_app in Hgroups.
        by replace (limit - Z.of_nat (length found)
                    - Z.of_nat (length dicts + length (concat (take i groups))))%Z
          with (limit - Z.of_nat (length found + length dicts)
                - Z.of_nat (length (concat (take i groups))))%Z by lia.
Qed.

End ClaimTagsAll.

Section ClaimTasks.
Context (rs : RootSocket) (manager_name : string).

Lemma claim_inv_start s : claim_inv manager_name s [] s.
Proof.
  unfold claim_inv. split_and!; [|done..].
  intros task_id. destruct (task_queue (store s) !! task_id); constructor.
  apply same_columns_refl.
Qed.

(** [claim_tasks] with a manager that is there and active, as its loop. *)
Lemma claim_tasks_active limit s manager :
  compute_manager s !! manager_name = Some manager →
  ComputeManagerORM.status manager = ManagerStatusEnum.active →
  claim_tasks rs manager_name limit s =
  match claim_tags rs manager_name (dom (ComputeManagerORM.programs manager))
          (calculate_limit (_tasks_claim_limit rs) limit)
          (ComputeManagerORM.tags manager) []
          (add_row_locks [LockManager manager_name] s) with
  | (Ok found, s1) =>
      (Ok found,
       set_compute_manager
         (alter (ComputeManagerORM.add_claimed (Z.of_nat (length found))) manager_name
            (compute_manager s1)) s1)
  | (Raise e, s1) => (Raise e, s1)
  end.
Proof.
  intros Hm Hact. unfold claim_tasks. rewrite bind_run.
  unfold select_manager_for_update. rewrite Hm.
  rewrite decide_False by (by intros []).
  rewrite bind_run. by destruct (claim_tags _ _ _ _ _ _ _) as [[found|e] s1].
Qed.

Lemma claim_tasks_Ok_inv limit s found s' :
  claim_tasks rs manager_name limit s = (Ok found, s') →
  ∃ manager s1,
    compute_manager s !! manager_name = Some manager ∧
    ComputeManagerORM.status manager = ManagerStatusEnum.active ∧
    claim_tags rs manager_name (dom (ComputeManagerORM.programs manager))
      (calculate_limit (_tasks_claim_limit rs) limit)
      (ComputeManagerORM.tags manager) []
      (add_row_locks [LockManager manager_name] s) = (Ok found, s1) ∧
    s' = set_compute_manager
           (alter (ComputeManagerORM.add_claimed (Z.of_nat (length found))) manager_name
              (compute_manager s1)) s1.
Proof.
  intros H.
  destruct (compute_manager s !! manager_name) as [manager|] eqn:Hm.
  - destruct (decide (ComputeManagerORM.status manager = ManagerStatusEnum.active))
      as [Hact|Hact].
    + rewrite (claim_tasks_active _ _ _ Hm Hact) in H.
      destruct (claim_tags _ _ _ _ _ _ _) as [[found1|e] s1] eqn:Hloop; [|done].
      injection H as <- <-. by exists manager, s1.
    + unfold claim_tasks in H. rewrite bind_run in H.
      unfold select_manager_for_update in H. rewrite Hm in H.
      by rewrite decide_True in H.
  - unfold claim_tasks in H. rewrite bind_run in H.
    unfold select_manager_for_update in H. by rewrite Hm in H.
Qed.

End ClaimTasks.
(** ** The modelled record socket keeps the contracts *)

Lemma attach_function_same_columns t : same_columns (SpecRecords.attach_function t) t.
Proof. by repeat split. Qed.

Lemma spec_generate_task_specification_frame config :
  generate_task_specification_frame (SpecRecords.root_socket config).
Proof.
  intros task_ids st st' H. simpl in H. unfold SpecRecords.generate_task_specification in H.
  injection H as <-. simpl. split; [done|]. intros task_id.
  induction task_ids as [|tid task_ids IH]; simpl.
  - destruct (task_queue st !! task_id); constructor. apply same_columns_refl.
  - destruct (decide (tid = task_id)) as [->|Hne].
    + rewrite lookup_alter_eq. destruct IH as [t t' Ht|]; constructor.
      eapply same_columns_trans; [apply attach_function_same_columns|done].
    + by rewrite lookup_alter_ne.
Qed.

(** ** [claim_tasks]: what is claimed *)

Lemma elem_of_concat_lookup {A} (ls : list (list A)) x :
  x ∈ concat ls → ∃ i l, ls !! i = Some l ∧ x ∈ l.
Proof.
  induction ls as [|l ls IH]; simpl.
  - intros H. by apply elem_of_nil in H.
  - intros [H|H]%elem_of_app.
    + by exists 0, l.
    + destruct (IH H) as (i & l' & Hi & Hx). by exists (S i), l'.
Qed.

Lemma concat_lookup_middle {A} (ls : list (list A)) i l :
  ls !! i = Some l → concat ls = concat (take i ls) ++ l ++ concat (drop (S i) ls).
Proof.
  intros Hi. rewrite <- (take_drop_middle ls i l Hi) at 1.
  by rewrite concat_app, concat_cons.
Qed.

Section ClaimTasksTheorems.
Context (rs : RootSocket) (manager_name : string).

(** C2.  A call of [claim_tasks] for an active manager returns the tasks in
    groups, one for each tag of the manager in the order of its tags: every
    tag is queried, and has its group, unless the limit was reached before
    it.  The group of a tag holds only tasks that, when the call began, had a
    waiting record, required only programs of the manager and had that tag
    (or the tag is ["*"]), and whose record was not claimed for an earlier
    tag; they come by priority, highest first, then by [created_on], oldest
    first; they are no more than what was left of the limit; and a claimable
    task that is left out of a group comes after all of its tasks, the group
    then being full.  So a task that could be claimed for a tag of the
    manager when the call began is returned, unless its record was claimed
    with another task or the limit was reached. *)
Theorem claim_tasks_selection limit s manager found s' :
  generate_task_specification_frame rs →
  compute_manager s !! manager_name = Some manager →
  ComputeManagerORM.status manager = ManagerStatusEnum.active →
  claim_tasks rs manager_name limit s = (Ok found, s') →
  ∃ groups,
    found = concat groups ∧
    length groups ≤ length (ComputeManagerORM.tags manager) ∧
    (∀ i tag,
       ComputeManagerORM.tags manager !! i = Some tag →
       is_Some (groups !! i) ∨
       (calculate_limit (manager_tasks_claim (qcf_config rs)) limit
        ≤ Z.of_nat (length found))%Z) ∧
    (∀ i tag group,
       ComputeManagerORM.tags manager !! i = Some tag →
       groups !! i = Some group →
       claimed_group (dom (ComputeManagerORM.programs manager)) s
         (record_ids (concat (take i groups))) tag
         (calculate_limit (manager_tasks_claim (qcf_config rs)) limit
          - Z.of_nat (length (concat (take i groups))))
         group) ∧
    (∀ tag task_id t0,
       tag ∈ ComputeManagerORM.tags manager →
       task_queue (store s) !! task_id = Some t0 →
       claimable (store s) (dom (ComputeManagerORM.programs manager)) tag (task_id, t0) →
       task_id ∈ found.*1 ∨
       TaskQueueORM.record_id t0 ∈ record_ids found ∨
       (calculate_limit (manager_tasks_claim (qcf_config rs)) limit
        ≤ Z.of_nat (length found))%Z).
Proof.
  intros Hgen Hm Hact H. rewrite (claim_tasks_active _ _ _ _ _ Hm Hact) in H.
  destruct (claim_tags _ _ _ _ _ _ _) as [[found1|e] s1] eqn:Hloop; [|done].
  injection H as <- <-.
  eapply claim_tags_all_groups in Hloop as (groups & Hfound & Hlen & Hall & Hgroups);
    [|done|apply claim_inv_start].
  simpl in Hfound. unfold _tasks_claim_limit in Hall, Hgroups.
  set (lim := calculate_limit (manager_tasks_claim (qcf_config rs)) limit) in *.
  assert (Hgroups' : ∀ i tag group,
            ComputeManagerORM.tags manager !! i = Some tag →
            groups !! i = Some group →
            claimed_group (dom (ComputeManagerORM.programs manager)) s
              (record_ids (concat (take i groups))) tag
              (lim - Z.of_nat (length (concat (take i groups)))) group).
  { intros i tag group Ht Hg. specialize (Hgroups i tag group Ht Hg). simpl in Hgroups.
    by replace (lim - Z.of_nat 0 - Z.of_nat (length (concat (take i groups))))%Z
      with (lim - Z.of_nat (length (concat (take i groups))))%Z in Hgroups by lia. }
  assert (Hqueried : ∀ i tag,
            ComputeManagerORM.tags manager !! i = Some tag →
            is_Some (groups !! i) ∨ (lim ≤ Z.of_nat (length found1))%Z).
  { intros i tag Ht.
    destruct (decide (i < length groups)) as [Hi|Hi]; [left; by apply lookup_lt_is_Some_2|].
    right. apply Hall. apply lookup_lt_Some in Ht. lia. }
  exists groups. split_and!; [done|done|done|done|].
  intros tag task_id t0 Htag Ht0 Hclaimable.
  apply list_elem_of_lookup in Htag as [i Hi].
  destruct (Hqueried i tag Hi) as [[group Hg]|Hreached]; [|by right; right].
  destruct (Hgroups' i tag group Hi Hg) as (_ & _ & _ & _ & Hrows & Hcomplete).
  pose proof (concat_lookup_middle groups i group Hg) as Hsplit.
  destruct (decide (TaskQueueORM.record_id t0 ∈ record_ids (concat (take i groups))))
    as [Hbefore|Hfresh].
  { right; left. subst found1. rewrite Hsplit. rewrite record_ids_app.
    apply elem_of_app. by left. }
  destruct (Hcomplete task_id t0 Ht0 Hclaimable Hfresh) as [Hin|[Hfull _]].
  - left. subst found1. rewrite Hsplit, !fmap_app. apply elem_of_app. right.
    apply elem_of_app. by left.
  - right; right. subst found1. rewrite Hsplit, !length_app. lia.
Qed.

(** C5 as the code has it.  For every task that a call of [claim_tasks]
    returns, the record of the task was waiting and is now running, with the
    claiming manager as [manager_name] and the time of the claim as
    [modified_on], its other columns being as they were.  The row of the task
    is still there, and its [available] flag is what it was before the call:
    [claim_tasks] does not write it. *)
Theorem claim_tasks_marks_records limit s found s' :
  generate_task_specification_frame rs →
  claim_tasks rs manager_name limit s = (Ok found, s') →
  ∀ d, d ∈ found →
    (∃ r0 r,
       base_record (store s) !! TaskQueueORM.record_id d.2 = Some r0 ∧
       BaseRecordORM.status r0 = RecordStatusEnum.waiting ∧
       base_record (store s') !! TaskQueueORM.record_id d.2 = Some r ∧
       r = claim_record manager_name (clock s) r0 ∧
       BaseRecordORM.status r = RecordStatusEnum.running ∧
       BaseRecordORM.manager_name r = Some manager_name ∧
       BaseRecordORM.modified_on r = clock s ∧
       BaseRecordORM.compute_history r = BaseRecordORM.compute_history r0) ∧
    is_Some (task_queue (store s') !! d.1) ∧
    TaskQueueORM.available <$> task_queue (store s') !! d.1 =
      TaskQueueORM.available <$> task_queue (store s) !! d.1 ∧
    TaskQueueORM.available <$> task_queue (store s) !! d.1 =
      Some (TaskQueueORM.available d.2).
Proof.
  intros Hgen H d Hd.
  apply claim_tasks_Ok_inv in H as (manager & s1 & Hm & Hact & Hloop & ->).
  eapply claim_tags_groups in Hloop as (groups & Hfound & Hlen & Hinv & Hgroups);
    [|done|apply claim_inv_start].
  simpl in Hfound, Hinv. subst found.
  destruct (elem_of_concat_lookup _ _ Hd) as (i & group & Hg & Hdg).
  destruct (lookup_lt_is_Some_2 (ComputeManagerORM.tags manager) i) as [tag Ht].
  { apply lookup_lt_Some in Hg. lia. }
  destruct (Hgroups i tag group Ht Hg) as (_ & _ & _ & _ & Hall & _).
  rewrite Forall_forall in Hall. destruct (Hall d Hdg) as (t0 & Ht0 & Hsame & Hc & _).
  simpl in Ht0. destruct Hinv as (Hinv_t & Hinv_r & _ & _).
  destruct Hc as (Hw & _). simpl in Hw. unfold record_status in Hw.
  pose proof Hsame as (Hrid & _ & _ & _ & _ & Hav). rewrite <- Hrid in Hw.
  destruct (base_record (store s) !! TaskQueueORM.record_id d.2) as [r0|] eqn:Hr0; [|done].
  injection Hw as Hw. split_and!.
  - exists r0, (claim_record manager_name (clock s) r0). simpl.
    rewrite Hinv_r. simpl. rewrite Hr0. rewrite decide_True; [done|].
    apply list_elem_of_fmap. by exists d.
  - specialize (Hinv_t d.1). simpl in *. rewrite Ht0 in Hinv_t.
    inversion Hinv_t. done.
  - specialize (Hinv_t d.1). simpl in *. rewrite Ht0 in Hinv_t.
    inversion Hinv_t as [t1 ? Hs1|]; subst. simpl. rewrite Ht0. simpl.
    f_equal. apply Hs1.
  - simpl. rewrite Ht0. simpl. by rewrite Hav.
Qed.

(** C10.  [claim_tasks] works with the limit that [calculate_limit] gives,
    which is at most the configured [manager_tasks_claim] whatever is asked
    for.  The loop over the tags does nothing more once that many tasks are
    found, and the call never returns more tasks than the configured limit. *)
Theorem claim_tasks_limit limit s found s' :
  (0 ≤ manager_tasks_claim (qcf_config rs))%Z →
  claim_tasks rs manager_name limit s = (Ok found, s') →
  (calculate_limit (_tasks_claim_limit rs) limit ≤ manager_tasks_claim (qcf_config rs))%Z ∧
  (∀ ps tags found0 s0,
     (calculate_limit (_tasks_claim_limit rs) limit ≤ Z.of_nat (length found0))%Z →
     claim_tags rs manager_name ps (calculate_limit (_tasks_claim_limit rs) limit)
       tags found0 s0 = (Ok found0, s0)) ∧
  (Z.of_nat (length found) ≤ Z.max 0 (calculate_limit (_tasks_claim_limit rs) limit))%Z ∧
  (Z.of_nat (length found) ≤ manager_tasks_claim (qcf_config rs))%Z.
Proof.
  intros Hpos H.
  assert (Hclamp : (calculate_limit (_tasks_claim_limit rs) limit
                    ≤ manager_tasks_claim (qcf_config rs))%Z).
  { unfold calculate_limit, _tasks_claim_limit. destruct limit; lia. }
  apply claim_tasks_Ok_inv in H as (manager & s1 & _ & _ & Hloop & _).
  apply claim_tags_length in Hloop; [|simpl; lia].
  split_and!; [done| |done|lia].
  intros. by apply claim_tags_stop.
Qed.

End ClaimTasksTheorems.

Lemma example_claim_run :
  claim_tasks Example.root_socket "manager-1" (Some 2%Z) Example.waiting_session =
  (Ok Example.claim_found, Example.claim_run.2).
Proof. vm_compute. reflexivity. Qed.

Lemma example_claim_found : Example.claim_found.*1 = [3; 1].
Proof. vm_compute. reflexivity. Qed.

Lemma claim_tasks_selection_witness :
  ∃ groups,
    ExampleClaims.claim_all_found = concat groups ∧
    length groups ≤ length (ComputeManagerORM.tags Example.manager) ∧
    (∀ i tag,
       ComputeManagerORM.tags Example.manager !! i = Some tag →
       is_Some (groups !! i) ∨
       (calculate_limit (manager_tasks_claim (qcf_config Example.root_socket)) None
        ≤ Z.of_nat (length ExampleClaims.claim_all_found))%Z) ∧
    (∀ i tag group,
       ComputeManagerORM.tags Example.manager !! i = Some tag →
       groups !! i = Some group →
       claimed_group (dom (ComputeManagerORM.programs Example.manager))
         Example.waiting_session
         (record_ids (concat (take i groups))) tag
         (calculate_limit (manager_tasks_claim (qcf_config Example.root_socket)) None
          - Z.of_nat (length (concat (take i groups))))
         group) ∧
    (∀ tag task_id t0,
       tag ∈ ComputeManagerORM.tags Example.manager →
       task_queue (store Example.waiting_session) !! task_id = Some t0 →
       claimable (store Example.waiting_session)
         (dom (ComputeManagerORM.programs Example.manager)) tag (task_id, t0) →
       task_id ∈ ExampleClaims.claim_all_found.*1 ∨
       TaskQueueORM.record_id t0 ∈ record_ids ExampleClaims.claim_all_found ∨
       (calculate_limit (manager_tasks_claim (qcf_config Example.root_socket)) None
        ≤ Z.of_nat (length ExampleClaims.claim_all_found))%Z).
Proof.
  apply (claim_tasks_selection Example.root_socket "manager-1" None
           Example.waiting_session Example.manager ExampleClaims.claim_all_found
           ExampleClaims.claim_all.2).
  - apply spec_generate_task_specification_frame.
  - vm_compute. reflexivity.
  - reflexivity.
  - vm_compute. reflexivity.
Defined.

Lemma claim_tasks_marks_records_witness :
  (∃ r0 r,
     base_record (store Example.waiting_session) !! 13 = Some r0 ∧
     BaseRecordORM.status r0 = RecordStatusEnum.waiting ∧
     base_record (store Example.claim_run.2) !! 13 = Some r ∧
     r = claim_record "manager-1" (clock Example.waiting_session) r0 ∧
     BaseRecordORM.status r = RecordStatusEnum.running ∧
     BaseRecordORM.manager_name r = Some "manager-1" ∧
     BaseRecordORM.modified_on r = clock Example.waiting_session ∧
     BaseRecordORM.compute_history r = BaseRecordORM.compute_history r0) ∧
  is_Some (task_queue (store Example.claim_run.2) !! 3) ∧
  TaskQueueORM.available <$> task_queue (store Example.claim_run.2) !! 3 =
    TaskQueueORM.available <$> task_queue (store Example.waiting_session) !! 3 ∧
  TaskQueueORM.available <$> task_queue (store Example.waiting_session) !! 3 = Some true.
Proof.
  apply (claim_tasks_marks_records Example.root_socket "manager-1" (Some 2%Z)
           Example.waiting_session Example.claim_found Example.claim_run.2
           (spec_generate_task_specification_frame Example.config)
           example_claim_run
           (3, SpecRecords.attach_function (Example.task 13 "tagA" ["psi4"] 2 12))).
  vm_compute. apply list_elem_of_here.
Defined.

(** The claim C5 as the spec has it fails on the [available] flag: task 3 is
    claimed, and its flag is still set after the call. *)
Lemma claim_tasks_available_counterexample :
  claim_tasks Example.root_socket "manager-1" (Some 2%Z) Example.waiting_session =
    (Ok Example.claim_found, Example.claim_run.2) ∧
  ¬ (∀ d, d ∈ Example.claim_found →
       TaskQueueORM.available <$> task_queue (store Example.claim_run.2) !! d.1 = Some false).
Proof.
  split; [apply example_claim_run|]. intros H.
  specialize (H (3, SpecRecords.attach_function (Example.task 13 "tagA" ["psi4"] 2 12))).
  assert (Hin : (3, SpecRecords.attach_function (Example.task 13 "tagA" ["psi4"] 2 12))
                ∈ Example.claim_found).
  { vm_compute. apply list_elem_of_here. }
  specialize (H Hin). vm_compute in H. discriminate.
Qed.

Lemma claim_tasks_limit_witness :
  (calculate_limit (_tasks_claim_limit Example.root_socket) (Some 2%Z)
   ≤ manager_tasks_claim (qcf_config Example.root_socket))%Z ∧
  (∀ ps tags found0 s0,
     (calculate_limit (_tasks_claim_limit Example.root_socket) (Some 2%Z)
      ≤ Z.of_nat (length found0))%Z →
     claim_tags Example.root_socket "manager-1" ps
       (calculate_limit (_tasks_claim_limit Example.root_socket) (Some 2%Z))
       tags found0 s0 = (Ok found0, s0)) ∧
  (Z.of_nat (length Example.claim_found)
   ≤ Z.max 0 (calculate_limit (_tasks_claim_limit Example.root_socket) (Some 2%Z)))%Z ∧
  (Z.of_nat (length Example.claim_found)
   ≤ manager_tasks_claim (qcf_config Example.root_socket))%Z.
Proof.
  apply (claim_tasks_limit Example.root_socket "manager-1" (Some 2%Z)
           Example.waiting_session Example.claim_found Example.claim_run.2).
  - vm_compute. discriminate.
  - apply example_claim_run.
Defined.
(** ** [update_finished]: one result *)

Section ProcessResult.
Context (rs : RootSocket) (manager_name : string).

Lemma select_task_for_update_run task_id s :
  select_task_for_update task_id s =
  match lookup_task s task_id with
  | None => (Ok None, s)
  | Some (t, r) =>
      (Ok (Some (t, r)),
       add_row_locks [LockTask task_id; LockRecord (TaskQueueORM.record_id t)] s)
  end.
Proof.
  unfold select_task_for_update, lookup_task.
  destruct (task_queue (store s) !! task_id) as [t|]; simpl; [|done].
  by destruct (base_record (store s) !! TaskQueueORM.record_id t).
Qed.

Ltac run_M :=
  unfold try_except_finally, apply_result, on_exception, release_savepoint,
    update_failed_task, update_completed_task, call_should_reset,
    tasks_rejected_append, tasks_success_append, tasks_failures_append,
    to_be_reset_append, all_notifications_append, set_notify_status,
    in_session, call_records, zoom, begin_nested, nested_commit, nested_rollback,
    modify, gets, mbind, mret, M_bind, M_ret; simpl.

Lemma process_result_case_eq task_id result fr r fr1 fr2 :
  process_result_case rs manager_name task_id result fr r fr1 → fr1 = fr2 →
  process_result_case rs manager_name task_id result fr r fr2.
Proof. by intros ? <-. Qed.

Ltac use_success :=
  repeat match goal with
  | H : fo_success _ = _ |- _ => rewrite H
  | H : enabled _ = _ |- _ => rewrite H
  | H : should_reset _ _ _ _ = _ |- _ => rewrite H
  end.

Ltac close_case c :=
  eapply process_result_case_eq;
  [eapply c; try eassumption; try reflexivity;
   try (unfold first_call, internal_error_op; simpl; use_success; simpl; eassumption)
  |unfold session_after, set_session, set_store, log_call, first_call, reset_calls,
     reset_ids, internal_error_op;
   simpl; use_success; simpl; rewrite ?app_nil_r, <- ?(assoc_L (++)); reflexivity].

Lemma process_result_cases task_id result fr r fr' :
  process_result rs manager_name (task_id, result) fr = (r, fr') →
  process_result_case rs manager_name task_id result fr r fr'.
Proof.
  unfold process_result. rewrite bind_run. unfold in_session at 1, zoom.
  rewrite select_task_for_update_run.
  destruct (lookup_task (session fr) task_id) as [[t rec]|] eqn:Hlook.
  2:{ intros H. injection H as <- <-. destruct fr. by apply case_missing. }
  run_M.
  destruct (decide (BaseRecordORM.status rec ≠ RecordStatusEnum.running)) as [Hrun|Hrun].
  { simpl. intros H. injection H as <- <-. close_case case_not_running. }
  apply dec_stable in Hrun.
  destruct (decide (BaseRecordORM.manager_name rec ≠ Some manager_name)) as [Hman|Hman].
  { simpl. intros H. injection H as <- <-. close_case case_other_manager. }
  apply dec_stable in Hman.
  destruct result as [f|[] data]; simpl.
  - destruct (fo_success f) eqn:Hf; simpl.
    + destruct (records_update_completed_task rs (TaskQueueORM.record_id t) (Failed f)
                  manager_name (store (session fr))) as [[[]|e] st'] eqn:H1; simpl.
      * intros H. injection H as <- <-. close_case case_success.
      * destruct (records_update_failed_task rs (TaskQueueORM.record_id t)
                    (internal_failed_op (internal_error_msg rs e)) manager_name
                    (store (session fr))) as [[[]|e'] st''] eqn:H2; simpl;
          intros H; injection H as <- <-.
        -- close_case case_internal_error.
        -- close_case case_double_fault.
    + destruct (records_update_failed_task rs (TaskQueueORM.record_id t) f
                  manager_name (store (session fr))) as [[[]|e] st'] eqn:H1; simpl.
      * destruct (enabled (auto_reset (qcf_config rs))) eqn:Hen; simpl.
        -- destruct (should_reset rs st' (TaskQueueORM.record_id t)
                       (auto_reset (qcf_config rs))) eqn:Hsr; simpl;
             intros H; injection H as <- <-; close_case case_failure.
        -- intros H; injection H as <- <-; close_case case_failure.
      * destruct (records_update_failed_task rs (TaskQueueORM.record_id t)
                    (internal_failed_op (internal_error_msg rs e)) manager_name
                    (store (session fr))) as [[[]|e'] st''] eqn:H2; simpl;
          intros H; injection H as <- <-.
        -- close_case case_internal_error.
        -- close_case case_double_fault.
  - destruct (records_update_completed_task rs (TaskQueueORM.record_id t)
                (Computed true data) manager_name (store (session fr)))
      as [[[]|e] st'] eqn:H1; simpl.
    + intros H. injection H as <- <-. close_case case_success.
    + destruct (records_update_failed_task rs (TaskQueueORM.record_id t)
                  (internal_failed_op (internal_error_msg rs e)) manager_name
                  (store (session fr))) as [[[]|e'] st''] eqn:H2; simpl;
        intros H; injection H as <- <-.
      * close_case case_internal_error.
      * close_case case_double_fault.
  - destruct (records_update_failed_task rs (TaskQueueORM.record_id t)
                (internal_failed_op
                   (unexpected_return_msg task_id (TaskQueueORM.record_id t)))
                manager_name (store (session fr))) as [[[]|e] st'] eqn:H1; simpl.
    + intros H. injection H as <- <-. close_case case_malformed.
    + destruct (records_update_failed_task rs (TaskQueueORM.record_id t)
                  (internal_failed_op (internal_error_msg rs e)) manager_name
                  (store (session fr))) as [[[]|e'] st''] eqn:H2; simpl;
        intros H; injection H as <- <-.
      * close_case case_internal_error.
      * close_case case_double_fault.
Qed.

End ProcessResult.
(** ** [update_finished]: the loop over the results *)

Section BatchDelta.
Context (rs : RootSocket) (manager_name : string).

Lemma should_reset_discipline_mono results results' cs :
  results ⊆ results' →
  should_reset_discipline rs manager_name results cs →
  should_reset_discipline rs manager_name results' cs.
Proof.
  intros Hsub H before after rid answer Heq.
  destruct (H before after rid answer Heq) as (Hen & before' & task_id & f & ? & ? & ?).
  split; [done|]. exists before', task_id, f. split_and!; [done| |done]. by apply Hsub.
Qed.

Lemma should_reset_discipline_none results cs :
  Forall (λ c, ¬ is_should_reset_call c) cs →
  should_reset_discipline rs manager_name results cs.
Proof.
  intros Hall before after rid answer ->.
  apply Forall_app in Hall as [_ Hall]. apply Forall_cons in Hall as [Hc _].
  by destruct Hc.
Qed.

Lemma should_reset_discipline_app results cs1 cs2 :
  should_reset_discipline rs manager_name results cs1 →
  should_reset_discipline rs manager_name results cs2 →
  should_reset_discipline rs manager_name results (cs1 ++ cs2).
Proof.
  intros H1 H2 before after rid answer Heq.
  apply app_eq_inv in Heq as [(k & -> & Hk)|(k & -> & ->)].
  - destruct k as [|c k]; simpl in Hk.
    + subst cs2.
      destruct (H2 [] after rid answer) as (_ & before' & ? & ? & Hb & _); [done|].
      by destruct before'.
    + injection Hk as <- ->.
      apply (H1 before k rid answer). done.
  - destruct (H2 k after rid answer) as (Hen & before' & task_id & f & Hb & ? & ?); [done|].
    split; [done|]. exists (cs1 ++ before'), task_id, f.
    rewrite Hb, (assoc_L (++)). done.
Qed.

Lemma batch_delta_nil fr : batch_delta rs manager_name [] fr fr.
Proof.
  exists [], [], [], [], [], [], []. rewrite !app_nil_r. split_and!; try done.
  - intros ? []%elem_of_nil.
  - intros ? []%elem_of_nil.
  - intros ? ? []%elem_of_nil.
  - by apply should_reset_discipline_none.
Qed.

Lemma batch_delta_app l1 l2 fr fr1 fr2 :
  batch_delta rs manager_name l1 fr fr1 →
  batch_delta rs manager_name l2 fr1 fr2 →
  batch_delta rs manager_name (l1 ++ l2) fr fr2.
Proof.
  intros (succ1 & fail1 & rej1 & notifs1 & resets1 & calls1 & locks1 &
          Hs1 & Hf1 & Hr1 & Hn1 & Ht1 & Hc1 & Hl1 & Hm1 & Hp1 & Hk1 &
          Hperm1 & Hsucc1 & Hfail1 & Hrej1 & Hres1 & Hdis1 & Hall1 & Hcnt1).
  intros (succ2 & fail2 & rej2 & notifs2 & resets2 & calls2 & locks2 &
          Hs2 & Hf2 & Hr2 & Hn2 & Ht2 & Hc2 & Hl2 & Hm2 & Hp2 & Hk2 &
          Hperm2 & Hsucc2 & Hfail2 & Hrej2 & Hres2 & Hdis2 & Hall2 & Hcnt2).
  exists (succ1 ++ succ2), (fail1 ++ fail2), (rej1 ++ rej2), (notifs1 ++ notifs2),
    (resets1 ++ resets2), (calls1 ++ calls2), (locks1 ++ locks2).
  rewrite !(assoc_L (++)). rewrite <- Hs1, <- Hf1, <- Hr1, <- Hn1, <- Ht1, <- Hc1, <- Hl1.
  split_and!; try congruence.
  - rewrite !fmap_app, <- Hperm1, <- Hperm2. solve_Permutation.
  - intros task_id [H|H]%elem_of_app.
    + destruct (Hsucc1 _ H) as (result & rid & ? & ? & ? & ?). exists result, rid.
      rewrite !elem_of_app. tauto.
    + destruct (Hsucc2 _ H) as (result & rid & ? & ? & ? & ?). exists result, rid.
      rewrite !elem_of_app. tauto.
  - intros task_id [H|H]%elem_of_app.
    + destruct (Hfail1 _ H) as (f & rid & ? & ? & ? & ?). exists f, rid.
      rewrite !elem_of_app. tauto.
    + destruct (Hfail2 _ H) as (f & rid & ? & ? & ? & ?). exists f, rid.
      rewrite !elem_of_app. tauto.
  - intros task_id reason [H|H]%elem_of_app.
    + destruct (Hrej1 _ _ H). rewrite fmap_app, elem_of_app. tauto.
    + destruct (Hrej2 _ _ H). rewrite fmap_app, elem_of_app. tauto.
  - unfold recommended_resets. rewrite omap_app. by rewrite Hres1, Hres2.
  - apply should_reset_discipline_app.
    + eapply should_reset_discipline_mono; [|done]. intros ? ?. apply elem_of_app. tauto.
    + eapply should_reset_discipline_mono; [|done]. intros ? ?. apply elem_of_app. tauto.
  - by apply Forall_app.
  - rewrite filter_app, !length_app. by rewrite Hcnt1, Hcnt2.
Qed.

Lemma first_call_kind task_id record_id result :
  (first_call rs manager_name task_id record_id result).1
    = CallUpdateCompletedTask record_id result manager_name ∨
  ∃ f, (first_call rs manager_name task_id record_id result).1
         = CallUpdateFailedTask record_id f manager_name.
Proof. unfold first_call. destruct (success result); simpl; eauto. Qed.

Lemma reset_ids_calls st record_id :
  reset_ids rs st record_id = recommended_resets (reset_calls rs st record_id).
Proof.
  unfold reset_ids, reset_calls, recommended_resets.
  destruct (enabled _); [|done]. by destruct (should_reset _ _ _ _).
Qed.

Lemma batch_delta_step task_id result fr fr' :
  process_result rs manager_name (task_id, result) fr = (Ok tt, fr') →
  batch_delta rs manager_name [(task_id, result)] fr fr'.
Proof.
  intros H%process_result_cases. unfold batch_delta.
  inversion H as [Hl|t r Hl Hrun|t r Hl Hrun Hman|t r f st' Hl Hrun Hman Hres Hf Hcall
                 |t r data st' Hl Hrun Hman Hres Hcall|t r st' Hl Hrun Hman Hsucc Hcall
                 |t r e st_r st' Hl Hrun Hman Hcall1 Hcall2|]; subst; simpl.
  - exists [], [], [(task_id, "Task does not exist in the task queue")], [], [], [], [].
    rewrite !app_nil_r. split_and!; try done.
    + intros ? []%elem_of_nil.
    + intros ? []%elem_of_nil.
    + intros ? ? [= -> ->]%list_elem_of_singleton. split; [set_solver|].
      unfold rejection_reasons. set_solver.
    + by apply should_reset_discipline_none.
  - exists [], [], [(task_id, "Task is not in a running state")], [], [], [],
      [LockTask task_id; LockRecord (TaskQueueORM.record_id t)].
    rewrite !app_nil_r. split_and!; try done.
    + intros ? []%elem_of_nil.
    + intros ? []%elem_of_nil.
    + intros ? ? [= -> ->]%list_elem_of_singleton. split; [set_solver|].
      unfold rejection_reasons. set_solver.
    + by apply should_reset_discipline_none.
  - exists [], [], [(task_id, "Task is claimed by another manager")], [], [], [],
      [LockTask task_id; LockRecord (TaskQueueORM.record_id t)].
    rewrite !app_nil_r. split_and!; try done.
    + intros ? []%elem_of_nil.
    + intros ? []%elem_of_nil.
    + intros ? ? [= -> ->]%list_elem_of_singleton. split; [set_solver|].
      unfold rejection_reasons. set_solver.
    + by apply should_reset_discipline_none.
  - exists [], [task_id], [], [(TaskQueueORM.record_id t, RecordStatusEnum.error)],
      (reset_ids rs st' (TaskQueueORM.record_id t)),
      (CallUpdateFailedTask (TaskQueueORM.record_id t) f manager_name
       :: reset_calls rs st' (TaskQueueORM.record_id t)),
      [LockTask task_id; LockRecord (TaskQueueORM.record_id t)].
    rewrite !app_nil_r. split_and!; try done.
    + intros ? []%elem_of_nil.
    + intros ? ->%list_elem_of_singleton. exists f, (TaskQueueORM.record_id t).
      split_and!; [set_solver|done|set_solver|set_solver].
    + intros ? ? []%elem_of_nil.
    + apply reset_ids_calls.
    + intros before after rid answer Heq. unfold reset_calls in Heq.
      destruct (enabled (auto_reset (qcf_config rs))) eqn:Hen.
      * split; [done|]. destruct before as [|c [|c' before]]; simplify_eq/=.
        -- exists [], task_id, f. split_and!; [done|set_solver|done].
        -- by destruct before.
      * destruct before as [|c [|c' before]]; simplify_eq/=.
    + constructor; [by split; intros []|]. unfold reset_calls.
      destruct (enabled _); repeat constructor; by intros [].
  - exists [], [], [(task_id, "Returned success=False, but not a FailedOperation")],
      [(TaskQueueORM.record_id t, RecordStatusEnum.error)], [],
      [CallUpdateFailedTask (TaskQueueORM.record_id t)
         (internal_failed_op (unexpected_return_msg task_id (TaskQueueORM.record_id t)))
         manager_name],
      [LockTask task_id; LockRecord (TaskQueueORM.record_id t)].
    rewrite !app_nil_r. split_and!; try done.
    + intros ? []%elem_of_nil.
    + intros ? []%elem_of_nil.
    + intros ? ? [= -> ->]%list_elem_of_singleton. split; [set_solver|].
      unfold rejection_reasons. set_solver.
    + apply should_reset_discipline_none. repeat constructor. by intros [].
    + repeat constructor; by intros [].
  - exists [task_id], [], [], [(TaskQueueORM.record_id t, RecordStatusEnum.complete)], [],
      [CallUpdateCompletedTask (TaskQueueORM.record_id t) result manager_name],
      [LockTask task_id; LockRecord (TaskQueueORM.record_id t)].
    rewrite !app_nil_r. split_and!; try done.
    + intros ? ->%list_elem_of_singleton. exists result, (TaskQueueORM.record_id t).
      split_and!; [set_solver|done|set_solver|set_solver].
    + intros ? []%elem_of_nil.
    + intros ? ? []%elem_of_nil.
    + apply should_reset_discipline_none. repeat constructor. by intros [].
    + repeat constructor; by intros [].
  - exists [], [], [(task_id, "Internal server error")],
      [(TaskQueueORM.record_id t, RecordStatusEnum.error)], [],
      [(first_call rs manager_name task_id (TaskQueueORM.record_id t) result).1;
       CallUpdateFailedTask (TaskQueueORM.record_id t) (internal_error_op rs e)
         manager_name],
      [LockTask task_id; LockRecord (TaskQueueORM.record_id t)].
    rewrite !app_nil_r.
    assert (Hkind : ¬ is_should_reset_call
                        (first_call rs manager_name task_id (TaskQueueORM.record_id t) result).1
                    ∧ ¬ is_reset_call
                        (first_call rs manager_name task_id (TaskQueueORM.record_id t) result).1
                    ∧ ¬ is_notify_call
                        (first_call rs manager_name task_id (TaskQueueORM.record_id t) result).1).
    { destruct (first_call_kind task_id (TaskQueueORM.record_id t) result) as [->|[f ->]];
        split_and!; by intros []. }
    destruct Hkind as (? & ? & ?).
    split_and!; try done.
    + intros ? []%elem_of_nil.
    + intros ? []%elem_of_nil.
    + intros ? ? [= -> ->]%list_elem_of_singleton. split; [set_solver|].
      unfold rejection_reasons. set_solver.
    + unfold recommended_resets.
      destruct (first_call_kind task_id (TaskQueueORM.record_id t) result) as [->|[f ->]];
        done.
    + apply should_reset_discipline_none. repeat constructor; [done|by intros []].
    + repeat constructor; try done; by intros [].
Qed.

(** What the loop adds when it ends without an exception. *)
Lemma for_each_process_result results fr fr' :
  for_each results (process_result rs manager_name) fr = (Ok tt, fr') →
  batch_delta rs manager_name results fr fr'.
Proof.
  revert fr. induction results as [|[task_id result] results IH]; intros fr; simpl.
  - intros H. injection H as <-. apply batch_delta_nil.
  - intros ([] & fr1 & H1 & H2)%bind_Ok_inv.
    change ((task_id, result) :: results) with ([(task_id, result)] ++ results).
    eapply batch_delta_app; [by apply batch_delta_step|by apply IH].
Qed.

End BatchDelta.
(** ** [update_finished]: the whole call *)

Section UpdateFinished.
Context (rs : RootSocket) (manager_name : string).

Lemma for_each_notify l s :
  for_each l notify_finished_watch s =
  (Ok tt, log_calls ((λ item, CallNotifyFinishedWatch item.1 item.2) <$> l) s).
Proof.
  revert s. induction l as [|x l IH]; intros s; simpl.
  - unfold log_calls. rewrite app_nil_r. by destruct s.
  - rewrite bind_run. unfold notify_finished_watch at 1, modify. rewrite IH.
    unfold log_calls, log_call. simpl. by rewrite <- (assoc_L (++)).
Qed.

(** [update_finished] with a manager that is there and active: the loop, and
    what follows it. *)
Lemma update_finished_active results s manager :
  compute_manager s !! manager_name = Some manager →
  ComputeManagerORM.status manager = ManagerStatusEnum.active →
  update_finished rs manager_name results s =
  match for_each results (process_result rs manager_name)
          (new_frame (add_row_locks [LockManager manager_name] s)) with
  | (Raise e, fr) => (Raise e, session fr)
  | (Ok _, fr) =>
      let meta :=
        mkTaskReturnMetadata (tasks_rejected fr) (tasks_success fr ++ tasks_failures fr) in
      if enabled (auto_reset (qcf_config rs)) && bool_decide (to_be_reset fr ≠ [])
      then
        match records_reset rs (to_be_reset fr) (store (with_stats manager_name fr)) with
        | (Ok _, st') =>
            (Ok meta,
             log_calls (notification_calls fr)
               (set_store st'
                  (log_call (CallReset (to_be_reset fr)) (with_stats manager_name fr))))
        | (Raise e, st') =>
            (Raise e,
             set_store st'
               (log_call (CallReset (to_be_reset fr)) (with_stats manager_name fr)))
        end
      else (Ok meta, log_calls (notification_calls fr) (with_stats manager_name fr))
  end.
Proof.
  intros Hm Hact. unfold update_finished, update_finished_body.
  rewrite bind_run. unfold in_session at 1, zoom, select_manager_for_update. simpl.
  rewrite Hm. rewrite decide_False by (by intros []).
  rewrite bind_run.
  change (set_session (add_row_locks [LockManager manager_name] s) (new_frame s))
    with (new_frame (add_row_locks [LockManager manager_name] s)).
  destruct (for_each results _ _) as [[[]|e] fr]; [|done].
  unfold gets, add_stats, in_session, zoom, modify, mbind, M_bind, mret, M_ret. simpl.
  fold (with_stats manager_name fr).
  destruct (enabled (auto_reset (qcf_config rs)) && bool_decide (to_be_reset fr ≠ [])).
  - unfold call_records, zoom, modify, mbind, M_bind. simpl.
    destruct (records_reset rs (to_be_reset fr) _) as [[[]|e] st']; simpl; [|done].
    rewrite for_each_notify. done.
  - rewrite for_each_notify. done.
Qed.

End UpdateFinished.

Lemma spec_update_failed_task_frame config :
  update_failed_task_frame (SpecRecords.root_socket config).
Proof.
  intros rid f mn st st' H. simpl in H. unfold SpecRecords.update_failed_task in H.
  destruct (base_record st !! rid) as [r|]; [|done]. injection H as <-. simpl. split.
  - intros rid' Hne. by rewrite lookup_insert_ne.
  - done.
Qed.


Section UpdateFinishedTheorems.
Context (rs : RootSocket) (manager_name : string).




(** C4.  With a manager that does not exist, or that is not active, both
    [claim_tasks] and [update_finished] raise [ComputeManagerError], and they
    do so before anything else: the tables of tasks, records and managers are
    as they were, no record socket was called and nothing was notified.  (The
    row of a manager that is there but not active has been locked.) *)
Theorem inactive_manager_refused limit results s :
  compute_manager s !! manager_name = None ∨
  (∃ manager,
     compute_manager s !! manager_name = Some manager ∧
     ComputeManagerORM.status manager ≠ ManagerStatusEnum.active) →
  (∃ msg s',
     claim_tasks rs manager_name limit s = (Raise (ComputeManagerError msg), s') ∧
     store s' = store s ∧ compute_manager s' = compute_manager s ∧
     calls s' = calls s ∧ savepoints s' = savepoints s) ∧
  (∃ msg s',
     update_finished rs manager_name results s = (Raise (ComputeManagerError msg), s') ∧
     store s' = store s ∧ compute_manager s' = compute_manager s ∧
     calls s' = calls s ∧ savepoints s' = savepoints s).
Proof.
  intros [Hm|(manager & Hm & Hact)].
  - split.
    + exists "Manager does not exist!", s.
      unfold claim_tasks. rewrite bind_run. unfold select_manager_for_update.
      by rewrite Hm.
    + exists ("Manager " +:+ manager_name +:+ " does not exist"), s.
      unfold update_finished, update_finished_body. rewrite bind_run.
      unfold in_session, zoom, select_manager_for_update. simpl. by rewrite Hm.
  - split.
    + exists "Manager is not active!", (add_row_locks [LockManager manager_name] s).
      unfold claim_tasks. rewrite bind_run. unfold select_manager_for_update.
      rewrite Hm. by rewrite decide_True.
    + exists ("Manager " +:+ manager_name +:+ " is not active"),
        (add_row_locks [LockManager manager_name] s).
      unfold update_finished, update_finished_body. rewrite bind_run.
      unfold in_session, zoom, select_manager_for_update. simpl. rewrite Hm.
      by rewrite decide_True.
Qed.



End UpdateFinishedTheorems.
Lemma filter_none {A} (P : A → Prop) `{∀ x, Decision (P x)} (l : list A) :
  Forall (λ x, ¬ P x) l → filter P l = [].
Proof.
  induction 1 as [|x l Hx _ IH]; [done|]. rewrite filter_cons.
  by rewrite decide_False.
Qed.

Lemma count_completions notifs :
  length (filter notifies_completion
            ((λ item : nat * RecordStatusEnum.t,
                CallNotifyFinishedWatch item.1 item.2) <$> notifs))
  = length (filter (λ n : nat * RecordStatusEnum.t, n.2 = RecordStatusEnum.complete) notifs).
Proof.
  induction notifs as [|[rid st] notifs IH]; [done|].
  rewrite fmap_cons, !filter_cons.
  destruct st; simpl; repeat case_decide; simpl; try done; by rewrite IH.
Qed.

Section UpdateFinishedBatch.
Context (rs : RootSocket) (manager_name : string).

Lemma update_finished_refused results s :
  compute_manager s !! manager_name = None ∨
  (∃ manager,
     compute_manager s !! manager_name = Some manager ∧
     ComputeManagerORM.status manager ≠ ManagerStatusEnum.active) →
  ¬ is_Ok (update_finished rs manager_name results s).1.
Proof.
  unfold update_finished, update_finished_body. rewrite bind_run.
  unfold in_session, zoom, select_manager_for_update. simpl.
  intros [Hm|(manager & Hm & Hact)]; rewrite Hm; [by intros []|].
  rewrite decide_True by done. by intros [].
Qed.

(** A call of [update_finished] that returns, as its loop and what follows. *)
Lemma update_finished_Ok_inv results s meta s' :
  update_finished rs manager_name results s = (Ok meta, s') →
  ∃ manager fr,
    compute_manager s !! manager_name = Some manager ∧
    ComputeManagerORM.status manager = ManagerStatusEnum.active ∧
    for_each results (process_result rs manager_name)
      (new_frame (add_row_locks [LockManager manager_name] s)) = (Ok tt, fr) ∧
    meta = mkTaskReturnMetadata (tasks_rejected fr) (tasks_success fr ++ tasks_failures fr) ∧
    ∃ s_reset,
      (if enabled (auto_reset (qcf_config rs)) && bool_decide (to_be_reset fr ≠ [])
       then ∃ st',
         records_reset rs (to_be_reset fr) (store (with_stats manager_name fr))
           = (Ok tt, st') ∧
         s_reset = set_store st'
                     (log_call (CallReset (to_be_reset fr)) (with_stats manager_name fr))
       else s_reset = with_stats manager_name fr) ∧
      s' = log_calls (notification_calls fr) s_reset.
Proof.
  intros H.
  destruct (compute_manager s !! manager_name) as [manager|] eqn:Hm.
  2:{ destruct (update_finished_refused results s); [by left|by rewrite H]. }
  destruct (decide (ComputeManagerORM.status manager = ManagerStatusEnum.active))
    as [Hact|Hact].
  2:{ destruct (update_finished_refused results s); [right; eauto|by rewrite H]. }
  rewrite (update_finished_active _ _ _ _ _ Hm Hact) in H.
  destruct (for_each results _ _) as [[[]|e] fr] eqn:Hloop; [|done].
  exists manager, fr. split_and!; [done..| |].
  - destruct (enabled _ && _); [|by injection H as <- <-].
    destruct (records_reset _ _ _) as [[[]|e] st']; [|done]. by injection H as <- <-.
  - destruct (enabled _ && _).
    + destruct (records_reset _ _ _) as [[[]|e] st'] eqn:Hreset; [|done].
      injection H as <- <-. eexists. split; [eauto|done].
    + injection H as <- <-. eexists. split; [eauto|done].
Qed.

(** C6.  When [update_finished] returns, [accepted_ids] is the list of the
    successes followed by the list of the failures, and the counters of the
    manager have grown by the lengths of these two lists and of the list of
    rejections; [claimed] is as it was.  Every task id of the batch is in one
    of the three lists, as often as it is in the batch.  A success is a result
    with [success = True] that the record socket has applied and for which a
    completion is notified, and there are as many successes as completions
    notified; a failure is a [FailedOperation] with [success = False] that the
    record socket has applied; a rejection pairs a task id of the batch with
    one of the five reasons. *)
Theorem update_finished_counts results s manager meta s' :
  compute_manager s !! manager_name = Some manager →
  update_finished rs manager_name results s = (Ok meta, s') →
  ∃ succ fail manager',
    accepted_ids meta = succ ++ fail ∧
    compute_manager s' !! manager_name = Some manager' ∧
    ComputeManagerORM.successes manager'
      = (ComputeManagerORM.successes manager + Z.of_nat (length succ))%Z ∧
    ComputeManagerORM.failures manager'
      = (ComputeManagerORM.failures manager + Z.of_nat (length fail))%Z ∧
    ComputeManagerORM.rejected manager'
      = (ComputeManagerORM.rejected manager + Z.of_nat (length (rejected_info meta)))%Z ∧
    ComputeManagerORM.claimed manager' = ComputeManagerORM.claimed manager ∧
    succ ++ fail ++ (rejected_info meta).*1 ≡ₚ results.*1 ∧
    (∀ task_id, task_id ∈ succ → ∃ result rid,
       (task_id, result) ∈ results ∧ success result = true ∧
       CallUpdateCompletedTask rid result manager_name ∈ calls s' ∧
       CallNotifyFinishedWatch rid RecordStatusEnum.complete ∈ calls s') ∧
    length succ =
      length (filter notifies_completion (drop (length (calls s)) (calls s'))) ∧
    (∀ task_id, task_id ∈ fail → ∃ f rid,
       (task_id, Failed f) ∈ results ∧ fo_success f = false ∧
       CallUpdateFailedTask rid f manager_name ∈ calls s' ∧
       CallNotifyFinishedWatch rid RecordStatusEnum.error ∈ calls s') ∧
    (∀ task_id reason, (task_id, reason) ∈ rejected_info meta →
       task_id ∈ results.*1 ∧ reason ∈ rejection_reasons).
Proof.
  intros Hm H.
  apply update_finished_Ok_inv in H
    as (manager0 & fr & Hm0 & Hact & Hloop & -> & s_reset & Hreset & ->).
  rewrite Hm in Hm0. injection Hm0 as <-.
  apply for_each_process_result in Hloop
    as (succ & fail & rej & notifs & resets & new_calls & new_locks &
        Hs & Hf & Hr & Hn & Ht & Hc & Hl & Hcm & Hp & Hk &
        Hperm & Hsucc & Hfail & Hrej & Hres & Hdis & Hall & Hcnt).
  simpl in Hs, Hf, Hr, Hn, Ht, Hc, Hcm.
  exists succ, fail,
    (ComputeManagerORM.add_stats (Z.of_nat (length succ)) (Z.of_nat (length fail))
       (Z.of_nat (length rej)) manager).
  assert (Hstore : compute_manager s_reset
                   = alter (ComputeManagerORM.add_stats (Z.of_nat (length succ))
                              (Z.of_nat (length fail)) (Z.of_nat (length rej)))
                       manager_name (compute_manager s) ∧
                   ∃ reset_calls, calls s_reset = (calls s ++ new_calls) ++ reset_calls ∧
                     Forall is_reset_call reset_calls).
  { destruct (enabled _ && _).
    - destruct Hreset as (st' & _ & ->). unfold with_stats. simpl.
      rewrite Hs, Hf, Hr, Hcm, Hc. split; [done|]. eexists. split; [done|].
      by repeat constructor.
    - subst s_reset. unfold with_stats. simpl. rewrite Hs, Hf, Hr, Hcm, Hc.
      split; [done|]. exists []. by rewrite app_nil_r. }
  destruct Hstore as (Hstore & reset_calls & Hcalls & Hresets).
  assert (Hnotes : notification_calls fr
                   = (λ item, CallNotifyFinishedWatch item.1 item.2) <$> notifs).
  { unfold notification_calls. by rewrite Hn. }
  simpl. rewrite Hs, Hf, Hr, Hstore, Hcalls, Hnotes. split_and!.
  - done.
  - by rewrite lookup_alter_eq, Hm.
  - done.
  - done.
  - done.
  - done.
  - done.
  - intros task_id Hin. destruct (Hsucc _ Hin) as (result & rid & ? & ? & ? & Hnote).
    exists result, rid. split_and!; [done..| |].
    + rewrite !elem_of_app. tauto.
    + apply elem_of_app. right. apply list_elem_of_fmap.
      by exists (rid, RecordStatusEnum.complete).
  - rewrite <- !(assoc_L (++)), drop_app_length.
    rewrite !filter_app, !length_app.
    rewrite (proj2 (length_zero_iff_nil (filter _ new_calls))),
            (proj2 (length_zero_iff_nil (filter _ reset_calls))).
    + simpl. rewrite <- Hcnt. symmetry. apply count_completions.
    + apply filter_none. eapply Forall_impl; [exact Hresets|].
      intros c Hc' Hn'. by destruct c.
    + apply filter_none. eapply Forall_impl; [exact Hall|].
      intros c [_ Hno] Hn'. apply Hno. by destruct c.
  - intros task_id Hin. destruct (Hfail _ Hin) as (f & rid & ? & ? & ? & Hnote).
    exists f, rid. split_and!; [done..| |].
    + rewrite !elem_of_app. tauto.
    + apply elem_of_app. right. apply list_elem_of_fmap.
      by exists (rid, RecordStatusEnum.error).
  - done.
Qed.

Lemma should_reset_discipline_disabled results cs :
  enabled (auto_reset (qcf_config rs)) = false →
  should_reset_discipline rs manager_name results cs →
  Forall (λ c, ¬ is_should_reset_call c) cs.
Proof.
  intros Hoff Hdis. apply Forall_forall. intros c Hin Hc.
  destruct c as [| |rid answer| | |]; try done.
  apply list_elem_of_split in Hin as (before & after & ->).
  destruct (Hdis before after rid answer eq_refl) as [Hen _]. congruence.
Qed.

(** C7.  In a call of [update_finished] that returns, [should_reset] is
    called only with automatic resets enabled, and each of its calls comes
    right after the call in which the record socket applied, to the same
    record, a [FailedOperation] with [success = False] of the batch.  No reset
    is made in the loop over the results.  The records queued for a reset are
    those for which [should_reset] answered yes; when the loop has ended, and
    if automatic resets are enabled and some record is queued, they are reset
    in one call, before the notifications.  With automatic resets disabled,
    [should_reset] is not called, no reset is made, and the tables are as the
    loop left them. *)
Theorem resets_after_the_batch results s meta s' :
  update_finished rs manager_name results s = (Ok meta, s') →
  ∃ fr loop_calls,
    for_each results (process_result rs manager_name)
      (new_frame (add_row_locks [LockManager manager_name] s)) = (Ok tt, fr) ∧
    calls (session fr) = calls s ++ loop_calls ∧
    should_reset_discipline rs manager_name results loop_calls ∧
    Forall (λ c, ¬ is_reset_call c) loop_calls ∧
    to_be_reset fr = recommended_resets loop_calls ∧
    calls s' =
      calls s ++ loop_calls
      ++ (if enabled (auto_reset (qcf_config rs)) && bool_decide (to_be_reset fr ≠ [])
          then [CallReset (to_be_reset fr)] else [])
      ++ notification_calls fr ∧
    Forall is_notify_call (notification_calls fr) ∧
    store s' =
      (if enabled (auto_reset (qcf_config rs)) && bool_decide (to_be_reset fr ≠ [])
       then (records_reset rs (to_be_reset fr) (store (session fr))).2
       else store (session fr)) ∧
    (enabled (auto_reset (qcf_config rs)) = false →
     Forall (λ c, ¬ is_should_reset_call c ∧ ¬ is_reset_call c)
       (drop (length (calls s)) (calls s')) ∧
     to_be_reset fr = [] ∧
     store s' = store (session fr)).
Proof.
  intros H.
  apply update_finished_Ok_inv in H
    as (manager & fr & Hm & Hact & Hloop & -> & s_reset & Hreset & ->).
  exists fr. pose proof Hloop as Hdelta.
  apply for_each_process_result in Hdelta
    as (succ & fail & rej & notifs & resets & new_calls & new_locks &
        Hs & Hf & Hr & Hn & Ht & Hc & Hl & Hcm & Hp & Hk &
        Hperm & Hsucc & Hfail & Hrej & Hres & Hdis & Hall & Hcnt).
  simpl in Ht, Hc. subst resets. exists new_calls.
  assert (Hnotes : Forall is_notify_call (notification_calls fr)).
  { unfold notification_calls. apply Forall_fmap, Forall_forall. by intros [] _. }
  assert (Hnoreset : Forall (λ c, ¬ is_reset_call c) new_calls).
  { eapply Forall_impl; [exact Hall|]. by intros c [? _]. }
  split_and!; try done.
  - destruct (enabled _ && _).
    + destruct Hreset as (st' & _ & ->). simpl. rewrite Hc.
      by rewrite <- !(assoc_L (++)).
    + subst s_reset. simpl. rewrite Hc. by rewrite <- !(assoc_L (++)).
  - destruct (enabled _ && _).
    + destruct Hreset as (st' & Hcall & ->). simpl. simpl in Hcall. by rewrite Hcall.
    + by subst s_reset.
  - intros Hoff. rewrite Hoff in *. simpl in Hreset. subst s_reset. simpl.
    pose proof (should_reset_discipline_disabled _ _ Hoff Hdis) as Hnone.
    split_and!; [|rewrite Hres; unfold recommended_resets|done].
    + rewrite Hc, <- (assoc_L (++)), drop_app_length. apply Forall_app. split.
      * apply Forall_forall. intros c Hin. split.
        -- by apply (proj1 (Forall_forall _ _) Hnone).
        -- by apply (proj1 (Forall_forall _ _) Hnoreset).
      * eapply Forall_impl; [exact Hnotes|]. intros c Hc'. destruct c; try done.
        split; by intros [].
    + clear -Hnone. induction Hnone as [|c cs Hc' _ IH]; [done|].
      destruct c as [| |? ?| | |]; simpl; done.
Qed.

End UpdateFinishedBatch.
(** ** The small server: results sent back *)

Lemma example_update_run :
  update_finished Example.root_socket "manager-1" Example.batch Example.running_session =
  (Ok Example.update_meta, Example.update_run.2).
Proof. vm_compute. reflexivity. Qed.

Lemma example_update_meta :
  Example.update_meta =
  mkTaskReturnMetadata
    [(2, "Internal server error"); (4, "Task is not in a running state");
     (7, "Task does not exist in the task queue")]
    [1; 3].
Proof. vm_compute. reflexivity. Qed.




Lemma inactive_manager_refused_witness :
  (∃ msg s',
     claim_tasks Example.root_socket "manager-2" None Example.waiting_session
       = (Raise (ComputeManagerError msg), s') ∧
     store s' = store Example.waiting_session ∧
     compute_manager s' = compute_manager Example.waiting_session ∧
     calls s' = calls Example.waiting_session ∧
     savepoints s' = savepoints Example.waiting_session) ∧
  (∃ msg s',
     update_finished Example.root_socket "manager-2" Example.batch Example.waiting_session
       = (Raise (ComputeManagerError msg), s') ∧
     store s' = store Example.waiting_session ∧
     compute_manager s' = compute_manager Example.waiting_session ∧
     calls s' = calls Example.waiting_session ∧
     savepoints s' = savepoints Example.waiting_session).
Proof.
  apply (inactive_manager_refused Example.root_socket "manager-2" None Example.batch
           Example.waiting_session).
  right. exists Example.sleeper. split; [vm_compute; reflexivity|discriminate].
Defined.

Lemma update_finished_counts_witness :
  ∃ succ fail manager',
    accepted_ids Example.update_meta = succ ++ fail ∧
    compute_manager Example.update_run.2 !! "manager-1" = Some manager' ∧
    ComputeManagerORM.successes manager'
      = (ComputeManagerORM.successes Example.manager + Z.of_nat (length succ))%Z ∧
    ComputeManagerORM.failures manager'
      = (ComputeManagerORM.failures Example.manager + Z.of_nat (length fail))%Z ∧
    ComputeManagerORM.rejected manager'
      = (ComputeManagerORM.rejected Example.manager
         + Z.of_nat (length (rejected_info Example.update_meta)))%Z ∧
    ComputeManagerORM.claimed manager' = ComputeManagerORM.claimed Example.manager ∧
    succ ++ fail ++ (rejected_info Example.update_meta).*1 ≡ₚ Example.batch.*1 ∧
    (∀ task_id, task_id ∈ succ → ∃ result rid,
       (task_id, result) ∈ Example.batch ∧ success result = true ∧
       CallUpdateCompletedTask rid result "manager-1" ∈ calls Example.update_run.2 ∧
       CallNotifyFinishedWatch rid RecordStatusEnum.complete ∈ calls Example.update_run.2) ∧
    length succ =
      length (filter notifies_completion
                (drop (length (calls Example.running_session))
                   (calls Example.update_run.2))) ∧
    (∀ task_id, task_id ∈ fail → ∃ f rid,
       (task_id, Failed f) ∈ Example.batch ∧ fo_success f = false ∧
       CallUpdateFailedTask rid f "manager-1" ∈ calls Example.update_run.2 ∧
       CallNotifyFinishedWatch rid RecordStatusEnum.error ∈ calls Example.update_run.2) ∧
    (∀ task_id reason, (task_id, reason) ∈ rejected_info Example.update_meta →
       task_id ∈ Example.batch.*1 ∧ reason ∈ rejection_reasons).
Proof.
  apply (update_finished_counts Example.root_socket "manager-1" Example.batch
           Example.running_session Example.manager Example.update_meta
           Example.update_run.2).
  - vm_compute. reflexivity.
  - apply example_update_run.
Defined.

Lemma resets_after_the_batch_witness :
  ∃ fr loop_calls,
    for_each Example.batch (process_result Example.root_socket "manager-1")
      Example.first_frame = (Ok tt, fr) ∧
    calls (session fr) = calls Example.running_session ++ loop_calls ∧
    should_reset_discipline Example.root_socket "manager-1" Example.batch loop_calls ∧
    Forall (λ c, ¬ is_reset_call c) loop_calls ∧
    to_be_reset fr = recommended_resets loop_calls ∧
    calls Example.update_run.2 =
      calls Example.running_session ++ loop_calls
      ++ (if enabled (auto_reset (qcf_config Example.root_socket))
             && bool_decide (to_be_reset fr ≠ [])
          then [CallReset (to_be_reset fr)] else [])
      ++ notification_calls fr ∧
    Forall is_notify_call (notification_calls fr) ∧
    store Example.update_run.2 =
      (if enabled (auto_reset (qcf_config Example.root_socket))
          && bool_decide (to_be_reset fr ≠ [])
       then (records_reset Example.root_socket (to_be_reset fr) (store (session fr))).2
       else store (session fr)) ∧
    (enabled (auto_reset (qcf_config Example.root_socket)) = false →
     Forall (λ c, ¬ is_should_reset_call c ∧ ¬ is_reset_call c)
       (drop (length (calls Example.running_session)) (calls Example.update_run.2)) ∧
     to_be_reset fr = [] ∧
     store Example.update_run.2 = store (session fr)).
Proof.
  apply (resets_after_the_batch Example.root_socket "manager-1" Example.batch
           Example.running_session Example.update_meta Example.update_run.2).
  apply example_update_run.
Defined.
(** ** Torsiondrive: the submission of the next tasks *)

Lemma imap_const_length {A B C} (f : nat → C) (l : list A) (l' : list B) :
  length l = length l' → imap (λ i _, f i) l = imap (λ i _, f i) l'.
Proof.
  revert f l'. induction l as [|x l IH]; intros f [|y l'] Hlen; simpl in *; try done.
  f_equal. apply (IH (f ∘ S)). lia.
Qed.

Section TorsiondriveSubmit.
Import Torsiondrive.
Context {P : Payloads} (rs : Collaborators P).

Lemma for_each_add_dependency td_api_key opt_key offset opt_ids (s : State P) :
  for_each (imap (λ i x, (offset + i, x)) opt_ids) (add_dependency td_api_key opt_key) s =
  (Ok tt,
   set_td_orm
     (set_optimizations
        (optimizations (td_orm s)
         ++ new_history (service_record_id (service_orm s)) opt_key opt_ids) (td_orm s))
     (set_service_orm
        (set_dependencies
           (dependencies (service_orm s) ++ new_dependencies offset td_api_key opt_ids)
           (service_orm s)) s)).
Proof.
  revert offset s. induction opt_ids as [|opt_id opt_ids IH]; intros offset s.
  - simpl. unfold new_history, new_dependencies. simpl. rewrite !app_nil_r.
    by destruct s as [[] [] ?].
  - simpl. rewrite bind_run. unfold add_dependency at 1, modify.
    rewrite (imap_ext _ (λ i x, (S offset + i, x))) by (intros; simpl; f_equal; lia).
    rewrite IH. unfold new_history, new_dependencies. simpl.
    rewrite <- !(assoc_L (++)). simpl.
    rewrite (imap_ext (λ i opt_id0, mkServiceDependencyORM opt_id0
                         (mkDependencyExtras td_api_key (S offset + i)))
               ((λ i opt_id0, mkServiceDependencyORM opt_id0
                         (mkDependencyExtras td_api_key (offset + i))) ∘ S))
      by (intros; simpl; do 2 f_equal; lia).
    by rewrite Nat.add_0_r.
Qed.

Lemma set_values_state {S} constraints grid_id (s : S) :
  (set_values constraints grid_id s).2 = s.
Proof.
  revert constraints. induction grid_id as [|[con_num k] grid_id IH]; intros constraints;
    simpl; [done|].
  destruct (constraints !! con_num); [apply IH|done].
Qed.

(** One key of the next tasks, submitted. *)
Lemma submit_for_key_Ok service_state opt_spec td_api_key geometries (s s' : State P) :
  submit_for_key rs service_state opt_spec (td_api_key, geometries) s = (Ok tt, s') →
  ∃ spec meta opt_ids db',
    optimization_add rs (mkMolecule (molecule_template service_state) <$> geometries) spec
      (compute_tag (service_orm s)) (compute_priority (service_orm s))
      (owner_user_id (td_orm s)) (owner_group_id (td_orm s)) (find_existing (service_orm s))
      (database s) = (Ok (meta, opt_ids), db') ∧
    success meta = true ∧
    s' = mkState
           (set_dependencies
              (dependencies (service_orm s) ++ new_dependencies 0 td_api_key opt_ids)
              (service_orm s))
           (set_optimizations
              (optimizations (td_orm s)
               ++ new_history (service_record_id (service_orm s))
                    (serialize_key rs (grid_id_from_string rs td_api_key)) opt_ids)
              (td_orm s))
           db'.
Proof.
  unfold submit_for_key. intros H.
  apply bind_Ok_inv in H as (constraints & s1 & Hc & H).
  pose proof (set_values_state (dihedral_template service_state)
                (enumerate (grid_id_from_string rs td_api_key)) s) as Hs1.
  rewrite Hc in Hs1. simpl in Hs1. subst s1.
  apply bind_Ok_inv in H as (svc & s1 & Hsvc & H). injection Hsvc as <- <-.
  apply bind_Ok_inv in H as (td & s1 & Htd & H). injection Htd as <- <-.
  apply bind_Ok_inv in H as ([meta opt_ids] & s1 & Hadd & H).
  unfold in_database, zoom in Hadd.
  destruct (optimization_add _ _ _ _ _ _ _ _ _) as [[[meta' ids']|e] db'] eqn:Hcall; [|done].
  injection Hadd as -> -> <-.
  destruct (success meta) eqn:Hsucc; simpl in H; [|done].
  unfold enumerate in H.
  rewrite (for_each_add_dependency td_api_key _ 0 opt_ids) in H.
  injection H as <-. eexists _, meta, opt_ids, db'. split_and!; [exact Hcall|done|].
  by destruct s as [[] [] ?].
Qed.

(** The loop over the next tasks. *)
Lemma for_each_submit_for_key service_state opt_spec next_tasks (s s' : State P) :
  for_each next_tasks (submit_for_key rs service_state opt_spec) s = (Ok tt, s') →
  ∃ groups,
    submitted rs service_state (service_orm s) (td_orm s) next_tasks groups ∧
    service_orm s' =
      set_dependencies
        (dependencies (service_orm s)
         ++ flat_map (λ group, new_dependencies 0 group.1 group.2) groups)
        (service_orm s) ∧
    td_orm s' =
      set_optimizations
        (optimizations (td_orm s)
         ++ flat_map
              (λ group,
                 new_history (service_record_id (service_orm s))
                   (serialize_key rs (grid_id_from_string rs group.1)) group.2)
              groups)
        (td_orm s).
Proof.
  revert s. induction next_tasks as [|[td_api_key geometries] next_tasks IH]; intros s; simpl.
  - intros H. injection H as <-. exists []. split_and!; [constructor|..];
      simpl; rewrite app_nil_r; [by destruct (service_orm s)|by destruct (td_orm s)].
  - intros ([] & s1 & Hkey & Hrest)%bind_Ok_inv.
    apply submit_for_key_Ok in Hkey as (spec & meta & opt_ids & db' & Hadd & Hsucc & ->).
    apply IH in Hrest as (groups & Hsub & Hsvc & Htd). simpl in Hsub, Hsvc, Htd.
    exists ((td_api_key, opt_ids) :: groups). split_and!.
    + constructor; [|exact Hsub]. simpl. split; [done|].
      by exists spec, (database s), meta, db'.
    + rewrite Hsvc. simpl. by rewrite <- (assoc_L (++)).
    + rewrite Htd. simpl. by rewrite <- (assoc_L (++)).
Qed.

Lemma _submit_optimizations_Ok service_state next_tasks (s s' : State P) :
  _submit_optimizations rs service_state next_tasks s = (Ok tt, s') →
  ∃ groups,
    submitted rs service_state (service_orm s) (td_orm s) next_tasks groups ∧
    service_orm s' =
      set_dependencies (flat_map (λ group, new_dependencies 0 group.1 group.2) groups)
        (service_orm s) ∧
    td_orm s' =
      set_optimizations
        (optimizations (td_orm s)
         ++ flat_map
              (λ group,
                 new_history (service_record_id (service_orm s))
                   (serialize_key rs (grid_id_from_string rs group.1)) group.2)
              groups)
        (td_orm s).
Proof.
  unfold _submit_optimizations. intros H.
  apply bind_Ok_inv in H as ([] & s1 & Hclear & H). injection Hclear as <-.
  apply bind_Ok_inv in H as (opt_spec & s1 & Hspec & H). injection Hspec as <- <-.
  apply for_each_submit_for_key in H as (groups & Hsub & Hsvc & Htd).
  exists groups. simpl in *. split_and!; done.
Qed.

Lemma submitted_lengths service_state svc td next_tasks groups :
  add_returns_an_id_for_each_molecule rs →
  submitted rs service_state svc td next_tasks groups →
  length (flat_map (λ group : string * list nat, new_dependencies 0 group.1 group.2) groups)
    = task_count next_tasks ∧
  extras <$> flat_map (λ group : string * list nat, new_dependencies 0 group.1 group.2) groups
    = expected_extras next_tasks.
Proof.
  intros Hlaw Hsub. unfold task_count, expected_extras.
  induction Hsub as [|[k ids] [k' geoms] groups next_tasks [Hk Hadd] _ [IH1 IH2]]; [done|].
  simpl in *. subst k'. destruct Hadd as (spec & db & meta & db' & Hadd & Hsucc).
  pose proof (Hlaw _ _ _ _ _ _ _ _ _ _ _ Hadd Hsucc) as Hlen. rewrite length_fmap in Hlen.
  rewrite length_app, fmap_app, IH1, IH2. split.
  - f_equal. unfold new_dependencies. by rewrite length_imap.
  - f_equal. unfold new_dependencies. rewrite fmap_imap.
    by apply (imap_const_length (λ i, mkDependencyExtras k i)).
Qed.

End TorsiondriveSubmit.
(** ** Torsiondrive: one iteration *)

Section TorsiondriveIterate.
Import Torsiondrive.
Context {P : Payloads} (rs : Collaborators P).

Lemma index_state {S A} (l : list A) i (s : S) : (index l i s).2 = s.
Proof. unfold index. by destruct (l !! i). Qed.

Lemma last_item_state {S A} (l : list A) (s : S) : (last_item l s).2 = s.
Proof. unfold last_item. by destruct (last l). Qed.

Lemma task_result_frame task (s : State P) r s' :
  task_result rs task s = (r, s') →
  service_orm s' = service_orm s ∧ td_orm s' = td_orm s.
Proof.
  unfold task_result. rewrite bind_run. unfold gets at 1.
  destruct (dependency_record rs (database s) (Torsiondrive.record_id task)) as [opt|].
  2:{ intros H. by injection H as <- <-. }
  rewrite bind_run. unfold in_database, zoom.
  destruct (molecules_get rs _ (database s)) as [[mol_data|e] db'].
  2:{ intros H. by injection H as <- <-. }
  rewrite bind_run.
  pose proof (index_state mol_data 0 (set_database db' s)) as H0.
  destruct (index mol_data 0 (set_database db' s)) as [[g0|e] s0]; simpl in H0; subst s0.
  2:{ intros H. by injection H as <- <-. }
  rewrite bind_run.
  pose proof (index_state mol_data 1 (set_database db' s)) as H1.
  destruct (index mol_data 1 (set_database db' s)) as [[g1|e] s1]; simpl in H1; subst s1.
  2:{ intros H. by injection H as <- <-. }
  rewrite bind_run.
  pose proof (last_item_state (energies opt) (set_database db' s)) as H2.
  destruct (last_item (energies opt) (set_database db' s)) as [[en|e] s2]; simpl in H2;
    subst s2; intros H; by injection H as <- <-.
Qed.

Lemma map_M_task_result_frame tasks (s : State P) r s' :
  map_M (task_result rs) tasks s = (r, s') →
  service_orm s' = service_orm s ∧ td_orm s' = td_orm s.
Proof.
  revert s r s'. induction tasks as [|task tasks IH]; intros s r s'; simpl.
  - intros H. by injection H as <- <-.
  - rewrite bind_run. destruct (task_result rs task s) as [[entry|e] s1] eqn:H1.
    + apply task_result_frame in H1 as [H1 H2]. rewrite bind_run.
      destruct (map_M (task_result rs) tasks s1) as [[entries|e] s2] eqn:H3;
        apply IH in H3 as [H3 H4]; intros H; injection H as <- <-; split; congruence.
    + apply task_result_frame in H1 as [H1 H2]. intros H. by injection H as <- <-.
Qed.

(** What the first part of [iterate_service] leaves: the service as it was,
    and the record with a compute history that is not empty and with the
    optimizations it had. *)
Lemma ask_torsiondrive_Ok (s : State P) service_state next_tasks text s1 :
  ask_torsiondrive rs s = (Ok (service_state, next_tasks, text), s1) →
  service_orm s1 = service_orm s ∧
  optimizations (td_orm s1) = optimizations (td_orm s) ∧
  owner_user_id (td_orm s1) = owner_user_id (td_orm s) ∧
  owner_group_id (td_orm s1) = owner_group_id (td_orm s) ∧
  compute_history (td_orm s1) ≠ [].
Proof.
  unfold ask_torsiondrive. intros H.
  apply bind_Ok_inv in H as ([] & s0 & Hprov & H).
  unfold set_provenance in Hprov.
  destruct (compute_history (td_orm s)) as [|h0 hist] eqn:Hhist; [done|].
  injection Hprov as <-.
  apply bind_Ok_inv in H as (st & s0 & Hst & H). injection Hst as <- <-.
  apply bind_Ok_inv in H as (deps & s0 & Hdeps & H). injection Hdeps as <- <-.
  apply bind_Ok_inv in H as (entries & s0 & Hentries & H).
  apply map_M_task_result_frame in Hentries as [Hsvc Htd].
  destruct (update_state rs _ _) as [[td_state|e] printed]; [|done].
  destruct (next_jobs_from_state rs td_state) as [[next|e] printed']; [|done].
  injection H as <- <- <- <-. rewrite Hsvc, Htd. simpl. split_and!; try done.
  by destruct hist.
Qed.

Lemma append_output_run text (s : State P) :
  compute_history (td_orm s) ≠ [] →
  append_output text s = (Ok tt, with_output text s).
Proof.
  intros H. unfold append_output, with_output.
  by destruct (compute_history (td_orm s)).
Qed.

(** [iterate_service] after the answer of the torsiondrive package. *)
Lemma iterate_service_run (s : State P) service_state next_tasks text s1 :
  ask_torsiondrive rs s = (Ok (service_state, next_tasks, text), s1) →
  iterate_service rs s =
  match (if decide (0 < length next_tasks)
         then _submit_optimizations rs service_state next_tasks
         else check_lowest_energies rs service_state) s1 with
  | (Ok _, s2) =>
      (Ok (bool_decide (length next_tasks = 0)), finished service_state text s2)
  | (Raise e, s2) => (Raise e, s2)
  end.
Proof.
  intros Hask. pose proof (ask_torsiondrive_Ok _ _ _ _ _ Hask) as (_ & _ & _ & _ & Hhist).
  unfold iterate_service. rewrite bind_run, Hask. rewrite bind_run.
  destruct (decide (0 < length next_tasks)) as [Hlen|Hlen].
  - destruct (_submit_optimizations rs service_state next_tasks s1) as [[[]|e] s2] eqn:Hsub;
      [|done].
    apply _submit_optimizations_Ok in Hsub as (groups & _ & _ & Htd).
    rewrite bind_run, append_output_run; [done|]. by rewrite Htd.
  - unfold check_lowest_energies. case_decide; [done|].
    rewrite bind_run, append_output_run; done.
Qed.


Lemma iterate_service_raise (s : State P) e s1 :
  ask_torsiondrive rs s = (Raise e, s1) → iterate_service rs s = (Raise e, s1).
Proof. intros H. unfold iterate_service. by rewrite bind_run, H. Qed.

(** C8.  Let the torsiondrive package have answered with next tasks, not
    none, and let [iterate_service] return.  Then it returns [False], and the
    dependencies of the service are exactly the ones made in this iteration:
    for each key of the next tasks, in their order, one dependency for each
    id that [optimization.add] returned for the molecules of the key, with
    the key and the position as [extras]; the record has one more
    optimization for each of them.  There are as many dependencies as next
    sub-tasks, and their [extras] are the ones the next tasks ask for.  The
    list that the service had before plays no role: the submission does the
    same whatever that list was. *)
Theorem dependencies_replaced (s : State P) service_state next_tasks text s1 done s' :
  add_returns_an_id_for_each_molecule rs →
  ask_torsiondrive rs s = (Ok (service_state, next_tasks, text), s1) →
  next_tasks ≠ [] →
  iterate_service rs s = (Ok done, s') →
  done = false ∧
  (∃ groups,
     submitted rs service_state (service_orm s) (td_orm s1) next_tasks groups ∧
     dependencies (service_orm s')
       = flat_map (λ group, new_dependencies 0 group.1 group.2) groups ∧
     optimizations (td_orm s')
       = optimizations (td_orm s)
         ++ flat_map
              (λ group,
                 new_history (service_record_id (service_orm s))
                   (serialize_key rs (grid_id_from_string rs group.1)) group.2)
              groups) ∧
  length (dependencies (service_orm s')) = task_count next_tasks ∧
  extras <$> dependencies (service_orm s') = expected_extras next_tasks ∧
  (∀ old,
     _submit_optimizations rs service_state next_tasks
       (set_service_orm (set_dependencies old (service_orm s1)) s1)
     = _submit_optimizations rs service_state next_tasks s1).
Proof.
  intros Hlaw Hask Hne H.
  pose proof (ask_torsiondrive_Ok _ _ _ _ _ Hask) as (Hsvc & Hopt & _ & _ & Hhist).
  assert (Hold : ∀ old,
            _submit_optimizations rs service_state next_tasks
              (set_service_orm (set_dependencies old (service_orm s1)) s1)
            = _submit_optimizations rs service_state next_tasks s1).
  { intros old. unfold _submit_optimizations. rewrite !bind_run. simpl.
    by destruct s1 as [[] ? ?]. }
  rewrite (iterate_service_run _ _ _ _ _ Hask) in H.
  rewrite decide_True in H by (destruct next_tasks; simpl; [done|lia]).
  destruct (_submit_optimizations rs service_state next_tasks s1)
    as [[[]|e] s2] eqn:Hsub; [|done].
  injection H as <- <-.
  apply _submit_optimizations_Ok in Hsub as (groups & Hgroups & Hsvc2 & Htd2).
  destruct (submitted_lengths rs _ _ _ _ _ Hlaw Hgroups) as [Hlen Hextras].
  assert (Hdeps : dependencies (service_orm (finished service_state text s2))
                  = flat_map (λ group, new_dependencies 0 group.1 group.2) groups).
  { simpl. by rewrite Hsvc2. }
  split_and!.
  - rewrite bool_decide_eq_false_2; [done|]. by destruct next_tasks.
  - exists groups. split_and!.
    + by rewrite <- Hsvc.
    + done.
    + simpl. rewrite Htd2. simpl. by rewrite Hopt, Hsvc.
  - by rewrite Hdeps.
  - by rewrite Hdeps.
  - done.
Qed.

End TorsiondriveIterate.
(** ** The small torsiondrive service *)

Lemma example_add_law :
  Torsiondrive.add_returns_an_id_for_each_molecule TorsiondriveExample.root_socket.
Proof.
  intros mols spec tag priority user group find db meta opt_ids db' Hadd Hsucc.
  simpl in Hadd. unfold TorsiondriveExample.optimization_add in Hadd.
  destruct (decide (tag = "closed")); injection Hadd as <- <- _; [done|].
  by rewrite length_seq.
Qed.

Lemma dependencies_replaced_witness :
  length
    (Torsiondrive.dependencies (Torsiondrive.service_orm TorsiondriveExample.middle)) = 2 ∧
  Torsiondrive.task_count (TorsiondriveExample.answer TorsiondriveExample.middle).1.2 = 3 ∧
  (Torsiondrive.iterate_service TorsiondriveExample.root_socket
     TorsiondriveExample.middle).1 = Ok false ∧
  length
    (Torsiondrive.dependencies
       (Torsiondrive.service_orm
          (Torsiondrive.iterate_service TorsiondriveExample.root_socket
             TorsiondriveExample.middle).2)) = 3 ∧
  Torsiondrive.extras
    <$> Torsiondrive.dependencies
          (Torsiondrive.service_orm
             (Torsiondrive.iterate_service TorsiondriveExample.root_socket
                TorsiondriveExample.middle).2)
    = Torsiondrive.expected_extras (TorsiondriveExample.answer TorsiondriveExample.middle).1.2.
Proof.
  assert (Hask :
    Torsiondrive.ask_torsiondrive TorsiondriveExample.root_socket TorsiondriveExample.middle
    = (Ok ((TorsiondriveExample.answer TorsiondriveExample.middle).1.1,
           (TorsiondriveExample.answer TorsiondriveExample.middle).1.2,
           (TorsiondriveExample.answer TorsiondriveExample.middle).2),
       TorsiondriveExample.asked TorsiondriveExample.middle))
    by (vm_compute; reflexivity).
  assert (Hsome : (TorsiondriveExample.answer TorsiondriveExample.middle).1.2 ≠ [])
    by (vm_compute; discriminate).
  assert (Hrun :
    Torsiondrive.iterate_service TorsiondriveExample.root_socket TorsiondriveExample.middle
    = (Ok false,
       (Torsiondrive.iterate_service TorsiondriveExample.root_socket
          TorsiondriveExample.middle).2))
    by (vm_compute; reflexivity).
  destruct (dependencies_replaced TorsiondriveExample.root_socket _ _ _ _ _ _ _
              example_add_law Hask Hsome Hrun) as (_ & _ & Hcount & Hextras & _).
  split_and!.
  - vm_compute; reflexivity.
  - vm_compute; reflexivity.
  - vm_compute; reflexivity.
  - rewrite Hcount. vm_compute; reflexivity.
  - exact Hextras.
Defined.
(** ** [claim_tasks]: what it leaves alone, and what it leaves behind *)

Lemma elem_of_concat_member {A} (ls : list (list A)) i l x :
  ls !! i = Some l → x ∈ l → x ∈ concat ls.
Proof.
  revert i. induction ls as [|l' ls IH]; intros [|i] Hi Hx; simplify_eq/=.
  - apply elem_of_app. by left.
  - apply elem_of_app. right. by eapply IH.
Qed.

Section ClaimTasksFrame.
Context (rs : RootSocket) (manager_name : string).
Hypothesis gen_frame : generate_task_specification_frame rs.

(** The session after a claim, in terms of the one before. *)
Lemma claim_tasks_inv limit s found s' :
  claim_tasks rs manager_name limit s = (Ok found, s') →
  ∃ manager groups s1,
    compute_manager s !! manager_name = Some manager ∧
    ComputeManagerORM.status manager = ManagerStatusEnum.active ∧
    found = concat groups ∧
    length groups ≤ length (ComputeManagerORM.tags manager) ∧
    claim_inv manager_name s (record_ids found) s1 ∧
    s' = set_compute_manager
           (alter (ComputeManagerORM.add_claimed (Z.of_nat (length found))) manager_name
              (compute_manager s1)) s1 ∧
    ∀ i tag group,
      ComputeManagerORM.tags manager !! i = Some tag → groups !! i = Some group →
      claimed_group (dom (ComputeManagerORM.programs manager)) s
        (record_ids (concat (take i groups))) tag
        (calculate_limit (_tasks_claim_limit rs) limit
         - Z.of_nat (length (concat (take i groups))))
        group.
Proof.
  intros (manager & s1 & Hm & Hact & Htags & ->)%claim_tasks_Ok_inv.
  destruct (claim_tags_groups rs manager_name gen_frame _ _
              (add_row_locks [LockManager manager_name] s) _ _ [] _ _ _
              (claim_inv_start manager_name _) Htags)
    as (groups & Hfound & Hlen & Hinv & Hgroups).
  simpl in Hfound. subst found.
  exists manager, groups, s1. split_and!; try done.
  intros i tag group Htag Hgroup.
  specialize (Hgroups i tag group Htag Hgroup). simpl in Hgroups.
    destruct Hgroups as (G1 & G2 & G3 & G4 & G5 & G6).
    replace (calculate_limit (_tasks_claim_limit rs) limit - Z.of_nat 0
             - Z.of_nat (length (concat (take i groups))))%Z
      with (calculate_limit (_tasks_claim_limit rs) limit
            - Z.of_nat (length (concat (take i groups))))%Z in * by lia.
    done.
Qed.

(** A returned task is a row of the queue whose record waited and now runs. *)
Lemma claim_tasks_found limit s found s' d :
  claim_tasks rs manager_name limit s = (Ok found, s') →
  d ∈ found →
  ∃ t0,
    task_queue (store s) !! d.1 = Some t0 ∧ same_columns d.2 t0 ∧
    record_status (store s) (TaskQueueORM.record_id t0) = Some RecordStatusEnum.waiting ∧
    record_status (store s') (TaskQueueORM.record_id t0) = Some RecordStatusEnum.running.
Proof.
  intros Hclaim Hd.
  destruct (claim_tasks_inv _ _ _ _ Hclaim)
    as (manager & groups & s1 & Hm & Hact & Hfound & Hlen & Hinv & -> & Hgroups).
  assert (Hd' := Hd). rewrite Hfound in Hd'.
  apply elem_of_concat_lookup in Hd' as (i & group & Hi & Hdg).
  destruct (lookup_lt_is_Some_2 (ComputeManagerORM.tags manager) i) as [tag Htag].
  { apply lookup_lt_Some in Hi. lia. }
  destruct (Hgroups i tag group Htag Hi) as (_ & _ & _ & _ & Hall & _).
  rewrite Forall_forall in Hall.
  destruct (Hall d Hdg) as (t0 & Ht0 & Hcols & Hclaimable & _).
  exists t0. split_and!; [done|done|apply Hclaimable|].
  destruct Hinv as (_ & Hrec & _ & _). unfold record_status. simpl.
  rewrite Hrec. rewrite decide_True.
  - destruct Hclaimable as [Hw _]. unfold record_status in Hw. simpl in Hw.
    by destruct (base_record (store s) !! TaskQueueORM.record_id t0) as [r0|].
  - destruct Hcols as [<- _]. unfold record_ids. apply list_elem_of_fmap. by exists d.
Qed.

(** X1.  A call of [claim_tasks] that returns changes, of the manager that
    claims, the counter [claimed] only, which grows by the number of tasks
    returned; every other manager, every record but those of the returned
    tasks, and every column of every task but [function] are as they were;
    no task is added to the queue or taken from it. *)
Theorem claim_tasks_frame limit s found s' :
  claim_tasks rs manager_name limit s = (Ok found, s') →
  (∃ manager,
     compute_manager s !! manager_name = Some manager ∧
     compute_manager s' !! manager_name
       = Some (ComputeManagerORM.mk (ComputeManagerORM.name manager)
                 (ComputeManagerORM.status manager) (ComputeManagerORM.programs manager)
                 (ComputeManagerORM.tags manager) (ComputeManagerORM.successes manager)
                 (ComputeManagerORM.failures manager) (ComputeManagerORM.rejected manager)
                 (ComputeManagerORM.claimed manager + Z.of_nat (length found)))) ∧
  (∀ name, name ≠ manager_name → compute_manager s' !! name = compute_manager s !! name) ∧
  (∀ rid, rid ∉ record_ids found →
     base_record (store s') !! rid = base_record (store s) !! rid) ∧
  (∀ task_id,
     option_Forall2 same_columns
       (task_queue (store s') !! task_id) (task_queue (store s) !! task_id)).
Proof.
  intros Hclaim.
  destruct (claim_tasks_inv _ _ _ _ Hclaim)
    as (manager & groups & s1 & Hm & Hact & Hfound & Hlen & Hinv & -> & Hgroups).
  destruct Hinv as (Hrows & Hrec & _ & Hman). simpl. split_and!.
  - exists manager. split; [done|]. rewrite lookup_alter, Hman, Hm.
    by rewrite decide_True.
  - intros name Hne. by rewrite lookup_alter_ne, Hman.
  - intros rid Hrid. rewrite Hrec. by rewrite decide_False.
  - done.
Qed.

(** X2.  [claim_tasks] returns no task twice, even when a task matches
    several tags of the manager: the task ids of the returned tasks are
    pairwise different. *)
Theorem claim_tasks_no_task_twice limit s found s' :
  claim_tasks rs manager_name limit s = (Ok found, s') →
  NoDup found.*1.
Proof.
  intros Hclaim.
  destruct (claim_tasks_inv _ _ _ _ Hclaim)
    as (manager & groups & s1 & Hm & Hact & Hfound & Hlen & _ & _ & Hgroups).
  assert (Hrows : ∀ i group d, groups !! i = Some group → d ∈ group →
            NoDup group.*1 ∧
            ∃ t0, task_queue (store s) !! d.1 = Some t0 ∧ same_columns d.2 t0 ∧
                  TaskQueueORM.record_id t0 ∉ record_ids (concat (take i groups))).
  { intros i group d Hi Hd.
    destruct (lookup_lt_is_Some_2 (ComputeManagerORM.tags manager) i) as [tag Htag].
    { apply lookup_lt_Some in Hi. lia. }
    destruct (Hgroups i tag group Htag Hi) as (_ & _ & _ & Hnd & Hall & _).
    rewrite Forall_forall in Hall.
    destruct (Hall d Hd) as (t0 & Ht0 & Hcols & _ & Hfresh). split; [done|]. by exists t0. }
  subst found. clear Hgroups Hlen Hclaim.
  induction groups as [|group groups IH] using rev_ind; [constructor|].
  rewrite concat_app, fmap_app. simpl. rewrite app_nil_r.
  apply NoDup_app. split_and!.
  - apply IH. intros i g d Hi Hd.
    destruct (Hrows i g d) as [Hnd (t0 & Ht0 & Hcols & Hfresh)];
      [by apply lookup_app_l_Some|done|].
    split; [done|]. exists t0. split_and!; [done|done|].
    rewrite take_app_le in Hfresh; [done|]. apply lookup_lt_Some in Hi. lia.
  - intros task_id Hin Hin'.
    apply list_elem_of_fmap in Hin as (d' & -> & Hd').
    apply list_elem_of_fmap in Hin' as (d & Heq & Hd).
    destruct (Hrows (length groups) group d) as [_ (t0 & Ht0 & Hcols & Hfresh)];
      [by rewrite lookup_app_r, Nat.sub_diag by lia|done|].
    apply Hfresh. rewrite take_app_le, firstn_all by lia.
    apply elem_of_concat_lookup in Hd' as (j & g' & Hj & Hd'g).
    destruct (Hrows j g' d') as [_ (t0' & Ht0' & Hcols' & _)];
      [by apply lookup_app_l_Some|done|].
    rewrite Heq, Ht0 in Ht0'. injection Ht0' as <-.
    destruct Hcols' as [<- _]. unfold record_ids. apply list_elem_of_fmap.
    exists d'. split; [done|]. by eapply elem_of_concat_member.
  - destruct group as [|d group]; [constructor|].
    destruct (Hrows (length groups) (d :: group) d) as [Hnd _];
      [by rewrite lookup_app_r, Nat.sub_diag by lia|left|done].
Qed.

(** When the loop over the tags ends below the limit, every task that was
    claimable for one of the tags has its record claimed. *)
Lemma claim_tags_exhaustive ps limit s0 tags found claimed s found' s' :
  claim_inv manager_name s0 claimed s →
  claim_tags rs manager_name ps limit tags found s = (Ok found', s') →
  (Z.of_nat (length found') < limit)%Z →
  ∃ claimed',
    claim_inv manager_name s0 claimed' s' ∧ claimed ⊆ claimed' ∧
    ∀ tag task_id t0,
      tag ∈ tags → task_queue (store s0) !! task_id = Some t0 →
      claimable (store s0) ps tag (task_id, t0) →
      TaskQueueORM.record_id t0 ∈ claimed'.
Proof.
  revert found claimed s.
  induction tags as [|tag tags IH]; intros found claimed s Hinv Hrun Hbelow.
  - injection Hrun as <- <-. exists claimed. split_and!; [done|done|].
    intros tag task_id t0 Htag. by apply elem_of_nil in Htag.
  - simpl in Hrun. destruct (decide (limit - Z.of_nat (length found) ≤ 0)%Z) as [Hstop|Hgo].
    { injection Hrun as <- <-. lia. }
    apply bind_Ok_inv in Hrun as (dicts & s1 & Hpass & Hrest).
    assert (Hpos : (0 < limit - Z.of_nat (length found))%Z) by lia.
    destruct (claim_pass rs manager_name gen_frame _ _ _ _ _ _ _ _ Hinv Hpos Hpass)
      as [Hgroup Hinv1].
    destruct (claim_tags_groups rs manager_name gen_frame _ _ _ _ _ _ _ _ _ Hinv1 Hrest)
      as (groups & Hfound' & _).
    destruct (IH _ _ _ Hinv1 Hrest Hbelow) as (claimed' & Hinv' & Hsub & Hall).
    exists claimed'. split_and!; [done|set_solver|].
    intros tag' task_id t0 [->|Htag]%elem_of_cons Ht0 Hclaimable; [|by eapply Hall].
    destruct (decide (TaskQueueORM.record_id t0 ∈ claimed)) as [Hin|Hfresh];
      [set_solver|].
    destruct Hgroup as (_ & _ & _ & _ & Hrows & Hcomplete).
    destruct (Hcomplete task_id t0 Ht0 Hclaimable Hfresh) as [Hin|[Hfull _]].
    + apply list_elem_of_fmap in Hin as (d & -> & Hd).
      rewrite Forall_forall in Hrows.
      destruct (Hrows d Hd) as (t0' & Ht0' & Hcols & _).
      rewrite Ht0 in Ht0'. injection Ht0' as <-.
      apply Hsub, elem_of_app. right. destruct Hcols as [<- _].
      unfold record_ids. apply list_elem_of_fmap. by exists d.
    + subst found'. rewrite !length_app in Hbelow. lia.
Qed.

(** X3.  [claim_tasks] takes what it can: when it returns fewer tasks than
    the limit it works with, no task is left that the manager could claim,
    that is, after the call no task of the queue has a waiting record, needs
    only programs of the manager, and has one of the manager's tags (or the
    manager has the tag ["*"]). *)
Theorem claim_tasks_leaves_nothing_claimable limit s manager found s' :
  compute_manager s !! manager_name = Some manager →
  claim_tasks rs manager_name limit s = (Ok found, s') →
  (Z.of_nat (length found) < calculate_limit (_tasks_claim_limit rs) limit)%Z →
  ∀ tag task_id t,
    tag ∈ ComputeManagerORM.tags manager →
    task_queue (store s') !! task_id = Some t →
    ¬ claimable (store s') (dom (ComputeManagerORM.programs manager)) tag (task_id, t).
Proof.
  intros Hm (manager' & s1 & Hm' & Hact & Htags & ->)%claim_tasks_Ok_inv Hbelow.
  rewrite Hm in Hm'. injection Hm' as <-.
  destruct (claim_tags_exhaustive _ _ _ _ _ _ _ _ _
              (claim_inv_start manager_name _) Htags Hbelow)
    as (claimed' & Hinv & _ & Hall).
  intros tag task_id t Htag Ht (Hwait & Hprogs & Htagged). simpl in *.
  destruct Hinv as (Hrows & Hrec & Hclock & Hman).
  specialize (Hrows task_id). rewrite Ht in Hrows. simpl in Hrows.
  inversion Hrows as [? t0 Hcols Heq1 Ht0|]; subst. symmetry in Ht0.
  destruct Hcols as (Hrid & Htg & Hreq & _).
  unfold record_status in Hwait. rewrite Hrec in Hwait.
  assert (Hclaimable : claimable (store s) (dom (ComputeManagerORM.programs manager))
                         tag (task_id, t0)).
  { split_and!; simpl.
    - unfold record_status. rewrite <- Hrid.
      simpl in Hwait. destruct (decide (TaskQueueORM.record_id t ∈ claimed')); [|done].
      by destruct (base_record (store s) !! TaskQueueORM.record_id t).
    - by rewrite <- Hreq.
    - by rewrite <- Htg. }
  specialize (Hall tag task_id t0 Htag Ht0 Hclaimable). rewrite <- Hrid in Hall.
  simpl in Hwait. rewrite decide_True in Hwait by done.
  by destruct (base_record (store s) !! TaskQueueORM.record_id t).
Qed.

(** X4.  A task that one call of [claim_tasks] has returned is not returned
    by a call that follows it, for the same manager or for another one:
    the two calls return different tasks, of different records. *)
Theorem claim_tasks_exclusive limit s found s' manager_name2 limit2 found2 s2 d d2 :
  claim_tasks rs manager_name limit s = (Ok found, s') →
  claim_tasks rs manager_name2 limit2 s' = (Ok found2, s2) →
  d ∈ found → d2 ∈ found2 →
  d.1 ≠ d2.1 ∧ TaskQueueORM.record_id d.2 ≠ TaskQueueORM.record_id d2.2.
Proof.
  intros Hclaim Hclaim2 Hd Hd2.
  destruct (claim_tasks_found _ _ _ _ _ Hclaim Hd) as (t0 & Ht0 & Hcols & _ & Hrun).
  destruct (claim_tasks_inv _ _ _ _ Hclaim)
    as (_ & _ & s1 & _ & _ & _ & _ & (Hrows & _) & -> & _).
  assert (Hfound2 : ∃ t1, task_queue (store s1) !! d2.1 = Some t1 ∧ same_columns d2.2 t1 ∧
            record_status (store s1) (TaskQueueORM.record_id t1)
              = Some RecordStatusEnum.waiting).
  { clear Hd Ht0 Hcols Hrun Hrows Hclaim.
    apply claim_tasks_Ok_inv in Hclaim2 as (m2 & s3 & _ & _ & Htags & _).
    destruct (claim_tags_groups rs manager_name2 gen_frame _ _ _ _ _ _ _ _ _
                (claim_inv_start manager_name2 _) Htags)
      as (groups & Hf & Hlen & _ & Hgroups).
    simpl in Hf. subst found2.
    apply elem_of_concat_lookup in Hd2 as (i & group & Hi & Hdg).
    destruct (lookup_lt_is_Some_2 (ComputeManagerORM.tags m2) i) as [tag Htag].
    { apply lookup_lt_Some in Hi. lia. }
    destruct (Hgroups i tag group Htag Hi) as (_ & _ & _ & _ & Hall & _).
    rewrite Forall_forall in Hall.
    destruct (Hall d2 Hdg) as (t1 & Ht1 & Hcols1 & Hclaimable & _).
    exists t1. split_and!; [done|done|apply Hclaimable]. }
  destruct Hfound2 as (t1 & Ht1 & Hcols1 & Hwait). simpl in Hrun.
  assert (Hrec : TaskQueueORM.record_id d.2 ≠ TaskQueueORM.record_id d2.2).
  { destruct Hcols as [-> _], Hcols1 as [-> _]. intros Heq. rewrite Heq in Hrun. congruence. }
  split; [|done]. intros Heq. apply Hrec.
  specialize (Hrows d.1). rewrite Ht0, Heq, Ht1 in Hrows.
  inversion Hrows as [? ? Hcols01|]; subst.
  destruct Hcols as [-> _], Hcols1 as [-> _], Hcols01 as [-> _]. done.
Qed.

End ClaimTasksFrame.

(** ** [update_finished]: results for claimed tasks, savepoints, the empty batch *)

Lemma spec_update_completed_task_frame config :
  update_completed_task_frame (SpecRecords.root_socket config).
Proof.
  intros record_id result manager_name st st' Hrun. simpl in Hrun.
  unfold SpecRecords.update_completed_task in Hrun.
  destruct (base_record st !! record_id) as [r|] eqn:Hr; [|done].
  assert (st' = set_base_record
            (<[record_id :=
                 BaseRecordORM.set_compute_history
                   (BaseRecordORM.compute_history r
                      ++ [(RecordStatusEnum.complete, Some manager_name)])
                   (BaseRecordORM.set_status RecordStatusEnum.complete r)]> (base_record st))
            st) as ->.
  { destruct result as [?|? []]; by simplify_eq. }
  split; [|done]. intros rid Hne. simpl. by rewrite lookup_insert_ne.
Qed.

Section ClaimedResults.
Context (rs : RootSocket) (manager_name : string).
Hypothesis failed_frame : update_failed_task_frame rs.
Hypothesis completed_frame : update_completed_task_frame rs.

(** The tasks that still run for the manager do so after the record socket
    has worked on the record of another task. *)
Lemma run_for_step st1 st st' task_id t rest :
  one_task_per_record st1 →
  run_for manager_name st1 st (task_id :: rest) →
  task_id ∉ rest →
  task_queue st !! task_id = Some t →
  (∀ rid, rid ≠ TaskQueueORM.record_id t → base_record st' !! rid = base_record st !! rid) →
  (∀ task_id' t', task_queue st !! task_id' = Some t' →
     TaskQueueORM.record_id t' ≠ TaskQueueORM.record_id t →
     task_queue st' !! task_id' = Some t') →
  run_for manager_name st1 st' rest.
Proof.
  intros Hone Hrun Hfresh Ht Hrec Hrows task_id' Hin.
  destruct (Hrun task_id') as (t' & r' & Ht1' & Ht' & Hr' & Hstat & Hman); [by right|].
  destruct (Hrun task_id) as (t0 & _ & Ht1 & Ht0 & _); [by left|].
  rewrite Ht in Ht0. injection Ht0 as <-.
  assert (TaskQueueORM.record_id t' ≠ TaskQueueORM.record_id t) as Hne.
  { intros Heq. apply Hfresh. by rewrite <- (Hone _ _ _ _ Ht1' Ht1 Heq). }
  exists t', r'. split_and!; [done|by apply Hrows|by rewrite Hrec|done|done].
Qed.

Lemma for_each_claimed_results st1 results fr fr' :
  one_task_per_record st1 →
  NoDup results.*1 →
  run_for manager_name st1 (store (session fr)) results.*1 →
  for_each results (process_result rs manager_name) fr = (Ok tt, fr') →
  ∀ task_id reason, (task_id, reason) ∈ tasks_rejected fr' →
    (task_id, reason) ∈ tasks_rejected fr ∨ reason ∈ internal_reasons.
Proof.
  intros Hone. revert fr.
  induction results as [|[task_id result] rest IH]; intros fr Hnd Hrun Hloop.
  { injection Hloop as <-. by left. }
  simpl in Hloop. apply bind_Ok_inv in Hloop as ([] & fr1 & Hbody & Hrest).
  apply NoDup_cons in Hnd as [Hfresh Hnd]. simpl in Hrun.
  destruct (Hrun task_id) as (t0 & r0 & Ht1 & Ht0 & Hr0 & Hstat & Hman); [by left|].
  assert (Hlookup : lookup_task (session fr) task_id = Some (t0, r0)).
  { unfold lookup_task. rewrite Ht0. simpl. by rewrite Hr0. }
  apply process_result_cases in Hbody.
  assert (Hnext :
    run_for manager_name st1 (store (session fr1)) rest.*1 ∧
    ∃ new, tasks_rejected fr1 = tasks_rejected fr ++ new ∧
           Forall (λ x, x.2 ∈ internal_reasons) new).
  { inversion Hbody as
      [Hnone|t r Hl Hs|t r Hl Hs Hm|t r f st' Hl Hs Hm Hres Hfail Hcall
      |t r data st' Hl Hs Hm Hres Hcall|t r st' Hl Hs Hm Hsucc Hcall
      |t r e st_raised st' Hl Hs Hm Hfirst Hcall|]; subst; simpl;
      try (rewrite Hlookup in Hl; injection Hl as <- <-);
      try congruence.
    - destruct (failed_frame _ _ _ _ _ Hcall) as [Hrec Hrows]. split.
      + by eapply run_for_step.
      + exists []. by rewrite app_nil_r.
    - destruct (failed_frame _ _ _ _ _ Hcall) as [Hrec Hrows]. split.
      + by eapply run_for_step.
      + eexists. split; [done|]. repeat constructor.
    - destruct (completed_frame _ _ _ _ _ Hcall) as [Hrec Hrows]. split.
      + by eapply run_for_step.
      + exists []. by rewrite app_nil_r.
    - destruct (failed_frame _ _ _ _ _ Hcall) as [Hrec Hrows]. split.
      + by eapply run_for_step.
      + eexists. split; [done|]. repeat constructor. }
  destruct Hnext as [Hrun1 (new & Hrej & Hnew)].
  intros task_id' reason Hin.
  destruct (IH fr1 Hnd Hrun1 Hrest task_id' reason Hin) as [Hold|Hint]; [|by right].
  rewrite Hrej in Hold. apply elem_of_app in Hold as [Hold|Hold]; [by left|right].
  rewrite Forall_forall in Hnew. apply (Hnew _ Hold).
Qed.

End ClaimedResults.

Section ClaimThenReturn.
Context (rs : RootSocket) (manager_name : string).

(** X5.  What a manager has claimed it may send back: when [claim_tasks] has
    returned tasks to a manager and the manager sends results for some of
    them, [update_finished] rejects none of these results as stale; a result
    that it rejects was given to the record socket and is rejected as an
    internal error.  This holds when the queue has one task for a record, and
    the record socket, working on a record, leaves the other records and
    their tasks alone. *)
Theorem claimed_results_are_not_stale limit s found s1 results meta s2 :
  generate_task_specification_frame rs →
  update_failed_task_frame rs →
  update_completed_task_frame rs →
  one_task_per_record (store s) →
  claim_tasks rs manager_name limit s = (Ok found, s1) →
  NoDup results.*1 →
  results.*1 ⊆ found.*1 →
  update_finished rs manager_name results s1 = (Ok meta, s2) →
  ∀ task_id reason, (task_id, reason) ∈ rejected_info meta →
    task_id ∈ results.*1 ∧ reason ∈ internal_reasons.
Proof.
  intros Hgen Hfailed Hcompleted Hone Hclaim Hnd Hsub Hupdate task_id reason Hin.
  destruct (claim_tasks_inv rs manager_name Hgen _ _ _ _ Hclaim)
    as (manager & groups & s0 & Hm & Hact & Hfound & Hlen & Hinv & -> & Hgroups).
  apply update_finished_Ok_inv in Hupdate as (manager' & fr & _ & _ & Hloop & -> & _).
  simpl in Hin. destruct Hinv as (Hrows & Hrec & _ & _).
  assert (Hone0 : one_task_per_record (store s0)).
  { intros id1 id2 t1 t2 H1 H2 Heq.
    pose proof (Hrows id1) as R1. pose proof (Hrows id2) as R2.
    rewrite H1 in R1. rewrite H2 in R2.
    inversion R1 as [v1 u1 E1 Hv1 Hu1|]; inversion R2 as [v2 u2 E2 Hv2 Hu2|]; subst.
    destruct E1 as [E1 _], E2 as [E2 _].
    eapply Hone; [done|done|congruence]. }
  assert (Hrun : run_for manager_name (store s0) (store s0) results.*1).
  { intros tid Htid. apply Hsub in Htid.
    apply list_elem_of_fmap in Htid as (d & -> & Hd).
    destruct (claim_tasks_found rs manager_name Hgen _ _ _ _ _ Hclaim Hd)
      as (t0 & Ht0 & Hcols & Hwait & _).
    pose proof (Hrows d.1) as R. rewrite Ht0 in R.
    inversion R as [t u Hsame Ht Hu|]; subst. symmetry in Ht. destruct Hsame as [Hrid _].
    assert (Hclaimed : TaskQueueORM.record_id t ∈ record_ids (concat groups)).
    { rewrite Hrid. destruct Hcols as [<- _]. unfold record_ids.
      apply list_elem_of_fmap. by exists d. }
    unfold record_status in Hwait. rewrite <- Hrid in Hwait.
    destruct (base_record (store s) !! TaskQueueORM.record_id t) as [r0|] eqn:Hr0; [|done].
    exists t, (claim_record manager_name (clock s) r0).
    split_and!; [done|done| |done|done].
    by rewrite Hrec, decide_True, Hr0. }
  pose proof (λ H, for_each_claimed_results rs manager_name Hfailed Hcompleted (store s0)
                     results _ fr Hone0 Hnd H Hloop task_id reason Hin) as Hres.
  destruct (Hres Hrun) as [Hold|Hint].
  - by apply elem_of_nil in Hold.
  - split; [|done].
    destruct (for_each_process_result rs manager_name _ _ _ Hloop)
      as (succ & fail & rej & ? & ? & ? & ? & _ & _ & Hrej & _ & _ & _ & _ & _ & _ & _ & _
          & _ & _ & Hrejected & _).
    simpl in Hrej. subst rej. by destruct (Hrejected _ _ Hin).
Qed.

End ClaimThenReturn.

Section UpdateFinishedSession.
Context (rs : RootSocket) (manager_name : string).

Lemma process_result_session item fr r fr' :
  process_result rs manager_name item fr = (r, fr') →
  savepoints (session fr') = savepoints (session fr) ∧
  ∃ locks, row_locks (session fr') = row_locks (session fr) ++ locks.
Proof.
  destruct item as [task_id result]. intros Hcase%process_result_cases.
  inversion Hcase; subst; simpl; (split; [done|]);
    try (by eexists); exists []; by rewrite app_nil_r.
Qed.

Lemma for_each_process_result_session results fr r fr' :
  for_each results (process_result rs manager_name) fr = (r, fr') →
  savepoints (session fr') = savepoints (session fr) ∧
  ∃ locks, row_locks (session fr') = row_locks (session fr) ++ locks.
Proof.
  revert fr. induction results as [|item rest IH]; intros fr Hloop.
  { injection Hloop as <- <-. split; [done|]. exists []. by rewrite app_nil_r. }
  simpl in Hloop. rewrite bind_run in Hloop.
  destruct (process_result rs manager_name item fr) as [[[]|e] fr1] eqn:Hbody.
  - destruct (process_result_session _ _ _ _ Hbody) as [Hsp [l1 Hl1]].
    destruct (IH _ Hloop) as [Hsp' [l2 Hl2]].
    split; [congruence|]. exists (l1 ++ l2). by rewrite Hl2, Hl1, (assoc_L (++)).
  - injection Hloop as <- <-. by eapply process_result_session.
Qed.

(** X7.  For an active manager, [update_finished] with no result returns
    metadata with nothing accepted and nothing rejected; the tables and the
    counters of the manager are as they were, and nothing is sent to the
    record socket or notified.  The row of the manager has been locked. *)
Theorem update_finished_nothing_returned s manager :
  compute_manager s !! manager_name = Some manager →
  ComputeManagerORM.status manager = ManagerStatusEnum.active →
  ∃ s',
    update_finished rs manager_name [] s = (Ok (mkTaskReturnMetadata [] []), s') ∧
    store s' = store s ∧ compute_manager s' = compute_manager s ∧
    calls s' = calls s ∧ row_locks s' = row_locks s ++ [LockManager manager_name].
Proof.
  intros Hm Hact. rewrite (update_finished_active rs manager_name [] s manager Hm Hact).
  simpl. rewrite andb_false_r. eexists. split; [done|]. simpl.
  split_and!; [done| |by rewrite app_nil_r|done].
  apply map_eq. intros name. rewrite lookup_alter.
  destruct (decide (manager_name = name)) as [<-|]; [|done].
  rewrite Hm. simpl. f_equal. destruct manager. unfold ComputeManagerORM.add_stats. simpl.
  f_equal; lia.
Qed.

End UpdateFinishedSession.

(** ** The small server: more claims and returns *)

Lemma example_claim_all :
  claim_tasks Example.root_socket "manager-1" None Example.waiting_session =
  (Ok ExampleClaims.claim_all_found, ExampleClaims.claim_all.2).
Proof. vm_compute. reflexivity. Qed.

Lemma example_claim_again :
  claim_tasks Example.root_socket "manager-1" None Example.claim_run.2 =
  (Ok ExampleClaims.claim_again_found, ExampleClaims.claim_again.2).
Proof. vm_compute. reflexivity. Qed.

Lemma example_return_run :
  update_finished Example.root_socket "manager-1" ExampleClaims.returned Example.claim_run.2 =
  (Ok ExampleClaims.return_meta, ExampleClaims.return_run.2).
Proof. vm_compute. reflexivity. Qed.

Lemma example_one_task_per_record : one_task_per_record (store Example.waiting_session).
Proof.
  intros id1 id2 t1 t2 H1 H2 Heq. simpl in H1, H2. unfold Example.tasks in H1, H2.
  simpl in H1, H2.
  repeat (rewrite lookup_insert in H1; destruct (decide (_ = id1)) as [<-|?]);
    repeat (rewrite lookup_insert in H2; destruct (decide (_ = id2)) as [<-|?]);
    simplify_eq/=; done.
Qed.

Lemma claim_tasks_frame_witness :
  (∃ manager,
     compute_manager Example.waiting_session !! "manager-1" = Some manager ∧
     compute_manager Example.claim_run.2 !! "manager-1"
       = Some (ComputeManagerORM.mk (ComputeManagerORM.name manager)
                 (ComputeManagerORM.status manager) (ComputeManagerORM.programs manager)
                 (ComputeManagerORM.tags manager) (ComputeManagerORM.successes manager)
                 (ComputeManagerORM.failures manager) (ComputeManagerORM.rejected manager)
                 (ComputeManagerORM.claimed manager
                  + Z.of_nat (length Example.claim_found)))) ∧
  (∀ name, name ≠ "manager-1" →
     compute_manager Example.claim_run.2 !! name
       = compute_manager Example.waiting_session !! name) ∧
  (∀ rid, rid ∉ record_ids Example.claim_found →
     base_record (store Example.claim_run.2) !! rid
       = base_record (store Example.waiting_session) !! rid) ∧
  (∀ task_id,
     option_Forall2 same_columns
       (task_queue (store Example.claim_run.2) !! task_id)
       (task_queue (store Example.waiting_session) !! task_id)).
Proof.
  apply (claim_tasks_frame Example.root_socket "manager-1"
           (spec_generate_task_specification_frame Example.config) (Some 2%Z)
           Example.waiting_session Example.claim_found Example.claim_run.2
           example_claim_run).
Defined.

Lemma claim_tasks_no_task_twice_witness : NoDup ExampleClaims.claim_all_found.*1.
Proof.
  apply (claim_tasks_no_task_twice Example.root_socket "manager-1"
           (spec_generate_task_specification_frame Example.config) None
           Example.waiting_session ExampleClaims.claim_all_found ExampleClaims.claim_all.2
           example_claim_all).
Defined.

Lemma claim_tasks_leaves_nothing_claimable_witness :
  ExampleClaims.claim_all_found.*1 = [3; 1; 2] ∧
  task_queue (store ExampleClaims.claim_all.2) !! 4
    = Some (Example.task 14 "tagA" ["xtb"] 2 5) ∧
  ¬ claimable (store ExampleClaims.claim_all.2)
      (dom (ComputeManagerORM.programs Example.manager)) "*"
      (4, Example.task 14 "tagA" ["xtb"] 2 5).
Proof.
  split; [vm_compute; reflexivity|]. split; [vm_compute; reflexivity|].
  apply (claim_tasks_leaves_nothing_claimable Example.root_socket "manager-1"
           (spec_generate_task_specification_frame Example.config) None
           Example.waiting_session Example.manager ExampleClaims.claim_all_found
           ExampleClaims.claim_all.2).
  - vm_compute. reflexivity.
  - apply example_claim_all.
  - vm_compute. reflexivity.
  - vm_compute. apply list_elem_of_further, list_elem_of_here.
  - vm_compute. reflexivity.
Defined.

Lemma claim_tasks_exclusive_witness :
  ExampleClaims.claim_again_found.*1 = [2] ∧
  3 ≠ 2 ∧ 13 ≠ 12.
Proof.
  split; [vm_compute; reflexivity|].
  apply (claim_tasks_exclusive Example.root_socket "manager-1"
           (spec_generate_task_specification_frame Example.config) (Some 2%Z)
           Example.waiting_session Example.claim_found Example.claim_run.2
           "manager-1" None ExampleClaims.claim_again_found ExampleClaims.claim_again.2
           (3, SpecRecords.attach_function (Example.task 13 "tagA" ["psi4"] 2 12))
           (2, SpecRecords.attach_function (Example.task 12 "tagB" ["psi4"] 2 11))
           example_claim_run example_claim_again).
  - vm_compute. apply list_elem_of_here.
  - vm_compute. apply list_elem_of_here.
Defined.

Lemma claimed_results_are_not_stale_witness :
  rejected_info ExampleClaims.return_meta = [] ∧
  accepted_ids ExampleClaims.return_meta = [1; 3] ∧
  ∀ task_id reason, (task_id, reason) ∈ rejected_info ExampleClaims.return_meta →
    task_id ∈ ExampleClaims.returned.*1 ∧ reason ∈ internal_reasons.
Proof.
  split; [vm_compute; reflexivity|]. split; [vm_compute; reflexivity|].
  apply (claimed_results_are_not_stale Example.root_socket "manager-1" (Some 2%Z)
           Example.waiting_session Example.claim_found Example.claim_run.2
           ExampleClaims.returned ExampleClaims.return_meta ExampleClaims.return_run.2).
  - apply spec_generate_task_specification_frame.
  - apply spec_update_failed_task_frame.
  - apply spec_update_completed_task_frame.
  - apply example_one_task_per_record.
  - apply example_claim_run.
  - apply (bool_decide_unpack _). vm_compute. exact I.
  - apply (bool_decide_unpack _). vm_compute. exact I.
  - apply example_return_run.
Defined.

Lemma update_finished_nothing_returned_witness :
  ∃ s',
    update_finished Example.root_socket "manager-1" [] Example.running_session
      = (Ok (mkTaskReturnMetadata [] []), s') ∧
    store s' = store Example.running_session ∧
    compute_manager s' = compute_manager Example.running_session ∧
    calls s' = calls Example.running_session ∧
    row_locks s' = row_locks Example.running_session ++ [LockManager "manager-1"].
Proof.
  apply (update_finished_nothing_returned Example.root_socket "manager-1"
           Example.running_session Example.manager).
  - vm_compute. reflexivity.
  - reflexivity.
Defined.
(** ** Torsiondrive: the constraints of a grid point *)

Section TorsiondriveConstraints.
Import Torsiondrive.

(** The template with the values of [grid_id] set from the position [offset]
    on. *)
Lemma set_values_from {St} (constraints : list Constraint) offset (grid_id : list Z)
    (s : St) :
  set_values constraints (imap (λ i k, (offset + i, k)) grid_id) s =
  if decide (grid_id = [] ∨ offset + length grid_id ≤ length constraints) then
    (Ok (imap
           (λ i c,
              match decide (offset ≤ i), grid_id !! (i - offset) with
              | left _, Some k => mkConstraint (constraint_type c) (indices c) (Some k)
              | _, _ => c
              end)
           constraints), s)
  else (Raise IndexError, s).
Proof.
  revert constraints offset. induction grid_id as [|k grid_id IH]; intros constraints offset.
  - rewrite decide_True by (by left). simpl. unfold mret, M_ret. do 2 f_equal.
    apply list_eq. intros i. rewrite list_lookup_imap.
    destruct (constraints !! i) as [c|]; [|done]. simpl.
    by destruct (decide (offset ≤ i)).
  - destruct (decide (k :: grid_id = [] ∨ offset + length (k :: grid_id) ≤ length constraints))
      as [[?|Hfits]|Hover]; [done| |].
    + simpl in Hfits.
      destruct (lookup_lt_is_Some_2 constraints offset) as [c Hc]; [lia|].
      rewrite imap_cons. simpl. replace (offset + 0) with offset by lia. rewrite Hc.
      rewrite (imap_ext _ (λ i k', (S offset + i, k')) grid_id)
        by (intros; simpl; f_equal; lia).
      rewrite IH. rewrite length_insert. rewrite decide_True by (right; lia).
      unfold mret, M_ret. do 2 f_equal. apply list_eq. intros i.
      rewrite !list_lookup_imap.
      destruct (decide (i = offset)) as [->|Hne].
      * rewrite list_lookup_insert_eq by lia. rewrite Hc. simpl.
        rewrite decide_False by lia. rewrite decide_True by lia.
        by rewrite Nat.sub_diag.
      * rewrite list_lookup_insert_ne by done.
        destruct (constraints !! i) as [c'|]; [|done]. simpl. f_equal.
        destruct (decide (S offset ≤ i)), (decide (offset ≤ i)); try lia; [|done].
        replace (i - offset) with (S (i - S offset)) by lia. done.
    + rewrite imap_cons. simpl. replace (offset + 0) with offset by lia.
      destruct (constraints !! offset) as [c|] eqn:Hc; [|done].
      rewrite (imap_ext _ (λ i k', (S offset + i, k')) grid_id)
        by (intros; simpl; f_equal; lia).
      rewrite IH. rewrite length_insert. apply lookup_lt_Some in Hc.
      rewrite decide_False; [done|]. intros [->|Hle]; apply Hover; right; simpl; lia.
Qed.

Lemma set_values_enumerate {St} (template : list Constraint) (grid_id : list Z) (st : St) :
  set_values template (enumerate grid_id) st =
  (if decide (length grid_id ≤ length template)
   then Ok (imap (λ i c,
                    match grid_id !! i with
                    | Some k => mkConstraint (constraint_type c) (indices c) (Some k)
                    | None => c
                    end) template)
   else Raise IndexError, st).
Proof.
  unfold enumerate.
  rewrite (imap_ext _ (λ i k, (0 + i, k)) grid_id) by done.
  rewrite set_values_from.
  destruct (decide (length grid_id ≤ length template)) as [Hfits|Hover].
  - rewrite decide_True by (by right). do 2 f_equal. apply imap_ext.
    intros i c _. simpl. by rewrite Nat.sub_0_r.
  - rewrite decide_False; [done|]. intros [Hnil|?]; [|done].
    rewrite Hnil in Hover. simpl in Hover. lia.
Qed.

Context {P : Payloads} (rs : Collaborators P).

(** X8.  The constraints that [_submit_optimizations] makes for a grid point
    are the entries of the dihedral template, the first ones with the angles
    of the grid point as their values, in order; type and indices are those
    of the template.  A grid point with more angles than the template has
    entries makes the loop raise [IndexError], and then nothing is submitted
    for the key: the state is as it was.  When a key is submitted, the
    specification given to [optimization.add] is the one of the record with
    these constraints after those it had. *)
Theorem grid_point_constraints (service_state : TorsiondriveServiceState P)
    (opt_spec : OptimizationSpecification P) td_api_key geometries (s : State P) :
  let grid_id := grid_id_from_string rs td_api_key in
  let template := dihedral_template service_state in
  let valued :=
    imap (λ i c,
            match grid_id !! i with
            | Some k => mkConstraint (constraint_type c) (indices c) (Some k)
            | None => c
            end) template in
  set_values template (enumerate grid_id) s =
    (if decide (length grid_id ≤ length template) then Ok valued else Raise IndexError, s) ∧
  (length template < length grid_id →
   submit_for_key rs service_state opt_spec (td_api_key, geometries) s
     = (Raise IndexError, s)) ∧
  (∀ s', submit_for_key rs service_state opt_spec (td_api_key, geometries) s = (Ok tt, s') →
     length grid_id ≤ length template ∧
     ∃ meta opt_ids db',
       optimization_add rs (mkMolecule (molecule_template service_state) <$> geometries)
         (mkOptimizationSpecification (keywords opt_spec)
            (Some (default [] (constraints_set opt_spec) ++ valued)))
         (compute_tag (service_orm s)) (compute_priority (service_orm s))
         (owner_user_id (td_orm s)) (owner_group_id (td_orm s))
         (find_existing (service_orm s)) (database s) = (Ok (meta, opt_ids), db') ∧
       success meta = true).
Proof.
  intros grid_id template valued.
  assert (Hset : ∀ St (st : St),
            set_values template (enumerate grid_id) st =
            (if decide (length grid_id ≤ length template) then Ok valued
             else Raise IndexError, st)).
  { intros St st. apply set_values_enumerate. }
  split_and!.
  - apply Hset.
  - intros Hover. unfold submit_for_key. fold grid_id template.
    rewrite bind_run, Hset. by rewrite decide_False by lia.
  - intros s' Hrun. unfold submit_for_key in Hrun. fold grid_id template in Hrun.
    rewrite bind_run, Hset in Hrun.
    destruct (decide (length grid_id ≤ length template)) as [Hfits|Hover]; [|done].
    split; [done|].
    unfold extend_constraints, in_database, zoom, gets in Hrun.
    rewrite !bind_run in Hrun. simpl in Hrun. rewrite ?bind_run in Hrun. simpl in Hrun.
    destruct (optimization_add rs _ _ _ _ _ _ _ _) as [[[meta opt_ids]|e] db'];
      [|done].
    exists meta, opt_ids, db'. split; [done|].
    by destruct (success meta).
Qed.

End TorsiondriveConstraints.
(** ** Torsiondrive: the results given to the package *)

Section SortedBy.
Import Torsiondrive.
Context {A : Type} (key : A → nat).

Lemma insert_by_perm x (l : list A) : insert_by key x l ≡ₚ x :: l.
Proof.
  induction l as [|y l IH]; simpl; [done|].
  destruct (decide (key x < key y)); [done|]. rewrite IH. apply Permutation_swap.
Qed.

Lemma foldl_insert_by_perm (l acc : list A) :
  foldl (λ acc x, insert_by key x acc) acc l ≡ₚ acc ++ l.
Proof.
  revert acc. induction l as [|x l IH]; intros acc; simpl.
  - by rewrite app_nil_r.
  - rewrite IH, insert_by_perm. simpl. apply Permutation_middle.
Qed.

Lemma sorted_by_perm (l : list A) : sorted_by key l ≡ₚ l.
Proof. apply foldl_insert_by_perm. Qed.

Lemma insert_by_sorted x (l : list A) :
  StronglySorted (λ a b, key a ≤ key b) l →
  StronglySorted (λ a b, key a ≤ key b) (insert_by key x l).
Proof.
  induction 1 as [|y l Hl IH Hy]; simpl; [repeat constructor|].
  destruct (decide (key x < key y)) as [Hlt|Hge].
  - constructor; [by constructor|]. constructor; [lia|].
    eapply Forall_impl; [exact Hy|]. simpl. intros. lia.
  - constructor; [done|]. rewrite insert_by_perm. constructor; [lia|done].
Qed.

Lemma sorted_by_sorted (l : list A) :
  StronglySorted (λ a b, key a ≤ key b) (sorted_by key l).
Proof.
  unfold sorted_by. generalize (SSorted_nil (λ a b : A, key a ≤ key b)).
  generalize (@nil A). induction l as [|x l IH]; intros acc Hacc; simpl; [done|].
  apply IH. by apply insert_by_sorted.
Qed.

(** Elements with the same key keep their order: the sort is stable. *)
Lemma insert_by_filter (Q : A → Prop) `{∀ x, Decision (Q x)} x (l : list A) :
  StronglySorted (λ a b, key a ≤ key b) l →
  filter Q (insert_by key x l) =
  if decide (Q x) then insert_by key x (filter Q l) else filter Q l.
Proof.
  induction 1 as [|y l Hl IH Hy]; simpl.
  - rewrite filter_cons, filter_nil. by destruct (decide (Q x)).
  - destruct (decide (key x < key y)) as [Hlt|Hge].
    + rewrite filter_cons. destruct (decide (Q x)) as [Hx|Hx]; [|done].
      rewrite (filter_cons Q y). destruct (decide (Q y)); simpl.
      * by rewrite decide_True.
      * assert (Hall : Forall (λ b, key x < key b) (filter Q l)).
        { apply Forall_forall. intros b [_ Hb]%list_elem_of_filter.
          rewrite Forall_forall in Hy. specialize (Hy b Hb). lia. }
        clear -Hall. induction (filter Q l); simpl; [done|].
        inversion Hall; subst. by rewrite decide_True.
    + rewrite !(filter_cons Q y), IH.
      destruct (decide (Q y)), (decide (Q x)); simpl; try done.
      by rewrite decide_False.
Qed.

Lemma sorted_by_filter (Q : A → Prop) `{∀ x, Decision (Q x)} (l : list A) :
  filter Q (sorted_by key l) = sorted_by key (filter Q l).
Proof.
  unfold sorted_by.
  assert (Hgen : ∀ acc, StronglySorted (λ a b, key a ≤ key b) acc →
            filter Q (foldl (λ acc x, insert_by key x acc) acc l) =
            foldl (λ acc x, insert_by key x acc) (filter Q acc) (filter Q l)).
  { induction l as [|x l IH]; intros acc Hacc; simpl; [done|].
    rewrite IH by (by apply insert_by_sorted). rewrite insert_by_filter by done.
    rewrite filter_cons. by destruct (decide (Q x)). }
  rewrite Hgen by constructor. done.
Qed.

End SortedBy.

Section DictAppend.
Import Torsiondrive.
Context {V : Type}.

Lemma dict_get_append k k' (v : V) d :
  dict_get k (dict_append k' v d) =
  if decide (k' = k) then Some (default [] (dict_get k d) ++ [v]) else dict_get k d.
Proof.
  induction d as [|[k0 vs] d IH]; cbn [dict_append dict_get].
  - by destruct (decide (k' = k)).
  - destruct (decide (k0 = k')) as [->|Hne]; cbn [dict_get].
    + by destruct (decide (k' = k)).
    + rewrite IH. destruct (decide (k0 = k)) as [->|?]; [|done].
      by rewrite decide_False.
Qed.

(** The dictionary that the loop builds: for a key, the values of its
    entries, in their order; no entry, no key. *)
Lemma dict_get_groups (entries : list (string * V)) d k :
  dict_get k (foldl (λ d entry, dict_append entry.1 entry.2 d) d entries) =
  match (filter (λ e, e.1 = k) entries).*2 with
  | [] => dict_get k d
  | vs => Some (default [] (dict_get k d) ++ vs)
  end.
Proof.
  revert d. induction entries as [|[k0 v0] entries IH]; intros d; [done|].
  cbn [foldl]. rewrite IH, dict_get_append, filter_cons. cbn [fst snd].
  destruct (decide (k0 = k)) as [->|Hne].
  - rewrite fmap_cons. cbn [snd default].
    destruct ((filter (λ e, e.1 = k) entries).*2) as [|v vs]; [done|].
    simpl. by rewrite <- (assoc_L (++)).
  - done.
Qed.

End DictAppend.

Lemma map_M_Forall2 {St A B} (f : A → M St B) l s ys s' :
  map_M f l s = (Ok ys, s') → Forall2 (λ x y, ∃ sa sb, f x sa = (Ok y, sb)) l ys.
Proof.
  revert s ys. induction l as [|x l IH]; intros s ys Hrun; simpl in Hrun.
  - injection Hrun as <- <-. constructor.
  - apply bind_Ok_inv in Hrun as (y & s1 & Hx & Hrun).
    apply bind_Ok_inv in Hrun as (ys' & s2 & Hl & Hrun). injection Hrun as <- <-.
    constructor; [by eauto|by eapply IH].
Qed.

Lemma Forall2_filter {A B} (R : A → B → Prop) (Q : A → Prop) (Q' : B → Prop)
    `{∀ x, Decision (Q x)} `{∀ y, Decision (Q' y)} l l' :
  (∀ x y, R x y → Q x ↔ Q' y) →
  Forall2 R l l' → Forall2 R (filter Q l) (filter Q' l').
Proof.
  intros Hiff. induction 1 as [|x y l l' Hxy Hl IH]; [constructor|].
  rewrite !filter_cons. specialize (Hiff x y Hxy).
  destruct (decide (Q x)), (decide (Q' y)); try tauto. by constructor.
Qed.

Section TorsiondriveResults.
Import Torsiondrive.
Context {P : Payloads} (rs : Collaborators P).

Lemma task_result_Ok task (sa : State P) k v sb :
  task_result rs task sa = (Ok (k, v), sb) →
  k = td_api_key (extras task) ∧ result_of rs task v.
Proof.
  unfold task_result. intros Hrun.
  apply bind_Ok_inv in Hrun as (db & s0 & Hdb & Hrun). injection Hdb as <- <-.
  destruct (dependency_record rs (database sa) (Torsiondrive.record_id task))
    as [opt|] eqn:Hopt; [|done].
  apply bind_Ok_inv in Hrun as (mol_data & s1 & Hmol & Hrun).
  unfold in_database, zoom in Hmol.
  destruct (molecules_get rs _ (database sa)) as [[mols|e] db'] eqn:Hget; [|done].
  injection Hmol as <- <-.
  apply bind_Ok_inv in Hrun as (g0 & s2 & H0 & Hrun).
  apply bind_Ok_inv in Hrun as (g1 & s3 & H1 & Hrun).
  apply bind_Ok_inv in Hrun as (en & s4 & H2 & Hrun).
  injection Hrun as <- <- <-. split; [done|].
  unfold index in H0, H1. unfold last_item in H2.
  destruct (mols !! 0) as [g0'|] eqn:E0; [|done].
  destruct (mols !! 1) as [g1'|] eqn:E1; [|done].
  destruct (last (energies opt)) as [en'|] eqn:E2; [|done].
  injection H0 as <- <-. injection H1 as <- <-. injection H2 as <- <-.
  exists (database sa), opt, mols, db'. by split_and!.
Qed.

(** X9.  What [iterate_service] gives to the torsiondrive package: a
    dictionary with, for every key of a dependency of the service, one result
    for each dependency with that key, by position (dependencies with the same
    position in the order they have in the list); a result has the geometries
    of the initial and the final molecule of the optimization of the
    dependency and the last of its energies.  A key without a dependency is
    not in the dictionary.  So when [iterate_service] gets an answer from the
    package, every dependency has an optimization with an energy. *)
Theorem package_is_given_results_by_position (s : State P) st next_tasks text s1 :
  ask_torsiondrive rs s = (Ok (st, next_tasks, text), s1) →
  ∃ task_results printed,
    update_state rs (torsiondrive_state (service_state (service_orm s))) task_results
      = (Ok (torsiondrive_state st), printed) ∧
    ∀ k,
      match dict_get k task_results with
      | Some results =>
          results ≠ [] ∧
          Forall2 (result_of rs) (tasks_of_key k (dependencies (service_orm s))) results
      | None => tasks_of_key k (dependencies (service_orm s)) = []
      end.
Proof.
  unfold ask_torsiondrive. intros H.
  apply bind_Ok_inv in H as ([] & s0 & Hprov & H).
  unfold set_provenance in Hprov.
  destruct (compute_history (td_orm s)) as [|h0 hist] eqn:Hhist; [done|].
  injection Hprov as <-.
  apply bind_Ok_inv in H as (st0 & s0 & Hst & H). injection Hst as <- <-.
  apply bind_Ok_inv in H as (deps & s0 & Hdeps & H). injection Hdeps as <- <-.
  apply bind_Ok_inv in H as (entries & s0 & Hentries & H). simpl in *.
  destruct (update_state rs _ _) as [[td_state|e] printed] eqn:Hupdate; [|done].
  destruct (next_jobs_from_state rs td_state) as [[next|e] printed']; [|done].
  injection H as <- <- <- <-. simpl.
  eexists _, printed. split; [exact Hupdate|].
  intros k. rewrite dict_get_groups. cbn [dict_get default].
  apply map_M_Forall2 in Hentries.
  assert (Hkey : Forall2 (λ task entry, entry.1 = td_api_key (extras task) ∧
                                         result_of rs task entry.2)
                   (sorted_by (λ x, position (extras x)) (dependencies (service_orm s)))
                   entries).
  { eapply Forall2_impl; [exact Hentries|]. intros task [k' v] (sa & sb & Hrun).
    by apply task_result_Ok in Hrun as [-> ?]. }
  apply (Forall2_filter _ (λ x, td_api_key (extras x) = k) (λ e, e.1 = k)) in Hkey.
  2:{ intros task entry [-> _]. done. }
  rewrite sorted_by_filter in Hkey. fold (tasks_of_key k (dependencies (service_orm s))) in Hkey.
  destruct (filter (λ e, e.1 = k) entries) as [|e es] eqn:Hf.
  - simpl. by apply Forall2_nil_inv_r in Hkey.
  - rewrite fmap_cons. split; [done|]. rewrite <- fmap_cons.
    apply Forall2_fmap_r. eapply Forall2_impl; [exact Hkey|]. by intros ? ? [_ ?].
Qed.

End TorsiondriveResults.

(** ** Torsiondrive: iterations that fail *)

Section TorsiondriveFailures.
Import Torsiondrive.
Context {P : Payloads} (rs : Collaborators P).

Lemma kept_refl (s : State P) : kept s s.
Proof. by repeat split. Qed.

Lemma kept_trans (s1 s2 s3 : State P) : kept s1 s2 → kept s2 s3 → kept s1 s3.
Proof.
  intros (A1 & A2 & A3 & A4 & A5 & A6 & A7 & A8 & A9 & A10)
         (B1 & B2 & B3 & B4 & B5 & B6 & B7 & B8 & B9 & B10).
  repeat split; try congruence. by etrans.
Qed.

Lemma submit_for_key_kept st opt_spec item (s : State P) r s' :
  submit_for_key rs st opt_spec item s = (r, s') → kept s s'.
Proof.
  destruct item as [td_api_key geometries]. unfold submit_for_key.
  rewrite bind_run.
  pose proof (set_values_state (dihedral_template st)
                (enumerate (grid_id_from_string rs td_api_key)) s) as Hs.
  destruct (set_values _ _ s) as [[constraints|e] s0]; simpl in Hs; subst s0.
  2:{ intros H. injection H as <- <-. apply kept_refl. }
  unfold in_database, zoom, gets. rewrite !bind_run. simpl. rewrite ?bind_run. simpl.
  destruct (optimization_add rs _ _ _ _ _ _ _ _) as [[[meta opt_ids]|e] db'].
  2:{ intros H. injection H as <- <-. by repeat split. }
  destruct (success meta); simpl.
  2:{ intros H. injection H as <- <-. by repeat split. }
  unfold enumerate. rewrite (imap_ext _ (λ i x, (0 + i, x)) opt_ids) by done.
  rewrite for_each_add_dependency. intros H. injection H as <- <-. simpl.
  repeat split. by apply prefix_app_r.
Qed.

Lemma for_each_submit_for_key_kept st opt_spec items (s : State P) r s' :
  for_each items (submit_for_key rs st opt_spec) s = (r, s') → kept s s'.
Proof.
  revert s. induction items as [|item items IH]; intros s; simpl.
  - intros H. injection H as <- <-. apply kept_refl.
  - rewrite bind_run.
    destruct (submit_for_key rs st opt_spec item s) as [[[]|e] s1] eqn:Hitem.
    + intros H. eapply kept_trans; [by eapply submit_for_key_kept|by eapply IH].
    + intros H. injection H as <- <-. by eapply submit_for_key_kept.
Qed.

Lemma _submit_optimizations_kept st next_tasks (s : State P) r s' :
  _submit_optimizations rs st next_tasks s = (r, s') → kept s s'.
Proof.
  unfold _submit_optimizations. rewrite !bind_run. simpl. intros H.
  apply for_each_submit_for_key_kept in H. destruct s as [[] ? ?]. exact H.
Qed.

Lemma stdout_alter_last (f : ComputeHistoryORM → ComputeHistoryORM) l :
  (∀ entry, stdout (f entry) = stdout entry) →
  stdout <$> alter_last f l = stdout <$> l.
Proof.
  intros Hf. induction l as [|x [|y l] IH]; [done| |].
  - simpl. by rewrite Hf.
  - change (alter_last f (x :: y :: l)) with (x :: alter_last f (y :: l)).
    rewrite !(fmap_cons stdout x). by rewrite IH.
Qed.

Lemma ask_torsiondrive_kept (s : State P) r s1 :
  ask_torsiondrive rs s = (r, s1) →
  service_orm s1 = service_orm s ∧
  optimizations (td_orm s1) = optimizations (td_orm s) ∧
  optimization_specification (td_orm s1) = optimization_specification (td_orm s) ∧
  stdout <$> compute_history (td_orm s1) = stdout <$> compute_history (td_orm s) ∧
  (compute_history (td_orm s) = [] → r = Raise IndexError ∧ s1 = s).
Proof.
  unfold ask_torsiondrive. rewrite bind_run.
  destruct (set_provenance rs s) as [[[]|e] s0] eqn:Hprov.
  2:{ unfold set_provenance in Hprov.
      destruct (compute_history (td_orm s)) as [|h0 hist] eqn:Hhist; [|done].
      injection Hprov as <- <-. intros H. injection H as <- <-. by rewrite Hhist. }
  assert (Hs0 : service_orm s0 = service_orm s ∧
                optimizations (td_orm s0) = optimizations (td_orm s) ∧
                optimization_specification (td_orm s0)
                  = optimization_specification (td_orm s) ∧
                stdout <$> compute_history (td_orm s0)
                  = stdout <$> compute_history (td_orm s) ∧
                compute_history (td_orm s) ≠ []).
  { unfold set_provenance in Hprov.
    destruct (compute_history (td_orm s)) as [|h0 hist] eqn:Hhist; [done|].
    injection Hprov as <-. split_and!; try done.
    change (stdout
              <$> alter_last
                    (λ entry,
                       mkComputeHistoryORM
                         (Some (mkProvenance "torsiondrive" (torsiondrive_version rs)
                                  "torsiondrive.td_api"))
                         (stdout entry))
                    (h0 :: hist)
            = stdout <$> h0 :: hist).
    by apply stdout_alter_last. }
  destruct Hs0 as (A1 & A2 & A3 & A4 & A5).
  unfold gets. rewrite !bind_run. cbv beta iota.
  rewrite ?bind_run.
  destruct (map_M (task_result rs) _ s0) as [[entries|e] s2] eqn:Hentries;
    apply map_M_task_result_frame in Hentries as [Hsvc Htd].
  2:{ intros H. injection H as <- <-. rewrite Hsvc, Htd. by split_and!. }
  destruct (update_state rs _ _) as [[td_state|e] printed].
  2:{ intros H. injection H as <- <-. rewrite Hsvc, Htd. by split_and!. }
  destruct (next_jobs_from_state rs td_state) as [[next|e] printed'];
    intros H; injection H as <- <-; rewrite Hsvc, Htd; by split_and!.
Qed.

(** X10.  An iteration that fails stores nothing of what the package has
    answered: when [iterate_service] raises, the service state of the service
    is the one it had, nothing is appended to the output of the record, the
    specification of the record is as it was, and the record has the
    optimizations it had, before any that were added.  The dependencies are
    the ones the service had, unless the exception is that of the submission
    of the next tasks.  A record without an entry in its compute history makes it raise
    [IndexError] at once, with nothing changed. *)
Theorem failed_iteration_stores_nothing (s : State P) e s' :
  iterate_service rs s = (Raise e, s') →
  service_state (service_orm s') = service_state (service_orm s) ∧
  stdout <$> compute_history (td_orm s') = stdout <$> compute_history (td_orm s) ∧
  optimization_specification (td_orm s') = optimization_specification (td_orm s) ∧
  optimizations (td_orm s) `prefix_of` optimizations (td_orm s') ∧
  (dependencies (service_orm s') = dependencies (service_orm s) ∨
   ∃ st next_tasks text s1,
     ask_torsiondrive rs s = (Ok (st, next_tasks, text), s1) ∧ next_tasks ≠ [] ∧
     _submit_optimizations rs st next_tasks s1 = (Raise e, s')) ∧
  (compute_history (td_orm s) = [] → e = IndexError ∧ s' = s).
Proof.
  intros Hrun.
  destruct (ask_torsiondrive rs s) as [[[[st next_tasks] text]|e0] s1] eqn:Hask.
  - pose proof (ask_torsiondrive_kept _ _ _ Hask) as (Hsvc & Hopt & Hspec & Hout & Hempty).
    pose proof (ask_torsiondrive_Ok rs _ _ _ _ _ Hask) as (_ & _ & _ & _ & Hhist).
    rewrite (iterate_service_run rs _ _ _ _ _ Hask) in Hrun.
    destruct (decide (0 < length next_tasks)) as [Hsome|Hnone].
    + destruct (_submit_optimizations rs st next_tasks s1) as [[[]|e1] s2] eqn:Hsub; [done|].
      injection Hrun as <- <-.
      pose proof (_submit_optimizations_kept _ _ _ _ _ Hsub)
        as (K1 & _ & _ & _ & _ & K6 & K7 & _ & _ & K10).
      split_and!.
      * by rewrite K1, Hsvc.
      * by rewrite K6.
      * by rewrite K7.
      * by rewrite <- Hopt.
      * right. exists st, next_tasks, text, s1. split_and!; [done| |done].
        intros ->. simpl in Hsome. lia.
      * intros Hnil. by destruct (Hempty Hnil).
    + unfold check_lowest_energies in Hrun.
      destruct (decide (lowest_energies rs st ≠ min_energies rs s1)); [|done].
      injection Hrun as <- <-. rewrite Hsvc, Hopt. split_and!; try done; [by left|].
      intros Hnil. by destruct (Hempty Hnil).
  - pose proof (ask_torsiondrive_kept _ _ _ Hask) as (Hsvc & Hopt & Hspec & Hout & Hempty).
    rewrite (iterate_service_raise rs _ _ _ Hask) in Hrun. injection Hrun as <- <-.
    rewrite Hsvc, Hopt. split_and!; try done; [by left|].
    intros Hnil. destruct (Hempty Hnil) as [[= ->] ->]. done.
Qed.

Lemma submit_for_key_run st opt_spec td_api_key geometries (s : State P) :
  length (grid_id_from_string rs td_api_key) ≤ length (dihedral_template st) →
  submit_for_key rs st opt_spec (td_api_key, geometries) s =
  match
    optimization_add rs (mkMolecule (molecule_template st) <$> geometries)
      (mkOptimizationSpecification (keywords opt_spec)
         (Some (default [] (constraints_set opt_spec)
                ++ imap (λ i c,
                           match grid_id_from_string rs td_api_key !! i with
                           | Some k => mkConstraint (constraint_type c) (indices c) (Some k)
                           | None => c
                           end) (dihedral_template st))))
      (compute_tag (service_orm s)) (compute_priority (service_orm s))
      (owner_user_id (td_orm s)) (owner_group_id (td_orm s))
      (find_existing (service_orm s)) (database s)
  with
  | (Ok (meta, opt_ids), db') =>
      if success meta then
        for_each (enumerate opt_ids)
          (add_dependency td_api_key (serialize_key rs (grid_id_from_string rs td_api_key)))
          (set_database db' s)
      else
        (Raise (RuntimeError
                  ("Error adding optimizations - likely a developer error: "
                   +:+ error_string meta)), set_database db' s)
  | (Raise e, db') => (Raise e, set_database db' s)
  end.
Proof.
  intros Hfits. unfold submit_for_key. rewrite bind_run, set_values_enumerate.
  rewrite decide_True by done.
  unfold extend_constraints, in_database, zoom, gets.
  rewrite !bind_run. cbv beta iota. rewrite ?bind_run. cbv beta iota.
  destruct (optimization_add rs _ _ _ _ _ _ _ _) as [[[meta opt_ids]|e] db']; [|done].
  by destruct (success meta).
Qed.

Lemma _submit_optimizations_run st next_tasks (s : State P) :
  _submit_optimizations rs st next_tasks s =
  for_each next_tasks (submit_for_key rs st (optimization_specification (td_orm s)))
    (set_service_orm (set_dependencies [] (service_orm s)) s).
Proof.
  unfold _submit_optimizations. rewrite !bind_run. unfold modify, gets. cbv beta iota.
  by rewrite ?bind_run.
Qed.

(** X11.  When [optimization.add] reports for a key of the next tasks that
    it has failed, [_submit_optimizations] raises [RuntimeError] with "Error
    adding optimizations - likely a developer error: " and the error string.
    The keys after that one are not submitted, and the dependencies are those
    made for the keys before it: the ones the service had are gone. *)
Theorem failed_submission st before td_api_key geometries after (s s2 : State P)
    meta opt_ids db' :
  _submit_optimizations rs st before s = (Ok tt, s2) →
  length (grid_id_from_string rs td_api_key) ≤ length (dihedral_template st) →
  optimization_add rs (mkMolecule (molecule_template st) <$> geometries)
    (mkOptimizationSpecification (keywords (optimization_specification (td_orm s)))
       (Some (default [] (constraints_set (optimization_specification (td_orm s)))
              ++ imap (λ i c,
                         match grid_id_from_string rs td_api_key !! i with
                         | Some k => mkConstraint (constraint_type c) (indices c) (Some k)
                         | None => c
                         end) (dihedral_template st))))
    (compute_tag (service_orm s2)) (compute_priority (service_orm s2))
    (owner_user_id (td_orm s2)) (owner_group_id (td_orm s2))
    (find_existing (service_orm s2)) (database s2) = (Ok (meta, opt_ids), db') →
  success meta = false →
  _submit_optimizations rs st (before ++ (td_api_key, geometries) :: after) s =
    (Raise (RuntimeError
              ("Error adding optimizations - likely a developer error: "
               +:+ error_string meta)),
     set_database db' s2) ∧
  ∃ groups,
    submitted rs st (set_dependencies [] (service_orm s)) (td_orm s) before groups ∧
    dependencies (service_orm (set_database db' s2))
      = flat_map (λ group, new_dependencies 0 group.1 group.2) groups.
Proof.
  intros Hbefore Hfits Hadd Hfail. rewrite _submit_optimizations_run in Hbefore. split.
  - rewrite _submit_optimizations_run, for_each_app, Hbefore. cbn [for_each].
    rewrite bind_run, submit_for_key_run by done. by rewrite Hadd, Hfail.
  - apply for_each_submit_for_key in Hbefore as (groups & Hgroups & Hsvc & _).
    exists groups. split; [exact Hgroups|]. simpl. by rewrite Hsvc.
Qed.

End TorsiondriveFailures.

(** ** Torsiondrive: the minimum energies *)

Section TorsiondriveEnergies.
Import Torsiondrive.
Context {P : Payloads} (rs : Collaborators P).

Lemma dict_of_items_const {A V} (f : A → string) (c : V) (l : list A)
    (d : gmap string V) k :
  foldl (λ d item, <[item.1 := item.2]> d) d ((λ x, (f x, c)) <$> l) !! k =
  if decide (k ∈ f <$> l) then Some c else d !! k.
Proof.
  revert d. induction l as [|x l IH]; intros d.
  - by rewrite decide_False by (by intros ?%elem_of_nil).
  - rewrite !fmap_cons. cbn [foldl fst snd]. rewrite IH.
    destruct (decide (k ∈ f <$> l)) as [Hin|Hout].
    + by rewrite decide_True by (by right).
    + destruct (decide (f x = k)) as [<-|Hne].
      * rewrite lookup_insert_eq. by rewrite decide_True by left.
      * rewrite lookup_insert_ne by done. rewrite decide_False; [done|].
        by intros [?|?]%elem_of_cons.
Qed.

Lemma energies_fold (energy : TorsiondriveOptimizationORM → option (Energy P))
    (l : list TorsiondriveOptimizationORM) (d : gmap string (list (Energy P))) k :
  (∀ x, x ∈ l → is_Some (d !! key x)) →
  foldl (λ d x,
           match energy x with
           | Some en => <[key x := default [] (d !! key x) ++ [en]]> d
           | None => d
           end) d l !! k
  = (λ vs, vs ++ omap energy (filter (λ x, key x = k) l)) <$> d !! k.
Proof.
  revert d. induction l as [|x l IH]; intros d Hdom.
  - simpl. destruct (d !! k); simpl; [|done]. by rewrite app_nil_r.
  - cbn [foldl]. rewrite filter_cons.
    destruct (Hdom x) as [vs Hvs]; [by left|].
    destruct (energy x) as [en|] eqn:Hen.
    + rewrite IH.
      2:{ intros y Hy. destruct (decide (key x = key y)) as [<-|Hne].
          - rewrite lookup_insert_eq. by eexists.
          - rewrite lookup_insert_ne by done. apply Hdom. by right. }
      destruct (decide (key x = k)) as [<-|Hne].
      * rewrite lookup_insert_eq, Hvs. simpl. rewrite Hen. simpl.
        by rewrite <- (assoc_L (++)).
      * by rewrite lookup_insert_ne.
    + rewrite IH by (intros y Hy; apply Hdom; by right).
      destruct (decide (key x = k)) as [<-|Hne]; [|done].
      simpl. by rewrite Hen.
Qed.

Lemma min_energies_lookup (s : State P) k :
  min_energies rs s !! k =
  if decide (k ∈ key <$> optimizations (td_orm s)) then
    Some (min_energy
            (omap (λ x, optimization_energy rs (database s) (optimization_id x))
               (filter (λ x, key x = k) (optimizations (td_orm s)))))
  else None.
Proof.
  unfold min_energies, our_energies. rewrite lookup_fmap.
  rewrite (energies_fold
             (λ x, optimization_energy rs (database s) (optimization_id x))).
  - unfold dict_of_items. rewrite dict_of_items_const, lookup_empty.
    by destruct (decide (k ∈ key <$> optimizations (td_orm s))).
  - intros x Hx. unfold dict_of_items. rewrite dict_of_items_const.
    rewrite decide_True; [by eexists|]. apply list_elem_of_fmap. by exists x.
Qed.

Lemma min_energy_least (l : list (Energy P)) m :
  (∀ x, Energy_lt P x x = false) →
  (∀ x y z, Energy_lt P x y = true → Energy_lt P y z = true → Energy_lt P x z = true) →
  min_energy l = Some m →
  m ∈ l ∧ ∀ x, x ∈ l → Energy_lt P x m = false.
Proof.
  intros Hirr Htrans. destruct l as [|e l]; [done|]. simpl. intros [= <-].
  assert (Hgen : ∀ l m0 seen,
            m0 ∈ seen → (∀ x, x ∈ seen → Energy_lt P x m0 = false) →
            let m := foldl (λ m x, if Energy_lt P x m then x else m) m0 l in
            m ∈ seen ++ l ∧ ∀ x, x ∈ seen ++ l → Energy_lt P x m = false).
  { clear e l. induction l as [|y l IH]; intros m0 seen Hin Hleast; simpl.
    - by rewrite app_nil_r.
    - destruct (Energy_lt P y m0) eqn:Hlt.
      + destruct (IH y (seen ++ [y])) as [H1 H2].
        * apply elem_of_app. right. left.
        * intros x [Hx|Hx%list_elem_of_singleton]%elem_of_app; [|by subst].
          destruct (Energy_lt P x y) eqn:Hxy; [|done].
          pose proof (Hleast x Hx) as Hno. by rewrite (Htrans _ _ _ Hxy Hlt) in Hno.
        * rewrite <- (assoc_L (++)) in H1, H2. done.
      + destruct (IH m0 (seen ++ [y])) as [H1 H2].
        * apply elem_of_app. by left.
        * intros x [Hx|Hx%list_elem_of_singleton]%elem_of_app; [by apply Hleast|by subst].
        * rewrite <- (assoc_L (++)) in H1, H2. done. }
  destruct (Hgen l e [e]) as [H1 H2]; [left| |done].
  intros x Hx%list_elem_of_singleton. by subst.
Qed.

(** X12.  The check at the end of a torsiondrive.  With an order of the
    energies that is irreflexive and transitive: when the check passes, the
    lowest energies that the package reports have exactly the keys of the
    optimizations of the record; for a key, the energy reported is the energy
    of an optimization with that key, and no optimization with that key has a
    lower one; a key is reported without an energy when no optimization with
    that key has one. *)
Theorem final_energies_are_the_lowest st (s s' : State P) k :
  (∀ x, Energy_lt P x x = false) →
  (∀ x y z, Energy_lt P x y = true → Energy_lt P y z = true → Energy_lt P x z = true) →
  check_lowest_energies rs st s = (Ok tt, s') →
  match lowest_energies rs st !! k with
  | None => k ∉ key <$> optimizations (td_orm s)
  | Some None =>
      (k ∈ key <$> optimizations (td_orm s)) ∧
      ∀ x, x ∈ optimizations (td_orm s) → key x = k →
        optimization_energy rs (database s) (optimization_id x) = None
  | Some (Some en) =>
      (∃ x, x ∈ optimizations (td_orm s) ∧ key x = k ∧
            optimization_energy rs (database s) (optimization_id x) = Some en) ∧
      ∀ x en', x ∈ optimizations (td_orm s) → key x = k →
        optimization_energy rs (database s) (optimization_id x) = Some en' →
        Energy_lt P en' en = false
  end.
Proof.
  intros Hirr Htrans Hcheck. unfold check_lowest_energies in Hcheck.
  destruct (decide (lowest_energies rs st ≠ min_energies rs s)) as [|Heq]; [done|].
  apply dec_stable in Heq. rewrite Heq, min_energies_lookup.
  set (energy := λ x : TorsiondriveOptimizationORM,
         optimization_energy rs (database s) (optimization_id x)).
  destruct (decide (k ∈ key <$> optimizations (td_orm s))) as [Hk|Hk]; [|done].
  destruct (min_energy _) as [en|] eqn:Hmin.
  - destruct (min_energy_least _ _ Hirr Htrans Hmin) as [Hin Hleast]. split.
    + apply list_elem_of_omap in Hin as (x & [Hkey Hx]%list_elem_of_filter & Hen).
      by exists x.
    + intros x en' Hx Hkey Hen. apply Hleast. apply list_elem_of_omap.
      exists x. split; [|done]. by apply list_elem_of_filter.
  - split; [done|]. intros x Hx Hkey.
    destruct (energy x) as [en|] eqn:Hen; [|done]. exfalso.
    assert (Hin : en ∈ omap energy (filter (λ x, key x = k) (optimizations (td_orm s)))).
    { apply list_elem_of_omap. exists x. split; [|done]. by apply list_elem_of_filter. }
    unfold energy in *. destruct (omap _ _); [by apply elem_of_nil in Hin|done].
Qed.

End TorsiondriveEnergies.

(** ** The small torsiondrive service: constraints, results, failures *)

Lemma grid_point_constraints_witness :
  Torsiondrive.set_values
    (Torsiondrive.dihedral_template
       (Torsiondrive.service_state (Torsiondrive.service_orm TorsiondriveExample.middle)))
    (Torsiondrive.enumerate (TorsiondriveExample.grid_id_from_string "90"))
    TorsiondriveExample.middle
  = (Ok [Torsiondrive.mkConstraint "dihedral" [0; 1; 2; 3] (Some 90%Z)],
     TorsiondriveExample.middle).
Proof.
  exact (proj1 (grid_point_constraints TorsiondriveExample.root_socket
                  (Torsiondrive.service_state
                     (Torsiondrive.service_orm TorsiondriveExample.middle))
                  (Torsiondrive.optimization_specification
                     (Torsiondrive.td_orm TorsiondriveExample.middle))
                  "90" [] TorsiondriveExample.middle)).
Defined.

Lemma example_ask_final :
  Torsiondrive.ask_torsiondrive TorsiondriveExample.root_socket TorsiondriveExample.final
    = (Ok ((TorsiondriveExample.answer TorsiondriveExample.final).1.1,
           (TorsiondriveExample.answer TorsiondriveExample.final).1.2,
           (TorsiondriveExample.answer TorsiondriveExample.final).2),
       TorsiondriveExample.asked TorsiondriveExample.final).
Proof. vm_compute. reflexivity. Qed.

Lemma package_is_given_results_by_position_witness :
  ∃ task_results printed,
    TorsiondriveExample.update_state
      (Torsiondrive.torsiondrive_state
         (Torsiondrive.service_state (Torsiondrive.service_orm TorsiondriveExample.final)))
      task_results
      = (Ok (Torsiondrive.torsiondrive_state
               (TorsiondriveExample.answer TorsiondriveExample.final).1.1), printed) ∧
    ∀ k,
      match dict_get k task_results with
      | Some results =>
          results ≠ [] ∧
          Forall2 (result_of TorsiondriveExample.root_socket)
            (tasks_of_key k
               (Torsiondrive.dependencies (Torsiondrive.service_orm TorsiondriveExample.final)))
            results
      | None =>
          tasks_of_key k
            (Torsiondrive.dependencies (Torsiondrive.service_orm TorsiondriveExample.final))
          = []
      end.
Proof.
  exact (package_is_given_results_by_position TorsiondriveExample.root_socket
           TorsiondriveExample.final _ _ _ _ example_ask_final).
Defined.

Lemma example_inconsistent :
  Torsiondrive.iterate_service TorsiondriveExample.root_socket TorsiondriveFailing.inconsistent
  = (Raise (RuntimeError
              "Minimum energies reported by the torsiondrive package do not match ours!"),
     (Torsiondrive.iterate_service TorsiondriveExample.root_socket
        TorsiondriveFailing.inconsistent).2).
Proof. vm_compute. reflexivity. Qed.

Lemma failed_iteration_stores_nothing_witness :
  Torsiondrive.service_state
    (Torsiondrive.service_orm
       (Torsiondrive.iterate_service TorsiondriveExample.root_socket
          TorsiondriveFailing.inconsistent).2)
  = Torsiondrive.service_state (Torsiondrive.service_orm TorsiondriveFailing.inconsistent) ∧
  Torsiondrive.stdout
    <$> Torsiondrive.compute_history
          (Torsiondrive.td_orm
             (Torsiondrive.iterate_service TorsiondriveExample.root_socket
                TorsiondriveFailing.inconsistent).2)
  = ["started"].
Proof.
  destruct (failed_iteration_stores_nothing TorsiondriveExample.root_socket
              TorsiondriveFailing.inconsistent _ _ example_inconsistent)
    as (Hstate & Hout & _).
  split; [exact Hstate|]. rewrite Hout. reflexivity.
Defined.

Lemma failed_submission_witness :
  Torsiondrive._submit_optimizations TorsiondriveExample.root_socket
    (TorsiondriveExample.answer TorsiondriveFailing.closed).1.1
    [("90", [[11]; [13]]%Z)]
    (TorsiondriveExample.asked TorsiondriveFailing.closed)
  = (Raise (RuntimeError
              "Error adding optimizations - likely a developer error: no such tag"),
     Torsiondrive.set_service_orm
       (Torsiondrive.set_dependencies []
          (Torsiondrive.service_orm (TorsiondriveExample.asked TorsiondriveFailing.closed)))
       (TorsiondriveExample.asked TorsiondriveFailing.closed)).
Proof.
  refine (proj1 (failed_submission TorsiondriveExample.root_socket
                   (TorsiondriveExample.answer TorsiondriveFailing.closed).1.1
                   [] "90" [[11]; [13]]%Z []
                   (TorsiondriveExample.asked TorsiondriveFailing.closed)
                   (Torsiondrive.set_service_orm
                      (Torsiondrive.set_dependencies []
                         (Torsiondrive.service_orm
                            (TorsiondriveExample.asked TorsiondriveFailing.closed)))
                      (TorsiondriveExample.asked TorsiondriveFailing.closed))
                   (Torsiondrive.mkInsertMetadata false "no such tag") []
                   TorsiondriveExample.rows _ _ _ _)).
  - vm_compute. reflexivity.
  - vm_compute. lia.
  - vm_compute. reflexivity.
  - reflexivity.
Defined.

Lemma final_energies_are_the_lowest_witness :
  Torsiondrive.lowest_energies TorsiondriveExample.root_socket
    (TorsiondriveExample.answer TorsiondriveExample.final).1.1 !! "[0]" = Some (Some 3%Z) ∧
  (∃ x, x ∈ Torsiondrive.optimizations
              (Torsiondrive.td_orm (TorsiondriveExample.asked TorsiondriveExample.final)) ∧
        Torsiondrive.key x = "[0]" ∧
        TorsiondriveExample.optimization_energy
          (Torsiondrive.database (TorsiondriveExample.asked TorsiondriveExample.final))
          (Torsiondrive.optimization_id x) = Some 3%Z) ∧
  ∀ x en',
    x ∈ Torsiondrive.optimizations
          (Torsiondrive.td_orm (TorsiondriveExample.asked TorsiondriveExample.final)) →
    Torsiondrive.key x = "[0]" →
    TorsiondriveExample.optimization_energy
      (Torsiondrive.database (TorsiondriveExample.asked TorsiondriveExample.final))
      (Torsiondrive.optimization_id x) = Some en' →
    (en' <? 3)%Z = false.
Proof.
  assert (Hlowest :
    Torsiondrive.lowest_energies TorsiondriveExample.root_socket
      (TorsiondriveExample.answer TorsiondriveExample.final).1.1 !! "[0]" = Some (Some 3%Z))
    by (vm_compute; reflexivity).
  split; [exact Hlowest|].
  pose proof (final_energies_are_the_lowest TorsiondriveExample.root_socket
                (TorsiondriveExample.answer TorsiondriveExample.final).1.1
                (TorsiondriveExample.asked TorsiondriveExample.final)
                (TorsiondriveExample.asked TorsiondriveExample.final) "[0]"
                Z.ltb_irrefl) as Hthm.
  change (Torsiondrive.lowest_energies _ _ !! "[0]") with (Some (Some 3%Z)) in Hthm.
  apply Hthm.
  - intros x y z Hxy Hyz. apply Z.ltb_lt. apply Z.ltb_lt in Hxy, Hyz. lia.
  - vm_compute. reflexivity.
Defined.
(** ** Torsiondrive records: [add_internal] *)

Lemma sorted_set_sorted l : StronglySorted (≤) (sorted_set l).
Proof. apply (StronglySorted_merge_sort (≤)). Qed.

Lemma sorted_set_perm l : sorted_set l ≡ₚ remove_dups l.
Proof. apply merge_sort_Permutation. Qed.

Lemma elem_of_sorted_set l x : x ∈ sorted_set l ↔ x ∈ l.
Proof. by rewrite sorted_set_perm, elem_of_remove_dups. Qed.

Lemma sorted_set_NoDup l : NoDup (sorted_set l).
Proof. rewrite sorted_set_perm. apply NoDup_remove_dups. Qed.

Lemma sorted_set_ext l1 l2 : (∀ x, x ∈ l1 ↔ x ∈ l2) → sorted_set l1 = sorted_set l2.
Proof.
  intros Hsame. apply (StronglySorted_unique (≤)); try apply sorted_set_sorted.
  apply NoDup_Permutation; try apply sorted_set_NoDup.
  intros x. by rewrite !elem_of_sorted_set.
Qed.

Lemma merge_sort_sorted_set l : merge_sort (≤) (sorted_set l) = sorted_set l.
Proof.
  apply (StronglySorted_unique (≤)).
  - apply (StronglySorted_merge_sort (≤)).
  - apply sorted_set_sorted.
  - apply merge_sort_Permutation.
Qed.

Lemma sorted_set_nil l : sorted_set l = [] ↔ l = [].
Proof.
  split; [|by intros ->].
  intros Hnil. destruct l as [|x l]; [done|].
  assert (Hx : x ∈ sorted_set (x :: l)) by (apply elem_of_sorted_set; left).
  rewrite Hnil in Hx. by apply elem_of_nil in Hx.
Qed.

Section AddInternal.
Import TorsiondriveAdd.
Context (answers : Answers).

Lemma unchanged_records_refl t : unchanged_records t t.
Proof. by intros id td_orm H. Qed.

Lemma unchanged_records_trans t1 t2 t3 :
  unchanged_records t1 t2 → unchanged_records t2 t3 → unchanged_records t1 t3.
Proof.
  intros H12 H23 id td_orm H. destruct (H12 _ _ H) as [H2 M2].
  destruct (H23 _ _ H2) as [H3 M3]. split; [done|congruence].
Qed.

Lemma is_record_for_unchanged t t' td_spec_id mol_ids id :
  unchanged_records t t' →
  is_record_for t td_spec_id mol_ids id → is_record_for t' td_spec_id mol_ids id.
Proof.
  intros Hsame [(td_orm & Hrow & Hspec) Hmols]. destruct (Hsame _ _ Hrow) as [Hrow' Hm].
  split; [by exists td_orm|]. by rewrite Hm.
Qed.

Lemma unchanged_records_locked t : unchanged_records t (locked t).
Proof. by intros id td_orm H. Qed.

Lemma consistent_locked t : consistent t → consistent (locked t).
Proof. by intros (H1 & H2 & H3). Qed.

(** A record that is joined with its molecules is a row of [init_mol_cte]. *)
Lemma elem_of_init_mol_cte t id sp ms :
  (id, sp, ms) ∈ init_mol_cte t ↔
  ∃ td_orm, torsiondrive_record t !! id = Some td_orm ∧ specification_id td_orm = sp ∧
            ms = merge_sort (≤) (initial_molecules t id) ∧ ms ≠ [].
Proof.
  unfold init_mol_cte. rewrite list_elem_of_omap. split.
  - intros ([id' td_orm] & Hin%elem_of_map_to_list & Hrow). simpl in Hrow.
    destruct (merge_sort (≤) (initial_molecules t id')) as [|m ms'] eqn:Hms; [done|].
    injection Hrow as <- <- <-. exists td_orm. by rewrite Hms.
  - intros (td_orm & Hrow & <- & -> & Hne). exists (id, td_orm). split.
    + by apply elem_of_map_to_list.
    + simpl. by destruct (merge_sort (≤) (initial_molecules t id)).
Qed.

(** What the query of [add_internal] finds is a record for the specification
    and the molecules; it finds one when there is one with molecules. *)
Lemma select_existing_found t td_spec_id mol_ids id :
  first_is_a_row answers →
  select_existing answers td_spec_id (sorted_set mol_ids) t = (Ok (Some id), t) →
  is_record_for t td_spec_id mol_ids id.
Proof.
  intros Hfirst Hsel. unfold select_existing, gets in Hsel. injection Hsel as Hsel.
  specialize (Hfirst ((λ row : nat * option nat * list nat, row.1.1)
     <$> filter (λ row, row.1.2 = td_spec_id ∧ row.2 = sorted_set mol_ids) (init_mol_cte t))).
  rewrite Hsel in Hfirst.
  apply list_elem_of_fmap in Hfirst as ([[id' sp] ms] & -> & [[Hsp Hms] Hin]%list_elem_of_filter).
  simpl in *. subst. apply elem_of_init_mol_cte in Hin as (td_orm & Hrow & Hsp & Hms & _).
  split; [by exists td_orm|]. by rewrite <- Hms.
Qed.

Lemma select_existing_finds t td_spec_id mol_ids id0 :
  first_is_a_row answers →
  consistent t →
  mol_ids ≠ [] →
  is_record_for t td_spec_id mol_ids id0 →
  ∃ id, select_existing answers td_spec_id (sorted_set mol_ids) t = (Ok (Some id), t) ∧
        not_existing (Some id) = false.
Proof.
  intros Hfirst (Hids & _ & _) Hne [(td_orm & Hrow & Hspec) Hmols].
  unfold select_existing, gets.
  set (rows := (λ row : nat * option nat * list nat, row.1.1)
     <$> filter (λ row, row.1.2 = td_spec_id ∧ row.2 = sorted_set mol_ids) (init_mol_cte t)).
  assert (Hin0 : id0 ∈ rows).
  { apply list_elem_of_fmap. exists (id0, td_spec_id, sorted_set mol_ids). split; [done|].
    apply list_elem_of_filter. split; [done|]. apply elem_of_init_mol_cte.
    exists td_orm. split_and!; [done|done|done|]. by rewrite sorted_set_nil. }
  specialize (Hfirst rows). destruct (first answers rows) as [id|] eqn:Hsel.
  - exists id. split; [done|]. simpl. apply bool_decide_eq_false.
    apply list_elem_of_fmap in Hfirst as ([[id' sp] ms] & -> & [_ Hin]%list_elem_of_filter).
    apply elem_of_init_mol_cte in Hin as (td_orm' & Hrow' & _). simpl.
    destruct (Hids id'); [by eexists|lia].
  - rewrite Hfirst in Hin0. by apply elem_of_nil in Hin0.
Qed.


Lemma insert_new_run td_spec_id as_service tag priority owner_user owner_group find
    found idx mol_ids t :
  consistent t →
  insert_new td_spec_id as_service tag priority owner_user owner_group find found idx mol_ids t =
  (Ok (mkFound (td_ids found ++ [record_id_seq t]) (found_inserted_idx found ++ [idx])
         (found_existing_idx found)),
   with_record t
     (mkTorsiondriveRecordORM as_service td_spec_id RecordStatusEnum.waiting owner_user
        owner_group (Some (mkServiceQueueORM tag priority find)))
     mol_ids).
Proof.
  intros (Hids & _ & _). unfold insert_new. rewrite bind_run. unfold add_record at 1.
  destruct (torsiondrive_record t !! record_id_seq t) as [old|] eqn:Hold.
  { destruct (Hids (record_id_seq t)); [by eexists|lia]. }
  reflexivity.
Qed.

Lemma consistent_with_record t td_orm mol_ids :
  consistent t → consistent (with_record t td_orm mol_ids).
Proof.
  intros (Hids & Hpos & Hmols). split_and!; simpl.
  - intros id [row Hrow]. destruct (decide (id = record_id_seq t)) as [->|Hne]; [lia|].
    rewrite lookup_insert_ne in Hrow by done. destruct (Hids id); [by eexists|lia].
  - lia.
  - intros x [Hx|Hx]%elem_of_app.
    + destruct (Hmols x Hx) as [row Hrow].
      destruct (decide (torsiondrive_id x = record_id_seq t)) as [->|Hne].
      * rewrite lookup_insert_eq. by eexists.
      * rewrite lookup_insert_ne by done. by eexists.
    + apply list_elem_of_fmap in Hx as (mid & -> & _). simpl.
      rewrite lookup_insert_eq. by eexists.
Qed.

Lemma initial_molecules_with_record t td_orm mol_ids id :
  consistent t →
  initial_molecules (with_record t td_orm mol_ids) id =
  if decide (id = record_id_seq t) then mol_ids else initial_molecules t id.
Proof.
  intros (Hids & Hpos & Hmols). unfold initial_molecules. simpl.
  rewrite filter_app, fmap_app.
  destruct (decide (id = record_id_seq t)) as [->|Hne].
  - replace (filter (λ x, torsiondrive_id x = record_id_seq t) (torsiondrive_initial_molecule t))
      with (@nil TorsiondriveInitialMoleculeORM).
    + simpl. induction mol_ids as [|m l IH]; [done|].
      rewrite fmap_cons, filter_cons_True by done. rewrite fmap_cons. by f_equal.
    + symmetry. apply filter_none, Forall_forall. intros x Hx Heq.
      destruct (Hids (torsiondrive_id x)); [by apply Hmols|lia].
  - replace (filter (λ x, torsiondrive_id x = id)
               ((λ mid, mkTorsiondriveInitialMoleculeORM mid (record_id_seq t)) <$> mol_ids))
      with (@nil TorsiondriveInitialMoleculeORM).
    + by rewrite app_nil_r.
    + symmetry. apply filter_none, Forall_forall.
      intros x (mid & -> & _)%list_elem_of_fmap. simpl. congruence.
Qed.

Lemma unchanged_with_record t td_orm mol_ids :
  consistent t → unchanged_records t (with_record t td_orm mol_ids).
Proof.
  intros Hc id row Hrow.
  assert (Hne : id ≠ record_id_seq t).
  { destruct Hc as (Hids & _). destruct (Hids id); [by eexists|lia]. }
  split.
  - simpl. by rewrite lookup_insert_ne.
  - rewrite initial_molecules_with_record by done. by rewrite decide_False.
Qed.

Lemma is_record_for_with_record t td_orm mol_ids :
  consistent t →
  is_record_for (with_record t td_orm (sorted_set mol_ids)) (specification_id td_orm) mol_ids
    (record_id_seq t).
Proof.
  intros Hc. split.
  - exists td_orm. simpl. by rewrite lookup_insert_eq.
  - rewrite initial_molecules_with_record, decide_True by done. apply merge_sort_sorted_set.
Qed.


Lemma add_always_adds td_spec_id as_service tag priority owner_user owner_group find :
  adds_or_finds
    (mkTorsiondriveRecordORM as_service td_spec_id RecordStatusEnum.waiting owner_user
       owner_group (Some (mkServiceQueueORM tag priority find)))
    (add_always td_spec_id as_service tag priority owner_user owner_group find).
Proof. intros found idx mol_ids t Hc. left. unfold add_always. by apply insert_new_run. Qed.

Lemma add_or_find_adds_or_finds td_spec_id as_service tag priority owner_user owner_group find :
  first_is_a_row answers →
  adds_or_finds
    (mkTorsiondriveRecordORM as_service td_spec_id RecordStatusEnum.waiting owner_user
       owner_group (Some (mkServiceQueueORM tag priority find)))
    (add_or_find answers td_spec_id as_service tag priority owner_user owner_group find).
Proof.
  intros Hfirst found idx mol_ids t Hc. unfold add_or_find. rewrite bind_run.
  destruct (select_existing answers td_spec_id (sorted_set mol_ids) t) as [r t1] eqn:Hsel.
  assert (t1 = t) as -> by (unfold select_existing, gets in Hsel; congruence).
  destruct r as [existing|e]; [|unfold select_existing, gets in Hsel; congruence].
  destruct (not_existing existing) eqn:Hnot.
  - left. by apply insert_new_run.
  - right. destruct existing as [id|]; [|done]. exists id. split; [done|].
    by apply select_existing_found.
Qed.

Lemma add_or_find_finds td_spec_id as_service tag priority owner_user owner_group find
    found idx mol_ids t id0 :
  first_is_a_row answers →
  consistent t →
  mol_ids ≠ [] →
  is_record_for t td_spec_id mol_ids id0 →
  ∃ id,
    add_or_find answers td_spec_id as_service tag priority owner_user owner_group find
      found (idx, mol_ids) t =
      (Ok (mkFound (td_ids found ++ [id]) (found_inserted_idx found)
             (found_existing_idx found ++ [idx])), t) ∧
    is_record_for t td_spec_id mol_ids id.
Proof.
  intros Hfirst Hc Hne Hrec.
  destruct (select_existing_finds t td_spec_id mol_ids id0 Hfirst Hc Hne Hrec)
    as (id & Hsel & Hnot).
  exists id. split.
  - unfold add_or_find. rewrite bind_run, Hsel, Hnot. done.
  - by apply select_existing_found.
Qed.

Lemma imap_shift {A} (off : nat) (l : list A) :
  imap ((λ i x, (off + i, x)) ∘ S) l = imap (λ i x, (S off + i, x)) l.
Proof. apply imap_ext. intros i x _. simpl. f_equal. lia. Qed.

Lemma fold_M_app {St A B} (body : B → A → M St B) acc (l1 l2 : list A) s :
  fold_M body acc (l1 ++ l2) s =
  match fold_M body acc l1 s with
  | (Ok acc', s') => fold_M body acc' l2 s'
  | (Raise e, s') => (Raise e, s')
  end.
Proof.
  revert acc s. induction l1 as [|x l1 IH]; intros acc s; [done|].
  simpl. rewrite !bind_run. destruct (body acc x s) as [[acc'|e] s']; [apply IH|done].
Qed.

(** The loop of [add_internal]. *)
Lemma fold_adds_or_finds td_orm body sets :
  adds_or_finds td_orm body →
  ∀ off found t,
    consistent t →
    ∃ ids ins exi t',
      fold_M body found (imap (λ i x, (off + i, x)) sets) t =
        (Ok (mkFound (td_ids found ++ ids) (found_inserted_idx found ++ ins)
               (found_existing_idx found ++ exi)), t') ∧
      consistent t' ∧
      unchanged_records t t' ∧
      length ids = length sets ∧
      (∀ i mol_ids id, sets !! i = Some mol_ids → ids !! i = Some id →
         is_record_for t' (specification_id td_orm) mol_ids id) ∧
      ins ++ exi ≡ₚ seq off (length sets) ∧
      (∀ id, torsiondrive_record t' !! id =
             if decide (record_id_seq t ≤ id < record_id_seq t + length ins)
             then Some td_orm else torsiondrive_record t !! id) ∧
      record_id_seq t' = record_id_seq t + length ins ∧
      (∀ k i, ins !! k = Some i →
         off ≤ i ∧ ids !! (i - off) = Some (record_id_seq t + k)) ∧
      torsiondrive_optimization t' = torsiondrive_optimization t ∧
      advisory_locks t' = advisory_locks t ∧
      (ins = [] → t' = t).
Proof.
  intros Hbody. induction sets as [|mol_ids sets IH]; intros off found t Hc.
  { exists [], [], [], t. simpl. rewrite !app_nil_r. destruct found.
    split_and!; try done; try lia; try apply unchanged_records_refl.
    intros id. rewrite decide_False by lia. done. }
  simpl. rewrite bind_run, imap_shift.
  destruct (Hbody found (off + 0) mol_ids t Hc) as [Hrun|(id0 & Hrun & Hrec)]; rewrite Hrun.
  - pose proof (consistent_with_record t td_orm (sorted_set mol_ids) Hc) as Hc1.
    destruct (IH (S off) (mkFound (td_ids found ++ [record_id_seq t])
                 (found_inserted_idx found ++ [off + 0]) (found_existing_idx found)) _ Hc1)
      as (ids & ins & exi & t' & Hloop & Hc' & Hsame & Hlen & Hrecs & Hperm & Hrows & Hseq &
          Hins & Hopt & Hlocks & _).
    cbn [td_ids found_inserted_idx found_existing_idx] in Hloop.
    simpl in Hseq, Hrows, Hins.
    exists (record_id_seq t :: ids), (off + 0 :: ins), exi, t'.
    split_and!.
    + cbv beta iota. rewrite Hloop. by rewrite <- !app_assoc.
    + done.
    + eapply unchanged_records_trans; [by apply unchanged_with_record|done].
    + simpl. by rewrite Hlen.
    + intros [|i] mols id Hset Hid; simpl in Hset, Hid.
      * injection Hset as <-. injection Hid as <-.
        eapply is_record_for_unchanged; [done|]. by apply is_record_for_with_record.
      * eauto.
    + simpl. rewrite Nat.add_0_r. by constructor.
    + intros id. rewrite Hrows. simpl.
      destruct (decide (id = record_id_seq t)) as [->|Hne].
      * rewrite lookup_insert_eq. repeat case_decide; done || lia.
      * rewrite lookup_insert_ne by done. repeat case_decide; done || lia.
    + simpl. lia.
    + intros [|k] i Hk; simpl in Hk.
      * injection Hk as <-. split; [lia|]. replace (off + 0 - off) with 0 by lia.
        simpl. f_equal. lia.
      * destruct (Hins k i Hk) as [Hle Hid]. split; [lia|].
        replace (i - off) with (S (i - S off)) by lia. simpl. rewrite Hid. f_equal. lia.
    + by rewrite Hopt.
    + by rewrite Hlocks.
    + done.
  - destruct (IH (S off) (mkFound (td_ids found ++ [id0]) (found_inserted_idx found)
                 (found_existing_idx found ++ [off + 0])) _ Hc)
      as (ids & ins & exi & t' & Hloop & Hc' & Hsame & Hlen & Hrecs & Hperm & Hrows & Hseq &
          Hins & Hopt & Hlocks & Hnone).
    cbn [td_ids found_inserted_idx found_existing_idx] in Hloop.
    exists (id0 :: ids), ins, (off + 0 :: exi), t'.
    split_and!; try done.
    + cbv beta iota. rewrite Hloop. by rewrite <- !app_assoc.
    + simpl. by rewrite Hlen.
    + intros [|i] mols id Hset Hid; simpl in Hset, Hid.
      * injection Hset as <-. injection Hid as <-.
        by eapply is_record_for_unchanged.
      * eauto.
    + simpl. rewrite Nat.add_0_r. rewrite <- Permutation_middle. by constructor.
    + intros k i Hk. destruct (Hins k i Hk) as [Hle Hid]. split; [lia|].
      replace (i - off) with (S (i - S off)) by lia. done.
Qed.


Lemma add_internal_run sets td_spec_id as_service tag priority owner_user owner_group find t :
  first_is_a_row answers →
  consistent t →
  assert_group_member answers owner_user owner_group = None →
  ∃ ids ins exi t',
    add_internal answers sets td_spec_id as_service tag priority owner_user owner_group find t =
      (Ok (mkInsertMetadata None [] ins exi, ids), t') ∧
    consistent t' ∧
    unchanged_records t t' ∧
    length ids = length sets ∧
    (∀ i mol_ids id, sets !! i = Some mol_ids → ids !! i = Some id →
       is_record_for t' td_spec_id mol_ids id) ∧
    ins ++ exi ≡ₚ seq 0 (length sets) ∧
    (∀ id, torsiondrive_record t' !! id =
           if decide (record_id_seq t ≤ id < record_id_seq t + length ins)
           then Some (new_record td_spec_id as_service tag priority owner_user owner_group find)
           else torsiondrive_record t !! id) ∧
    record_id_seq t' = record_id_seq t + length ins ∧
    (∀ k i, ins !! k = Some i → ids !! i = Some (record_id_seq t + k)) ∧
    torsiondrive_optimization t' = torsiondrive_optimization t ∧
    advisory_locks t' = advisory_locks t ++ [torsiondrive_insert_lock_id] ∧
    (ins = [] → t' = locked t).
Proof.
  intros Hfirst Hc Hassert. unfold add_internal. rewrite Hassert, bind_run.
  unfold lock at 1, modify. cbv beta iota. fold (locked t). rewrite bind_run.
  unfold Torsiondrive.enumerate.
  change (imap (λ i x, (i, x)) sets) with (imap (λ (i : nat) (x : list nat), (0 + i, x)) sets).
  pose proof (consistent_locked t Hc) as Hcl.
  assert (Hloop : ∃ ids ins exi t',
    (if find
     then fold_M (add_or_find answers td_spec_id as_service (lower tag) priority owner_user
                    owner_group find) (mkFound [] [] [])
            (imap (λ (i : nat) (x : list nat), (0 + i, x)) sets)
     else fold_M (add_always td_spec_id as_service (lower tag) priority owner_user
                    owner_group find) (mkFound [] [] [])
            (imap (λ (i : nat) (x : list nat), (0 + i, x)) sets)) (locked t) =
      (Ok (mkFound ids ins exi), t') ∧
    consistent t' ∧
    unchanged_records (locked t) t' ∧
    length ids = length sets ∧
    (∀ i mol_ids id, sets !! i = Some mol_ids → ids !! i = Some id →
       is_record_for t' td_spec_id mol_ids id) ∧
    ins ++ exi ≡ₚ seq 0 (length sets) ∧
    (∀ id, torsiondrive_record t' !! id =
           if decide (record_id_seq t ≤ id < record_id_seq t + length ins)
           then Some (new_record td_spec_id as_service tag priority owner_user owner_group find)
           else torsiondrive_record t !! id) ∧
    record_id_seq t' = record_id_seq t + length ins ∧
    (∀ k i, ins !! k = Some i → 0 ≤ i ∧ ids !! (i - 0) = Some (record_id_seq t + k)) ∧
    torsiondrive_optimization t' = torsiondrive_optimization t ∧
    advisory_locks t' = advisory_locks t ++ [torsiondrive_insert_lock_id] ∧
    (ins = [] → t' = locked t)).
  { destruct find.
    - destruct (fold_adds_or_finds _ _ sets
        (add_or_find_adds_or_finds td_spec_id as_service (lower tag) priority owner_user
           owner_group true Hfirst) 0 (mkFound [] [] []) (locked t) Hcl)
        as (ids & ins & exi & t' & H). exists ids, ins, exi, t'. exact H.
    - destruct (fold_adds_or_finds _ _ sets
        (add_always_adds td_spec_id as_service (lower tag) priority owner_user
           owner_group false) 0 (mkFound [] [] []) (locked t) Hcl)
        as (ids & ins & exi & t' & H). exists ids, ins, exi, t'. exact H. }
  destruct Hloop as (ids & ins & exi & t' & Hloop & Hc' & Hsame & Hlen & Hrecs & Hperm & Hrows &
                     Hseq & Hins & Hopt & Hlocks & Hnone).
  exists ids, ins, exi, t'. rewrite Hloop. split_and!; try done.
  intros k i Hk. destruct (Hins k i Hk) as [_ Hid]. by rewrite Nat.sub_0_r in Hid.
Qed.


Lemma fold_add_always td_spec_id as_service tag priority owner_user owner_group find sets :
  ∀ off found t,
    consistent t →
    ∃ t',
      fold_M (add_always td_spec_id as_service tag priority owner_user owner_group find) found
        (imap (λ i x, (off + i, x)) sets) t =
        (Ok (mkFound (td_ids found ++ seq (record_id_seq t) (length sets))
               (found_inserted_idx found ++ seq off (length sets))
               (found_existing_idx found)), t') ∧
      consistent t' ∧
      unchanged_records t t' ∧
      ∀ i mol_ids, sets !! i = Some mol_ids →
        torsiondrive_record t' !! (record_id_seq t + i) =
          Some (mkTorsiondriveRecordORM as_service td_spec_id RecordStatusEnum.waiting
                  owner_user owner_group (Some (mkServiceQueueORM tag priority find))) ∧
        initial_molecules t' (record_id_seq t + i) = sorted_set mol_ids.
Proof.
  induction sets as [|mol_ids sets IH]; intros off found t Hc.
  { exists t. simpl. rewrite !app_nil_r. destruct found. split_and!; try done. }
  simpl. rewrite bind_run, imap_shift. unfold add_always at 1.
  rewrite insert_new_run by done.
  set (td_orm := mkTorsiondriveRecordORM as_service td_spec_id RecordStatusEnum.waiting
                   owner_user owner_group (Some (mkServiceQueueORM tag priority find))).
  pose proof (consistent_with_record t td_orm (sorted_set mol_ids) Hc) as Hc1.
  destruct (IH (S off) (mkFound (td_ids found ++ [record_id_seq t])
               (found_inserted_idx found ++ [off + 0]) (found_existing_idx found)) _ Hc1)
    as (t' & Hloop & Hc' & Hsame & Hrecs).
  cbn [td_ids found_inserted_idx found_existing_idx] in Hloop.
  exists t'. split_and!.
  - cbv beta iota. etrans; [exact Hloop|]. rewrite <- !app_assoc. simpl.
    by rewrite Nat.add_0_r.
  - done.
  - eapply unchanged_records_trans; [by apply unchanged_with_record|done].
  - intros [|i] mols Hset; simpl in Hset.
    + injection Hset as <-. rewrite Nat.add_0_r.
      destruct (Hsame (record_id_seq t) td_orm) as [Hrow Hmols].
      { simpl. by rewrite lookup_insert_eq. }
      split; [done|]. rewrite Hmols, initial_molecules_with_record by done.
      by rewrite decide_True.
    + destruct (Hrecs i mols Hset) as [Hrow Hmols]. simpl in Hrow, Hmols.
      by rewrite <- Nat.add_succ_comm.
Qed.

End AddInternal.

Lemma example_first_is_a_row : TorsiondriveAdd.first_is_a_row TorsiondriveAddExample.answers.
Proof. intros [|row rows]; simpl; [done|left]. Qed.

Lemma example_tables_consistent : TorsiondriveAdd.consistent TorsiondriveAddExample.tables.
Proof.
  split_and!; simpl.
  - intros id [row Hrow]. apply lookup_singleton_Some in Hrow as [<- _]. lia.
  - lia.
  - apply Forall_forall. repeat constructor; eexists; vm_compute; reflexivity.
Qed.

(** X13.  Under the invariants of the tables, and for an owner that is a
    member of the group, [add_internal] returns, without an error, one id for
    each set of molecules, in the order of the sets; the id is that of a
    record with the specification asked for, and [get_initial_molecules_ids]
    of it gives the molecules of the set, each once. *)
Theorem add_internal_returns_records answers sets td_spec_id as_service tag priority
    owner_user owner_group find t :
  TorsiondriveAdd.first_is_a_row answers →
  TorsiondriveAdd.consistent t →
  TorsiondriveAdd.assert_group_member answers owner_user owner_group = None →
  ∃ meta ids t',
    TorsiondriveAdd.add_internal answers sets td_spec_id as_service tag priority owner_user
      owner_group find t = (Ok (meta, ids), t') ∧
    TorsiondriveAdd.error_description meta = None ∧
    TorsiondriveAdd.errors meta = [] ∧
    length ids = length sets ∧
    ∀ i mol_ids, sets !! i = Some mol_ids →
      ∃ id td_orm got,
        ids !! i = Some id ∧
        TorsiondriveAdd.torsiondrive_record t' !! id = Some td_orm ∧
        TorsiondriveAdd.specification_id td_orm = td_spec_id ∧
        TorsiondriveAdd.get_initial_molecules_ids id t' = (Ok got, t') ∧
        NoDup got ∧ ∀ m, m ∈ got ↔ m ∈ mol_ids.
Proof.
  intros Hfirst Hc Hassert.
  destruct (add_internal_run answers sets td_spec_id as_service tag priority owner_user
              owner_group find t Hfirst Hc Hassert)
    as (ids & ins & exi & t' & Hrun & _ & _ & Hlen & Hrecs & _).
  exists (TorsiondriveAdd.mkInsertMetadata None [] ins exi), ids, t'.
  split_and!; try done.
  intros i mol_ids Hset.
  destruct (lookup_lt_is_Some_2 ids i) as [id Hid].
  { rewrite Hlen. by eapply lookup_lt_Some. }
  destruct (Hrecs i mol_ids id Hset Hid) as [(td_orm & Hrow & Hspec) Hmols].
  exists id, td_orm, (TorsiondriveAdd.initial_molecules t' id).
  split_and!; try done.
  - unfold TorsiondriveAdd.get_initial_molecules_ids. by rewrite Hrow.
  - rewrite <- (merge_sort_Permutation (≤) (TorsiondriveAdd.initial_molecules t' id)), Hmols.
    apply sorted_set_NoDup.
  - intros m.
    rewrite <- (merge_sort_Permutation (≤) (TorsiondriveAdd.initial_molecules t' id)), Hmols.
    apply elem_of_sorted_set.
Qed.

Lemma add_internal_returns_records_witness :
  ∃ meta ids t',
    TorsiondriveAdd.add_internal TorsiondriveAddExample.answers [[7; 3; 7]; [4]; [3; 7]]
      (Some 5) true "Tag" 1%Z None None true TorsiondriveAddExample.tables =
      (Ok (meta, ids), t') ∧
    TorsiondriveAdd.error_description meta = None ∧
    TorsiondriveAdd.errors meta = [] ∧
    length ids = length [[7; 3; 7]; [4]; [3; 7]] ∧
    ∀ i mol_ids, [[7; 3; 7]; [4]; [3; 7]] !! i = Some mol_ids →
      ∃ id td_orm got,
        ids !! i = Some id ∧
        TorsiondriveAdd.torsiondrive_record t' !! id = Some td_orm ∧
        TorsiondriveAdd.specification_id td_orm = Some 5 ∧
        TorsiondriveAdd.get_initial_molecules_ids id t' = (Ok got, t') ∧
        NoDup got ∧ ∀ m, m ∈ got ↔ m ∈ mol_ids.
Proof.
  apply (add_internal_returns_records TorsiondriveAddExample.answers).
  - exact example_first_is_a_row.
  - exact example_tables_consistent.
  - reflexivity.
Defined.

(** X14.  What [add_internal] leaves in the tables: every set is either
    inserted or existing; the records are those of before and one new record
    for each inserted set, which is waiting, has the owner, the specification
    and a service with the tag in lower case, and whose id is the next of the
    sequence; the old records keep their molecules; no optimization is
    touched; the advisory lock of the insertion is taken; and the tables are
    consistent again. *)
Theorem add_internal_new_records answers sets td_spec_id as_service tag priority
    owner_user owner_group find t :
  TorsiondriveAdd.first_is_a_row answers →
  TorsiondriveAdd.consistent t →
  TorsiondriveAdd.assert_group_member answers owner_user owner_group = None →
  ∃ meta ids t',
    TorsiondriveAdd.add_internal answers sets td_spec_id as_service tag priority owner_user
      owner_group find t = (Ok (meta, ids), t') ∧
    TorsiondriveAdd.inserted_idx meta ++ TorsiondriveAdd.existing_idx meta
      ≡ₚ seq 0 (length sets) ∧
    (∀ id, TorsiondriveAdd.torsiondrive_record t' !! id =
           if decide (TorsiondriveAdd.record_id_seq t ≤ id <
                      TorsiondriveAdd.record_id_seq t
                      + length (TorsiondriveAdd.inserted_idx meta))
           then Some (TorsiondriveAdd.new_record td_spec_id as_service tag priority
                        owner_user owner_group find)
           else TorsiondriveAdd.torsiondrive_record t !! id) ∧
    (∀ k i, TorsiondriveAdd.inserted_idx meta !! k = Some i →
       ids !! i = Some (TorsiondriveAdd.record_id_seq t + k)) ∧
    (∀ id, is_Some (TorsiondriveAdd.torsiondrive_record t !! id) →
       TorsiondriveAdd.initial_molecules t' id = TorsiondriveAdd.initial_molecules t id) ∧
    TorsiondriveAdd.record_id_seq t' =
      TorsiondriveAdd.record_id_seq t + length (TorsiondriveAdd.inserted_idx meta) ∧
    TorsiondriveAdd.torsiondrive_optimization t' = TorsiondriveAdd.torsiondrive_optimization t ∧
    TorsiondriveAdd.advisory_locks t' =
      TorsiondriveAdd.advisory_locks t ++ [TorsiondriveAdd.torsiondrive_insert_lock_id] ∧
    TorsiondriveAdd.consistent t'.
Proof.
  intros Hfirst Hc Hassert.
  destruct (add_internal_run answers sets td_spec_id as_service tag priority owner_user
              owner_group find t Hfirst Hc Hassert)
    as (ids & ins & exi & t' & Hrun & Hc' & Hsame & Hlen & Hrecs & Hperm & Hrows & Hseq &
        Hins & Hopt & Hlocks & _).
  exists (TorsiondriveAdd.mkInsertMetadata None [] ins exi), ids, t'.
  split_and!; try done.
  intros id [td_orm Hrow]. by destruct (Hsame id td_orm Hrow).
Qed.

Lemma add_internal_new_records_witness :
  ∃ meta ids t',
    TorsiondriveAdd.add_internal TorsiondriveAddExample.answers [[7; 3; 7]; [4]; [3; 7]]
      (Some 5) true "Tag" 1%Z None None true TorsiondriveAddExample.tables =
      (Ok (meta, ids), t') ∧
    TorsiondriveAdd.inserted_idx meta ++ TorsiondriveAdd.existing_idx meta
      ≡ₚ seq 0 (length [[7; 3; 7]; [4]; [3; 7]]) ∧
    (∀ id, TorsiondriveAdd.torsiondrive_record t' !! id =
           if decide (TorsiondriveAdd.record_id_seq TorsiondriveAddExample.tables ≤ id <
                      TorsiondriveAdd.record_id_seq TorsiondriveAddExample.tables
                      + length (TorsiondriveAdd.inserted_idx meta))
           then Some (TorsiondriveAdd.new_record (Some 5) true "Tag" 1%Z None None true)
           else TorsiondriveAdd.torsiondrive_record TorsiondriveAddExample.tables !! id) ∧
    (∀ k i, TorsiondriveAdd.inserted_idx meta !! k = Some i →
       ids !! i = Some (TorsiondriveAdd.record_id_seq TorsiondriveAddExample.tables + k)) ∧
    (∀ id, is_Some (TorsiondriveAdd.torsiondrive_record TorsiondriveAddExample.tables !! id) →
       TorsiondriveAdd.initial_molecules t' id =
       TorsiondriveAdd.initial_molecules TorsiondriveAddExample.tables id) ∧
    TorsiondriveAdd.record_id_seq t' =
      TorsiondriveAdd.record_id_seq TorsiondriveAddExample.tables
      + length (TorsiondriveAdd.inserted_idx meta) ∧
    TorsiondriveAdd.torsiondrive_optimization t' =
      TorsiondriveAdd.torsiondrive_optimization TorsiondriveAddExample.tables ∧
    TorsiondriveAdd.advisory_locks t' =
      TorsiondriveAdd.advisory_locks TorsiondriveAddExample.tables
      ++ [TorsiondriveAdd.torsiondrive_insert_lock_id] ∧
    TorsiondriveAdd.consistent t'.
Proof.
  apply (add_internal_new_records TorsiondriveAddExample.answers).
  - exact example_first_is_a_row.
  - exact example_tables_consistent.
  - reflexivity.
Defined.

(** X15.  Without [find_existing], [add_internal] adds a record for every
    set, whatever the tables hold: all indices are inserted, none is existing,
    the ids are the next ones of the sequence in the order of the sets, and
    [get_initial_molecules_ids] of the record of a set gives the molecules of
    the set, each once, in whatever order. *)
Theorem add_internal_always_adds answers sets td_spec_id as_service tag priority
    owner_user owner_group t :
  TorsiondriveAdd.consistent t →
  TorsiondriveAdd.assert_group_member answers owner_user owner_group = None →
  ∃ t',
    TorsiondriveAdd.add_internal answers sets td_spec_id as_service tag priority owner_user
      owner_group false t =
      (Ok (TorsiondriveAdd.mkInsertMetadata None [] (seq 0 (length sets)) [],
           seq (TorsiondriveAdd.record_id_seq t) (length sets)), t') ∧
    ∀ i mol_ids, sets !! i = Some mol_ids →
      TorsiondriveAdd.torsiondrive_record t' !! (TorsiondriveAdd.record_id_seq t + i) =
        Some (TorsiondriveAdd.new_record td_spec_id as_service tag priority owner_user
                owner_group false) ∧
      ∃ got,
        TorsiondriveAdd.get_initial_molecules_ids (TorsiondriveAdd.record_id_seq t + i) t' =
          (Ok got, t') ∧
        NoDup got ∧ ∀ m, m ∈ got ↔ m ∈ mol_ids.
Proof.
  intros Hc Hassert.
  destruct (fold_add_always td_spec_id as_service (lower tag) priority owner_user owner_group
              false sets 0 (TorsiondriveAdd.mkFound [] [] []) (TorsiondriveAdd.locked t)
              (consistent_locked t Hc))
    as (t' & Hloop & _ & _ & Hrecs).
  exists t'. split.
  - unfold TorsiondriveAdd.add_internal. rewrite Hassert, bind_run.
    unfold TorsiondriveAdd.lock at 1, modify. cbv beta iota. fold (TorsiondriveAdd.locked t).
    rewrite bind_run. unfold Torsiondrive.enumerate.
    change (imap (λ i x, (i, x)) sets)
      with (imap (λ (i : nat) (x : list nat), (0 + i, x)) sets).
    rewrite Hloop. reflexivity.
  - intros i mol_ids Hset. destruct (Hrecs i mol_ids Hset) as [Hrow Hmols].
    simpl in Hrow, Hmols. split; [done|].
    exists (TorsiondriveAdd.initial_molecules t' (TorsiondriveAdd.record_id_seq t + i)).
    split_and!.
    + unfold TorsiondriveAdd.get_initial_molecules_ids. by rewrite Hrow.
    + rewrite Hmols. apply sorted_set_NoDup.
    + intros m. rewrite Hmols. apply elem_of_sorted_set.
Qed.

Lemma add_internal_always_adds_witness :
  ∃ t',
    TorsiondriveAdd.add_internal TorsiondriveAddExample.answers [[7; 3; 7]; [4]; [3; 7]]
      (Some 5) true "Tag" 1%Z None None false TorsiondriveAddExample.tables =
      (Ok (TorsiondriveAdd.mkInsertMetadata None [] (seq 0 (length [[7; 3; 7]; [4]; [3; 7]])) [],
           seq (TorsiondriveAdd.record_id_seq TorsiondriveAddExample.tables)
             (length [[7; 3; 7]; [4]; [3; 7]])), t') ∧
    ∀ i mol_ids, [[7; 3; 7]; [4]; [3; 7]] !! i = Some mol_ids →
      TorsiondriveAdd.torsiondrive_record t'
        !! (TorsiondriveAdd.record_id_seq TorsiondriveAddExample.tables + i) =
        Some (TorsiondriveAdd.new_record (Some 5) true "Tag" 1%Z None None false) ∧
      ∃ got,
        TorsiondriveAdd.get_initial_molecules_ids
          (TorsiondriveAdd.record_id_seq TorsiondriveAddExample.tables + i) t' =
          (Ok got, t') ∧
        NoDup got ∧ ∀ m, m ∈ got ↔ m ∈ mol_ids.
Proof.
  apply (add_internal_always_adds TorsiondriveAddExample.answers).
  - exact example_tables_consistent.
  - reflexivity.
Defined.

Lemma fold_M_cons {St A B} (body : B → A → M St B) acc (x : A) (l : list A) s :
  fold_M body acc (x :: l) s =
  match body acc x s with
  | (Ok acc', s') => fold_M body acc' l s'
  | (Raise e, s') => (Raise e, s')
  end.
Proof. reflexivity. Qed.

Section AddInternalUnique.
Import TorsiondriveAdd.
Context (answers : Answers).

Lemma elem_of_init_mol_cte_with_record t td_orm mol_ids id sp ms :
  consistent t →
  (id, sp, ms) ∈ init_mol_cte (with_record t td_orm mol_ids) ↔
  (id ≠ record_id_seq t ∧ (id, sp, ms) ∈ init_mol_cte t) ∨
  (id = record_id_seq t ∧ sp = specification_id td_orm ∧ ms = merge_sort (≤) mol_ids ∧ ms ≠ []).
Proof.
  intros Hc. rewrite !elem_of_init_mol_cte.
  rewrite initial_molecules_with_record by done. simpl.
  destruct (decide (id = record_id_seq t)) as [->|Hne].
  - rewrite lookup_insert_eq. split.
    + intros (row & [= <-] & <- & -> & Hms). by right.
    + intros [[? _]|(_ & -> & -> & Hms)]; [done|]. by exists td_orm.
  - rewrite lookup_insert_ne by done. split.
    + intros H. by left.
    + intros [[_ H]|[? _]]; done.
Qed.

Lemma select_existing_none t td_spec_id ms id :
  first_is_a_row answers →
  select_existing answers td_spec_id ms t = (Ok None, t) →
  (id, td_spec_id, ms) ∉ init_mol_cte t.
Proof.
  intros Hfirst Hsel Hin. unfold select_existing, gets in Hsel. injection Hsel as Hsel.
  specialize (Hfirst ((λ row : nat * option nat * list nat, row.1.1)
     <$> filter (λ row, row.1.2 = td_spec_id ∧ row.2 = ms) (init_mol_cte t))).
  rewrite Hsel in Hfirst. apply fmap_nil_inv in Hfirst.
  assert (Hrow : (id, td_spec_id, ms)
                 ∈ filter (λ row : nat * option nat * list nat,
                             row.1.2 = td_spec_id ∧ row.2 = ms) (init_mol_cte t)).
  { by apply list_elem_of_filter. }
  rewrite Hfirst in Hrow. by apply elem_of_nil in Hrow.
Qed.

Lemma add_or_find_no_duplicates td_spec_id as_service tag priority owner_user owner_group find
    found item t r t' :
  first_is_a_row answers →
  consistent t →
  no_duplicates t →
  add_or_find answers td_spec_id as_service tag priority owner_user owner_group find
    found item t = (r, t') →
  consistent t' ∧ no_duplicates t'.
Proof.
  intros Hfirst Hc Hu. destruct item as [idx mol_ids]. unfold add_or_find. rewrite bind_run.
  destruct (select_existing answers td_spec_id (sorted_set mol_ids) t) as [r1 t1] eqn:Hsel.
  assert (t1 = t) as -> by (unfold select_existing, gets in Hsel; congruence).
  destruct r1 as [existing|e]; [|intros [= <- <-]; done].
  destruct (not_existing existing) eqn:Hnot; [|intros [= <- <-]; done].
  rewrite insert_new_run by done. intros [= <- <-].
  split; [by apply consistent_with_record|].
  assert (Hnone : ∀ id, (id, td_spec_id, sorted_set mol_ids) ∉ init_mol_cte t).
  { destruct existing as [id0|].
    - simpl in Hnot. apply bool_decide_eq_true in Hnot as ->.
      pose proof (select_existing_found answers t td_spec_id mol_ids 0 Hfirst Hsel)
        as [(td_orm & Hrow & _) _].
      destruct Hc as (Hids & _). destruct (Hids 0); [by eexists|lia].
    - intros id. by apply select_existing_none. }
  intros id1 id2 sp ms.
  rewrite !elem_of_init_mol_cte_with_record by done. rewrite merge_sort_sorted_set. simpl.
  intros [[_ H1]|(-> & -> & -> & _)] [[_ H2]|(-> & E2 & E3 & _)]; try done.
  - by eapply Hu.
  - subst. by destruct (Hnone id1).
  - by destruct (Hnone id2).
Qed.

Lemma fold_add_or_find_no_duplicates td_spec_id as_service tag priority owner_user owner_group
    find items :
  first_is_a_row answers →
  ∀ found t r t',
    consistent t →
    no_duplicates t →
    fold_M (add_or_find answers td_spec_id as_service tag priority owner_user owner_group find)
      found items t = (r, t') →
    consistent t' ∧ no_duplicates t'.
Proof.
  intros Hfirst. induction items as [|item items IH]; intros found t r t' Hc Hu; simpl.
  { by intros [= <- <-]. }
  rewrite bind_run.
  destruct (add_or_find answers td_spec_id as_service tag priority owner_user owner_group
              find found item t) as [[found1|e] t1] eqn:Hstep;
    destruct (add_or_find_no_duplicates _ _ _ _ _ _ _ _ _ _ _ _ Hfirst Hc Hu Hstep) as [Hc1 Hu1].
  - by apply IH.
  - by intros [= <- <-].
Qed.

Lemma is_record_for_cte t td_spec_id mol_ids id :
  mol_ids ≠ [] →
  is_record_for t td_spec_id mol_ids id →
  (id, td_spec_id, sorted_set mol_ids) ∈ init_mol_cte t.
Proof.
  intros Hne [(td_orm & Hrow & Hspec) Hmols]. apply elem_of_init_mol_cte.
  exists td_orm. split_and!; [done|done|done|]. by rewrite sorted_set_nil.
Qed.

Lemma is_record_for_unique t td_spec_id mol_ids1 mol_ids2 id1 id2 :
  no_duplicates t →
  mol_ids1 ≠ [] →
  (∀ m, m ∈ mol_ids1 ↔ m ∈ mol_ids2) →
  is_record_for t td_spec_id mol_ids1 id1 →
  is_record_for t td_spec_id mol_ids2 id2 →
  id1 = id2.
Proof.
  intros Hu Hne Hsame H1 H2.
  assert (Hne2 : mol_ids2 ≠ []).
  { destruct mol_ids1 as [|m l]; [done|]. intros ->.
    by apply (elem_of_nil m), Hsame; left. }
  apply (Hu id1 id2 td_spec_id (sorted_set mol_ids1)).
  - by apply is_record_for_cte.
  - rewrite (sorted_set_ext _ _ Hsame). by apply is_record_for_cte.
Qed.


Lemma fold_add_or_find_all_found td_spec_id as_service tag priority owner_user owner_group find
    sets :
  first_is_a_row answers →
  ∀ off found t,
    consistent t →
    (∀ i mol_ids, sets !! i = Some mol_ids →
       mol_ids ≠ [] ∧ ∃ id, is_record_for t td_spec_id mol_ids id) →
    ∃ ids,
      fold_M (add_or_find answers td_spec_id as_service tag priority owner_user owner_group find)
        found (imap (λ i x, (off + i, x)) sets) t =
        (Ok (mkFound (td_ids found ++ ids) (found_inserted_idx found)
               (found_existing_idx found ++ seq off (length sets))), t) ∧
      length ids = length sets ∧
      ∀ i mol_ids id, sets !! i = Some mol_ids → ids !! i = Some id →
        is_record_for t td_spec_id mol_ids id.
Proof.
  intros Hfirst. induction sets as [|mol_ids sets IH]; intros off found t Hc Hall.
  { exists []. simpl. rewrite !app_nil_r. by destruct found. }
  destruct (Hall 0 mol_ids eq_refl) as [Hne [id0 Hrec0]].
  destruct (add_or_find_finds answers td_spec_id as_service tag priority owner_user owner_group
              find found (off + 0) mol_ids t id0 Hfirst Hc Hne Hrec0) as (id & Hstep & Hrec).
  destruct (IH (S off) (mkFound (td_ids found ++ [id]) (found_inserted_idx found)
               (found_existing_idx found ++ [off + 0])) t Hc) as (ids & Hloop & Hlen & Hrecs).
  { intros i mols Hset. by apply (Hall (S i)). }
  cbn [td_ids found_inserted_idx found_existing_idx] in Hloop.
  exists (id :: ids). split_and!.
  - rewrite imap_cons, fold_M_cons, imap_shift, Hstep. etrans; [exact Hloop|].
    rewrite <- !app_assoc. simpl. by rewrite Nat.add_0_r.
  - simpl. by rewrite Hlen.
  - intros [|i] mols id' Hset Hid; simpl in Hset, Hid.
    + by injection Hset as <-; injection Hid as <-.
    + eauto.
Qed.

Lemma add_internal_find_run sets td_spec_id as_service tag priority owner_user owner_group t :
  assert_group_member answers owner_user owner_group = None →
  add_internal answers sets td_spec_id as_service tag priority owner_user owner_group true t =
  match
    fold_M (add_or_find answers td_spec_id as_service (lower tag) priority owner_user
              owner_group true) (mkFound [] [] [])
      (imap (λ (i : nat) (x : list nat), (0 + i, x)) sets) (locked t)
  with
  | (Ok found, t') =>
      (Ok (mkInsertMetadata None [] (found_inserted_idx found) (found_existing_idx found),
           td_ids found), t')
  | (Raise e, t') => (Raise e, t')
  end.
Proof. intros Hassert. unfold add_internal. by rewrite Hassert. Qed.

Lemma add_internal_unique_run sets td_spec_id as_service tag priority owner_user owner_group t :
  first_is_a_row answers →
  consistent t →
  no_duplicates t →
  assert_group_member answers owner_user owner_group = None →
  ∃ ids ins exi t',
    add_internal answers sets td_spec_id as_service tag priority owner_user owner_group true t =
      (Ok (mkInsertMetadata None [] ins exi, ids), t') ∧
    consistent t' ∧
    no_duplicates t' ∧
    unchanged_records t t' ∧
    length ids = length sets ∧
    (∀ i mol_ids id, sets !! i = Some mol_ids → ids !! i = Some id →
       is_record_for t' td_spec_id mol_ids id) ∧
    ins ++ exi ≡ₚ seq 0 (length sets) ∧
    (∀ k i, ins !! k = Some i → ids !! i = Some (record_id_seq t + k)).
Proof.
  intros Hfirst Hc Hu Hassert.
  destruct (add_internal_run answers sets td_spec_id as_service tag priority owner_user
              owner_group true t Hfirst Hc Hassert)
    as (ids & ins & exi & t' & Hrun & Hc' & Hsame & Hlen & Hrecs & Hperm & _ & _ & Hins & _).
  exists ids, ins, exi, t'. split_and!; try done.
  rewrite add_internal_find_run in Hrun by done.
  destruct (fold_M _ _ _ (locked t)) as [[found|e] t1] eqn:Hloop; [|done].
  injection Hrun as _ _ _ <-.
  by destruct (fold_add_or_find_no_duplicates _ _ _ _ _ _ _ _ Hfirst _ _ _ _
                 (consistent_locked t Hc) Hu Hloop).
Qed.

End AddInternalUnique.

Lemma example_tables_no_duplicates :
  TorsiondriveAdd.no_duplicates TorsiondriveAddExample.tables.
Proof.
  assert (Hcte : TorsiondriveAdd.init_mol_cte TorsiondriveAddExample.tables
                 = [(1, Some 5, [3; 7])]) by (vm_compute; reflexivity).
  intros id1 id2 sp ms. rewrite Hcte.
  intros H1%list_elem_of_singleton H2%list_elem_of_singleton. congruence.
Qed.

(** X16.  With [find_existing], and if no two records with molecules had the
    same specification and the same molecules, none have after
    [add_internal]; a set of molecules, not empty, for which there was a
    record gets the id of that record and is among the existing ones; and two
    sets of the call with the same molecules get the same id. *)
Theorem add_internal_no_duplicates answers sets td_spec_id as_service tag priority
    owner_user owner_group t :
  TorsiondriveAdd.first_is_a_row answers →
  TorsiondriveAdd.consistent t →
  TorsiondriveAdd.no_duplicates t →
  TorsiondriveAdd.assert_group_member answers owner_user owner_group = None →
  ∃ meta ids t',
    TorsiondriveAdd.add_internal answers sets td_spec_id as_service tag priority owner_user
      owner_group true t = (Ok (meta, ids), t') ∧
    TorsiondriveAdd.no_duplicates t' ∧
    (∀ i mol_ids id, sets !! i = Some mol_ids → mol_ids ≠ [] →
       TorsiondriveAdd.is_record_for t td_spec_id mol_ids id →
       ids !! i = Some id ∧ i ∈ TorsiondriveAdd.existing_idx meta) ∧
    (∀ i j mol_ids1 mol_ids2 id,
       sets !! i = Some mol_ids1 → sets !! j = Some mol_ids2 → mol_ids1 ≠ [] →
       (∀ m, m ∈ mol_ids1 ↔ m ∈ mol_ids2) →
       ids !! i = Some id → ids !! j = Some id).
Proof.
  intros Hfirst Hc Hu Hassert.
  destruct (add_internal_unique_run answers sets td_spec_id as_service tag priority owner_user
              owner_group t Hfirst Hc Hu Hassert)
    as (ids & ins & exi & t' & Hrun & Hc' & Hu' & Hsame & Hlen & Hrecs & Hperm & Hins).
  exists (TorsiondriveAdd.mkInsertMetadata None [] ins exi), ids, t'.
  split_and!; try done.
  - intros i mol_ids id Hset Hne Hrec.
    destruct (lookup_lt_is_Some_2 ids i) as [id' Hid'].
    { rewrite Hlen. by eapply lookup_lt_Some. }
    assert (id' = id) as ->.
    { eapply (is_record_for_unique t' td_spec_id mol_ids mol_ids); eauto.
      by eapply is_record_for_unchanged. }
    split; [done|]. simpl.
    assert (Hi : i ∈ ins ++ exi).
    { rewrite Hperm. apply elem_of_seq. apply lookup_lt_Some in Hset. lia. }
    apply elem_of_app in Hi as [Hi|Hi]; [|done].
    apply list_elem_of_lookup in Hi as [k Hk]. apply Hins in Hk.
    destruct Hrec as [(td_orm & Hrow & _) _]. destruct Hc as (Hids & _).
    destruct (Hids id); [by eexists|]. rewrite Hid' in Hk. injection Hk as ->. lia.
  - intros i j mol_ids1 mol_ids2 id Hi Hj Hne Hmols Hid.
    destruct (lookup_lt_is_Some_2 ids j) as [id' Hid'].
    { rewrite Hlen. by eapply lookup_lt_Some. }
    rewrite Hid'. f_equal. symmetry.
    eapply (is_record_for_unique t' td_spec_id mol_ids1 mol_ids2); eauto.
Qed.

Lemma add_internal_no_duplicates_witness :
  ∃ meta ids t',
    TorsiondriveAdd.add_internal TorsiondriveAddExample.answers [[7; 3; 7]; [4]; [3; 7]; [4]]
      (Some 5) true "Tag" 1%Z None None true TorsiondriveAddExample.tables =
      (Ok (meta, ids), t') ∧
    TorsiondriveAdd.no_duplicates t' ∧
    (∀ i mol_ids id, [[7; 3; 7]; [4]; [3; 7]; [4]] !! i = Some mol_ids → mol_ids ≠ [] →
       TorsiondriveAdd.is_record_for TorsiondriveAddExample.tables (Some 5) mol_ids id →
       ids !! i = Some id ∧ i ∈ TorsiondriveAdd.existing_idx meta) ∧
    (∀ i j mol_ids1 mol_ids2 id,
       [[7; 3; 7]; [4]; [3; 7]; [4]] !! i = Some mol_ids1 →
       [[7; 3; 7]; [4]; [3; 7]; [4]] !! j = Some mol_ids2 → mol_ids1 ≠ [] →
       (∀ m, m ∈ mol_ids1 ↔ m ∈ mol_ids2) →
       ids !! i = Some id → ids !! j = Some id).
Proof.
  apply (add_internal_no_duplicates TorsiondriveAddExample.answers).
  - exact example_first_is_a_row.
  - exact example_tables_consistent.
  - exact example_tables_no_duplicates.
  - reflexivity.
Defined.

(** X17.  [add_internal] with [find_existing] is idempotent: if no two
    records with molecules have the same specification and molecules, and no
    set of the call is empty, a second call with the same arguments returns
    the ids of the first, inserts nothing, finds every set existing, and adds
    nothing to the tables but its advisory lock. *)
Theorem add_internal_idempotent answers sets td_spec_id as_service tag priority
    owner_user owner_group t :
  TorsiondriveAdd.first_is_a_row answers →
  TorsiondriveAdd.consistent t →
  TorsiondriveAdd.no_duplicates t →
  TorsiondriveAdd.assert_group_member answers owner_user owner_group = None →
  Forall (λ mol_ids, mol_ids ≠ []) sets →
  ∃ meta ids t',
    TorsiondriveAdd.add_internal answers sets td_spec_id as_service tag priority owner_user
      owner_group true t = (Ok (meta, ids), t') ∧
    TorsiondriveAdd.add_internal answers sets td_spec_id as_service tag priority owner_user
      owner_group true t' =
      (Ok (TorsiondriveAdd.mkInsertMetadata None [] [] (seq 0 (length sets)), ids),
       TorsiondriveAdd.locked t').
Proof.
  intros Hfirst Hc Hu Hassert Hne.
  destruct (add_internal_unique_run answers sets td_spec_id as_service tag priority owner_user
              owner_group t Hfirst Hc Hu Hassert)
    as (ids & ins & exi & t' & Hrun & Hc' & Hu' & Hsame & Hlen & Hrecs & Hperm & Hins).
  exists (TorsiondriveAdd.mkInsertMetadata None [] ins exi), ids, t'.
  split; [done|].
  destruct (fold_add_or_find_all_found answers td_spec_id as_service (lower tag) priority
              owner_user owner_group true sets Hfirst 0 (TorsiondriveAdd.mkFound [] [] [])
              (TorsiondriveAdd.locked t') (consistent_locked t' Hc'))
    as (ids2 & Hloop & Hlen2 & Hrecs2).
  { intros i mol_ids Hset. split.
    - by apply (Forall_lookup_1 _ _ _ _ Hne Hset).
    - destruct (lookup_lt_is_Some_2 ids i) as [id Hid].
      { rewrite Hlen. by eapply lookup_lt_Some. }
      exists id. by apply (Hrecs i). }
  rewrite add_internal_find_run, Hloop by done. simpl.
  assert (ids2 = ids) as ->; [|done].
  apply list_eq_same_length with (length sets); [done|done|].
  intros i id2 id Hi Hid2 Hid.
  destruct (lookup_lt_is_Some_2 sets i Hi) as [mol_ids Hset].
  pose proof (Forall_lookup_1 _ _ _ _ Hne Hset) as Hne_i.
  apply (is_record_for_unique t' td_spec_id mol_ids mol_ids); eauto.
Qed.

Lemma add_internal_idempotent_witness :
  ∃ meta ids t',
    TorsiondriveAdd.add_internal TorsiondriveAddExample.answers [[7; 3; 7]; [4]; [3; 7]; [4]]
      (Some 5) true "Tag" 1%Z None None true TorsiondriveAddExample.tables =
      (Ok (meta, ids), t') ∧
    TorsiondriveAdd.add_internal TorsiondriveAddExample.answers [[7; 3; 7]; [4]; [3; 7]; [4]]
      (Some 5) true "Tag" 1%Z None None true t' =
      (Ok (TorsiondriveAdd.mkInsertMetadata None [] []
             (seq 0 (length [[7; 3; 7]; [4]; [3; 7]; [4]])), ids),
       TorsiondriveAdd.locked t').
Proof.
  apply (add_internal_idempotent TorsiondriveAddExample.answers).
  - exact example_first_is_a_row.
  - exact example_tables_consistent.
  - exact example_tables_no_duplicates.
  - reflexivity.
  - repeat constructor; discriminate.
Defined.

Lemma fold_same_sets (body : TorsiondriveAdd.Found → nat * list nat →
                             M TorsiondriveAdd.Tables TorsiondriveAdd.Found) sets1 sets2 :
  (∀ found idx mol_ids1 mol_ids2,
     sorted_set mol_ids1 = sorted_set mol_ids2 →
     body found (idx, mol_ids1) = body found (idx, mol_ids2)) →
  Forall2 (λ mol_ids1 mol_ids2, ∀ m, m ∈ mol_ids1 ↔ m ∈ mol_ids2) sets1 sets2 →
  ∀ off found t,
    fold_M body found (imap (λ i x, (off + i, x)) sets1) t =
    fold_M body found (imap (λ i x, (off + i, x)) sets2) t.
Proof.
  intros Hbody. induction 1 as [|mol_ids1 mol_ids2 sets1 sets2 Hsame _ IH]; intros off found t.
  { done. }
  rewrite !imap_cons, !fold_M_cons, !imap_shift.
  rewrite (Hbody found (off + 0) mol_ids1 mol_ids2 (sorted_set_ext _ _ Hsame)).
  destruct (body found (off + 0, mol_ids2) t) as [[found1|e] t1]; [apply IH|done].
Qed.

(** X18.  The sets of molecules given to [add_internal] are sets: two calls
    whose sets have, position by position, the same molecules, in whatever
    order and however often repeated, do the same and return the same. *)
Theorem add_internal_same_sets answers sets1 sets2 td_spec_id as_service tag priority
    owner_user owner_group find t :
  Forall2 (λ mol_ids1 mol_ids2, ∀ m, m ∈ mol_ids1 ↔ m ∈ mol_ids2) sets1 sets2 →
  TorsiondriveAdd.add_internal answers sets1 td_spec_id as_service tag priority owner_user
    owner_group find t =
  TorsiondriveAdd.add_internal answers sets2 td_spec_id as_service tag priority owner_user
    owner_group find t.
Proof.
  intros Hsame. unfold TorsiondriveAdd.add_internal.
  destruct (TorsiondriveAdd.assert_group_member answers owner_user owner_group); [done|].
  rewrite !bind_run. unfold TorsiondriveAdd.lock, modify. cbv beta iota.
  rewrite !bind_run. unfold Torsiondrive.enumerate.
  change (imap (λ i x, (i, x)) sets1)
    with (imap (λ (i : nat) (x : list nat), (0 + i, x)) sets1).
  change (imap (λ i x, (i, x)) sets2)
    with (imap (λ (i : nat) (x : list nat), (0 + i, x)) sets2).
  destruct find.
  - rewrite (fold_same_sets _ sets1 sets2); [done| |done].
    intros found idx mol_ids1 mol_ids2 Heq. unfold TorsiondriveAdd.add_or_find.
    by rewrite Heq.
  - rewrite (fold_same_sets _ sets1 sets2); [done| |done].
    intros found idx mol_ids1 mol_ids2 Heq. unfold TorsiondriveAdd.add_always.
    by rewrite Heq.
Qed.

Lemma add_internal_same_sets_witness :
  TorsiondriveAdd.add_internal TorsiondriveAddExample.answers [[7; 3; 7]; [4; 9]]
    (Some 5) true "Tag" 1%Z None None true TorsiondriveAddExample.tables =
  TorsiondriveAdd.add_internal TorsiondriveAddExample.answers [[3; 7]; [9; 4; 4]]
    (Some 5) true "Tag" 1%Z None None true TorsiondriveAddExample.tables.
Proof.
  apply (add_internal_same_sets TorsiondriveAddExample.answers).
  constructor 2; [|constructor 2; [|constructor 1]];
    intros m; rewrite !elem_of_cons, !elem_of_nil; tauto.
Defined.

(** ** Torsiondrive records: [add] *)

Section Add.
Import TorsiondriveAdd TorsiondriveSocketAdd.
Context {Db Mol Keywords OptSpec : Type}.
Context (answers : Answers) (root_socket : Sockets Db Mol Keywords OptSpec).

Lemma in_database_run {A} (m : M Db A) (s : State Db) r s' :
  in_database m s = (r, s') → tables s' = tables s ∧ m (database s) = (r, database s').
Proof.
  unfold in_database, zoom. destruct (m (database s)) as [r1 db1]. by intros [= <- <-].
Qed.

Lemma in_tables_run {A} (m : M Tables A) (s : State Db) r s' :
  in_tables m s = (r, s') → database s' = database s ∧ m (tables s) = (r, tables s').
Proof.
  unfold in_tables, zoom. destruct (m (tables s)) as [r1 t1]. by intros [= <- <-].
Qed.

Lemma add_specifications_tables td_specs (s : State Db) r s' :
  add_specifications answers root_socket td_specs s = (r, s') → tables s' = tables s.
Proof.
  unfold add_specifications. rewrite bind_run.
  destruct (in_database _ s) as [[[meta opt_spec_ids]|e] s1] eqn:Hopt;
    apply in_database_run in Hopt as [Ht _].
  - destruct (negb (success answers meta)); [by intros [= <- <-]|].
    destruct (negb (length opt_spec_ids =? length td_specs)); [by intros [= <- <-]|].
    intros [Ht' _]%in_database_run. congruence.
  - by intros [= <- <-].
Qed.

Lemma add_specification_tables td_spec (s : State Db) r s' :
  add_specification answers root_socket td_spec s = (r, s') → tables s' = tables s.
Proof.
  unfold add_specification. rewrite bind_run.
  destruct (add_specifications answers root_socket [td_spec] s) as [[[meta ids]|e] s1] eqn:Hadd;
    apply add_specifications_tables in Hadd.
  - destruct ids; by intros [= <- <-].
  - by intros [= <- <-].
Qed.

Lemma add_all_molecules_run initial_molecules init_mol_ids (s : State Db) r s' :
  add_all_molecules answers root_socket initial_molecules init_mol_ids s = (Ok r, s') →
  tables s' = tables s ∧
  match r with
  | inl meta =>
      ∃ msg, meta = error_metadata ("Aborted - could not add all molecules: " +:+ msg)
  | inr ids =>
      ∃ new,
        ids = init_mol_ids ++ new ∧
        Forall2
          (λ init_mol mol_ids,
             ∃ db mol_meta db',
               add_mixed root_socket init_mol db = (Ok (mol_meta, mol_ids), db') ∧
               success answers mol_meta = true)
          initial_molecules new
  end.
Proof.
  revert init_mol_ids s. induction initial_molecules as [|init_mol rest IH];
    intros init_mol_ids s; simpl.
  { intros [= <- <-]. split; [done|]. exists []. by rewrite app_nil_r. }
  rewrite bind_run.
  destruct (in_database _ s) as [[[mol_meta mol_ids]|e] s1] eqn:Hadd; [|done].
  apply in_database_run in Hadd as [Ht Hadd].
  destruct (success answers mol_meta) eqn:Hsuccess; simpl.
  - intros Hrest. apply IH in Hrest as [Ht' Hr]. split; [congruence|].
    destruct r as [meta|ids]; [done|]. destruct Hr as (new & -> & Hnew).
    exists (mol_ids :: new). split; [by rewrite <- app_assoc|].
    constructor; [|done]. by exists (database s), mol_meta, (database s1).
  - intros [= <- <-]. split; [done|]. by eexists.
Qed.

Lemma add_internal_no_error sets td_spec_id as_service tag priority owner_user owner_group find
    t meta ids t' :
  add_internal answers sets td_spec_id as_service tag priority owner_user owner_group find t =
    (Ok (meta, ids), t') →
  error_description meta = None.
Proof.
  unfold add_internal.
  destruct (assert_group_member answers owner_user owner_group); [done|].
  intros ([] & t1 & _ & Hrest)%bind_Ok_inv.
  apply bind_Ok_inv in Hrest as (found & t2 & _ & Hret). by injection Hret as <- _ _.
Qed.

End Add.

(** X19.  When [add] returns metadata with an error description, it has
    aborted: the description says that the specification, or the molecules,
    could not be added, no id is returned, nothing is reported as inserted or
    existing, and the tables of the torsiondrive records are what they were:
    no record is made and [add_internal] was not run. *)
Theorem add_aborted {Db Mol Keywords OptSpec : Type} answers
    (root_socket : TorsiondriveSocketAdd.Sockets Db Mol Keywords OptSpec)
    initial_molecules td_spec as_service tag priority owner_user owner_group find
    s meta ids s' :
  TorsiondriveSocketAdd.add answers root_socket initial_molecules td_spec as_service tag
    priority owner_user owner_group find s = (Ok (meta, ids), s') →
  TorsiondriveAdd.error_description meta ≠ None →
  ids = [] ∧
  TorsiondriveSocketAdd.tables s' = TorsiondriveSocketAdd.tables s ∧
  ∃ msg,
    meta = TorsiondriveAdd.mkInsertMetadata
             (Some ("Aborted - could not add specification: " +:+ msg)) [] [] [] ∨
    meta = TorsiondriveAdd.mkInsertMetadata
             (Some ("Aborted - could not add all molecules: " +:+ msg)) [] [] [].
Proof.
  unfold TorsiondriveSocketAdd.add.
  intros ([owner_user_id owner_group_id] & s1 & [Ht1 _]%in_database_run & Hrun)%bind_Ok_inv
    Herr.
  apply bind_Ok_inv in Hrun as ([spec_meta spec_id] & s2 & Ht2%add_specification_tables & Hrun).
  destruct (TorsiondriveAdd.success answers spec_meta); simpl in Hrun.
  - apply bind_Ok_inv in Hrun as (molecules & s3 & Hmols & Hrun).
    apply add_all_molecules_run in Hmols as [Ht3 Hmols].
    destruct molecules as [mol_meta|init_mol_ids].
    + injection Hrun as <- <- <-. destruct Hmols as [msg ->].
      split_and!; [done|congruence|]. exists msg. by right.
    + apply in_tables_run in Hrun as [_ Hrun]. apply add_internal_no_error in Hrun. done.
  - injection Hrun as <- <- <-. split_and!; [done|congruence|]. eexists. by left.
Qed.

Lemma add_aborted_witness :
  [] = @nil nat ∧
  TorsiondriveSocketAdd.tables TorsiondriveSocketAddExample.aborted.2 =
    TorsiondriveSocketAdd.tables TorsiondriveSocketAddExample.state ∧
  ∃ msg,
    TorsiondriveAdd.mkInsertMetadata
      (Some "Aborted - could not add all molecules: molecule 0") [] [] [] =
    TorsiondriveAdd.mkInsertMetadata
      (Some ("Aborted - could not add specification: " +:+ msg)) [] [] [] ∨
    TorsiondriveAdd.mkInsertMetadata
      (Some "Aborted - could not add all molecules: molecule 0") [] [] [] =
    TorsiondriveAdd.mkInsertMetadata
      (Some ("Aborted - could not add all molecules: " +:+ msg)) [] [] [].
Proof.
  apply (add_aborted TorsiondriveAddExample.answers TorsiondriveSocketAddExample.root_socket
           [[7; 3; 7]; [4; 0]] TorsiondriveSocketAddExample.td_spec true "Tag" 1%Z
           (Some "user") None true TorsiondriveSocketAddExample.state).
  - vm_compute. reflexivity.
  - discriminate.
Defined.

(** X20.  When [add] returns metadata without an error description, the
    specification and every set of molecules were added with success, and the
    result and the tables are those of [add_internal] for the id of the
    specification, the ids of the molecules of the sets, in the order of the
    sets, and the ids of the owner. *)
Theorem add_is_add_internal {Db Mol Keywords OptSpec : Type} answers
    (root_socket : TorsiondriveSocketAdd.Sockets Db Mol Keywords OptSpec)
    initial_molecules td_spec as_service tag priority owner_user owner_group find
    s meta ids s' :
  TorsiondriveSocketAdd.add answers root_socket initial_molecules td_spec as_service tag
    priority owner_user owner_group find s = (Ok (meta, ids), s') →
  TorsiondriveAdd.error_description meta = None →
  ∃ owner_user_id owner_group_id s1 spec_meta spec_id s2 init_mol_ids,
    TorsiondriveSocketAdd.get_owner_ids root_socket owner_user owner_group
      (TorsiondriveSocketAdd.database s) =
      (Ok (owner_user_id, owner_group_id), TorsiondriveSocketAdd.database s1) ∧
    TorsiondriveSocketAdd.add_specification answers root_socket td_spec s1 =
      (Ok (spec_meta, spec_id), s2) ∧
    TorsiondriveAdd.success answers spec_meta = true ∧
    Forall2
      (λ init_mol mol_ids,
         ∃ db mol_meta db',
           TorsiondriveSocketAdd.add_mixed root_socket init_mol db =
             (Ok (mol_meta, mol_ids), db') ∧
           TorsiondriveAdd.success answers mol_meta = true)
      initial_molecules init_mol_ids ∧
    TorsiondriveAdd.add_internal answers init_mol_ids spec_id as_service tag priority
      owner_user_id owner_group_id find (TorsiondriveSocketAdd.tables s) =
      (Ok (meta, ids), TorsiondriveSocketAdd.tables s').
Proof.
  unfold TorsiondriveSocketAdd.add.
  intros ([owner_user_id owner_group_id] & s1 & [Ht1 Howner]%in_database_run & Hrun)%bind_Ok_inv
    Herr.
  apply bind_Ok_inv in Hrun as ([spec_meta spec_id] & s2 & Hspec & Hrun).
  pose proof (add_specification_tables _ _ _ _ _ _ Hspec) as Ht2.
  destruct (TorsiondriveAdd.success answers spec_meta) eqn:Hsuccess; simpl in Hrun.
  - apply bind_Ok_inv in Hrun as (molecules & s3 & Hmols & Hrun).
    apply add_all_molecules_run in Hmols as [Ht3 Hmols].
    destruct molecules as [mol_meta|init_mol_ids].
    + injection Hrun as <- <- <-. by destruct Hmols as [msg ->].
    + apply in_tables_run in Hrun as [_ Hrun]. destruct Hmols as (new & -> & Hnew).
      exists owner_user_id, owner_group_id, s1, spec_meta, spec_id, s2, new.
      split_and!; try done. rewrite <- Ht1, <- Ht2, <- Ht3. done.
  - by injection Hrun as <- <- <-.
Qed.

Lemma add_is_add_internal_witness :
  ∃ owner_user_id owner_group_id s1 spec_meta spec_id s2 init_mol_ids,
    TorsiondriveSocketAdd.get_owner_ids TorsiondriveSocketAddExample.root_socket
      (Some "user") None
      (TorsiondriveSocketAdd.database TorsiondriveSocketAddExample.state) =
      (Ok (owner_user_id, owner_group_id), TorsiondriveSocketAdd.database s1) ∧
    TorsiondriveSocketAdd.add_specification TorsiondriveAddExample.answers
      TorsiondriveSocketAddExample.root_socket TorsiondriveSocketAddExample.td_spec s1 =
      (Ok (spec_meta, spec_id), s2) ∧
    TorsiondriveAdd.success TorsiondriveAddExample.answers spec_meta = true ∧
    Forall2
      (λ init_mol mol_ids,
         ∃ db mol_meta db',
           TorsiondriveSocketAdd.add_mixed TorsiondriveSocketAddExample.root_socket
             init_mol db = (Ok (mol_meta, mol_ids), db') ∧
           TorsiondriveAdd.success TorsiondriveAddExample.answers mol_meta = true)
      [[7; 3; 7]; [4]] init_mol_ids ∧
    TorsiondriveAdd.add_internal TorsiondriveAddExample.answers init_mol_ids spec_id true
      "Tag" 1%Z owner_user_id owner_group_id true
      (TorsiondriveSocketAdd.tables TorsiondriveSocketAddExample.state) =
      (Ok (TorsiondriveAdd.mkInsertMetadata None [] [1] [0], [1; 2]),
       TorsiondriveSocketAdd.tables TorsiondriveSocketAddExample.added.2).
Proof.
  apply (add_is_add_internal TorsiondriveAddExample.answers
           TorsiondriveSocketAddExample.root_socket
           [[7; 3; 7]; [4]] TorsiondriveSocketAddExample.td_spec true "Tag" 1%Z
           (Some "user") None true TorsiondriveSocketAddExample.state).
  - vm_compute. reflexivity.
  - reflexivity.
Defined.

(** ** Torsiondrive: [initialize_service] *)

Section Initialize.
Import Torsiondrive TorsiondriveInitialize.
Context {P : Payloads} {StoredMolecule Symbols : Type}.
Context (td_api : Package P StoredMolecule Symbols).

Lemma append_output_outcome text (s : State P) r s' :
  append_output text s = (r, s') →
  match r with
  | Ok _ =>
      service_orm s' = service_orm s ∧ database s' = database s ∧
      optimizations (td_orm s') = optimizations (td_orm s)
  | Raise _ => s' = s
  end.
Proof.
  unfold append_output. destruct (compute_history (td_orm s)); intros [= <- <-]; done.
Qed.

Lemma initialize_service_run (s : State P) r s' :
  initialize_service td_api s = (r, s') →
  let keywords := specification_keywords td_api (database s) (service_record_id (service_orm s)) in
  let initial_molecules :=
    initial_molecule_dicts td_api (database s) (service_record_id (service_orm s)) in
  match r with
  | Raise e =>
      s' = s ∧
      (e = IndexError ∨
       ∃ first_molecule printed,
         initial_molecules !! 0 = Some first_molecule ∧
         create_initial_state td_api (dihedrals keywords) (grid_spacing keywords)
           (symbols td_api (molecule_dict td_api first_molecule))
           (geometry_list td_api <$> initial_molecules)
           (dihedral_ranges keywords) (energy_decrease_thresh keywords)
           (energy_upper_limit keywords) = (Raise e, printed))
  | Ok _ =>
      ∃ first_molecule td_state stdout s1,
        initial_molecules !! 0 = Some first_molecule ∧
        create_initial_state td_api (dihedrals keywords) (grid_spacing keywords)
          (symbols td_api (molecule_dict td_api first_molecule))
          (geometry_list td_api <$> initial_molecules)
          (dihedral_ranges keywords) (energy_decrease_thresh keywords)
          (energy_upper_limit keywords) = (Ok td_state, stdout) ∧
        append_output stdout s = (Ok tt, s1) ∧
        s' = set_service_orm
               (set_service_state
                  (mkTorsiondriveServiceState td_state (molecule_dict td_api first_molecule)
                     ((λ idx, mkConstraint "dihedral" idx None) <$> dihedrals keywords))
                  (service_orm s)) s1
  end.
Proof.
  intros Hrun keywords initial_molecules. revert Hrun. unfold initialize_service.
  rewrite !bind_run. unfold gets at 1 2. cbv beta iota. rewrite ?bind_run.
  fold keywords initial_molecules. unfold index.
  destruct (initial_molecules !! 0) as [first_molecule|] eqn:Hfirst.
  2: { intros [= <- <-]. split; [done|by left]. }
  unfold mret, M_ret. cbv beta iota.
  destruct (create_initial_state _ _ _ _ _ _ _ _) as [[td_state|e] printed] eqn:Hcreate.
  - rewrite bind_run. destruct (append_output printed s) as [[[]|e] s1] eqn:Happend.
    + intros [= <- <-]. exists first_molecule, td_state, printed, s1.
      pose proof (append_output_outcome _ _ _ _ Happend) as (Hsvc & _). simpl in Hsvc.
      by rewrite Hsvc.
    + intros [= <- <-]. pose proof (append_output_outcome _ _ _ _ Happend) as ->.
      split; [done|]. left. unfold append_output in Happend.
      destruct (compute_history (td_orm s)); congruence.
  - intros [= <- <-]. split; [done|]. right. by exists first_molecule, printed.
Qed.

End Initialize.

(** X21.  [initialize_service] fails cleanly: whenever it raises, the
    service, the record and the database are what they were.  It raises
    [IndexError] for a record without initial molecules, and the exception of
    the torsiondrive package when [create_initial_state] raises for the
    keywords of the specification, the symbols of the first molecule and the
    geometries of all the initial molecules. *)
Theorem initialize_service_fails_cleanly {P : Torsiondrive.Payloads}
    {StoredMolecule Symbols : Type}
    (td_api : TorsiondriveInitialize.Package P StoredMolecule Symbols)
    (s : Torsiondrive.State P) :
  let record_id := Torsiondrive.service_record_id (Torsiondrive.service_orm s) in
  let keywords :=
    TorsiondriveInitialize.specification_keywords td_api (Torsiondrive.database s) record_id in
  let initial_molecules :=
    TorsiondriveInitialize.initial_molecule_dicts td_api (Torsiondrive.database s) record_id in
  (∀ e s', TorsiondriveInitialize.initialize_service td_api s = (Raise e, s') → s' = s) ∧
  (initial_molecules = [] →
   TorsiondriveInitialize.initialize_service td_api s = (Raise IndexError, s)) ∧
  (∀ first_molecule e printed,
     initial_molecules !! 0 = Some first_molecule →
     TorsiondriveInitialize.create_initial_state td_api
       (TorsiondriveInitialize.dihedrals keywords)
       (TorsiondriveInitialize.grid_spacing keywords)
       (TorsiondriveInitialize.symbols td_api
          (TorsiondriveInitialize.molecule_dict td_api first_molecule))
       (TorsiondriveInitialize.geometry_list td_api <$> initial_molecules)
       (TorsiondriveInitialize.dihedral_ranges keywords)
       (TorsiondriveInitialize.energy_decrease_thresh keywords)
       (TorsiondriveInitialize.energy_upper_limit keywords) = (Raise e, printed) →
     TorsiondriveInitialize.initialize_service td_api s = (Raise e, s)).
Proof.
  intros record_id keywords initial_molecules. split_and!.
  - intros e s' Hrun. by destruct (initialize_service_run td_api s _ _ Hrun) as [-> _].
  - intros Hnone. unfold TorsiondriveInitialize.initialize_service.
    rewrite !bind_run. unfold gets at 1 2. cbv beta iota. rewrite ?bind_run.
    fold record_id initial_molecules. by rewrite Hnone.
  - intros first_molecule e printed Hfirst Hcreate.
    unfold TorsiondriveInitialize.initialize_service.
    rewrite !bind_run. unfold gets at 1 2. cbv beta iota. rewrite ?bind_run.
    fold record_id keywords initial_molecules. unfold Torsiondrive.index.
    rewrite Hfirst. unfold mret, M_ret. cbv beta iota. by rewrite Hcreate.
Qed.

(** X22.  After [initialize_service] the service is ready for
    [_submit_optimizations]: the record has a first initial molecule, whose
    dictionary is the molecule template; and the constraints made from the
    dihedral template for a grid point are, for every dihedral of the
    keywords, in order, its indices with the angle of the grid point at its
    position (none if the grid point is shorter), while a grid point with
    more angles than there are dihedrals raises [IndexError].  The
    dependencies and the optimizations are not touched. *)
Theorem initialize_service_template {P : Torsiondrive.Payloads}
    {StoredMolecule Symbols : Type}
    (td_api : TorsiondriveInitialize.Package P StoredMolecule Symbols)
    (s s' : Torsiondrive.State P) :
  TorsiondriveInitialize.initialize_service td_api s = (Ok tt, s') →
  let record_id := Torsiondrive.service_record_id (Torsiondrive.service_orm s) in
  let dihedrals :=
    TorsiondriveInitialize.dihedrals
      (TorsiondriveInitialize.specification_keywords td_api (Torsiondrive.database s)
         record_id) in
  let service_state := Torsiondrive.service_state (Torsiondrive.service_orm s') in
  (∃ first_molecule,
     TorsiondriveInitialize.initial_molecule_dicts td_api (Torsiondrive.database s) record_id
       !! 0 = Some first_molecule ∧
     Torsiondrive.molecule_template service_state =
       TorsiondriveInitialize.molecule_dict td_api first_molecule) ∧
  Torsiondrive.dependencies (Torsiondrive.service_orm s') =
    Torsiondrive.dependencies (Torsiondrive.service_orm s) ∧
  Torsiondrive.optimizations (Torsiondrive.td_orm s') =
    Torsiondrive.optimizations (Torsiondrive.td_orm s) ∧
  ∀ (grid_id : list Z) (St : Type) (st : St),
    Torsiondrive.set_values (Torsiondrive.dihedral_template service_state)
      (Torsiondrive.enumerate grid_id) st =
    (if decide (length grid_id ≤ length dihedrals)
     then Ok (imap (λ i idx, Torsiondrive.mkConstraint "dihedral" idx (grid_id !! i)) dihedrals)
     else Raise IndexError, st).
Proof.
  intros Hrun record_id dihedrals service_state.
  destruct (initialize_service_run td_api s _ _ Hrun)
    as (first_molecule & td_state & stdout & s1 & Hfirst & Hcreate & Happend & ->).
  pose proof (append_output_outcome _ _ _ _ Happend) as (Hsvc & Hdb & Hopt). simpl in Hsvc, Hopt.
  split_and!.
  - by exists first_molecule.
  - done.
  - done.
  - intros grid_id St st. rewrite set_values_enumerate. subst service_state. simpl.
    rewrite length_fmap. fold record_id dihedrals.
    destruct (decide (length grid_id ≤ length dihedrals)); [|done].
    do 2 f_equal. rewrite imap_fmap. apply imap_ext. intros i idx _. simpl.
    by destruct (grid_id !! i).
Qed.

Lemma initialize_service_template_witness :
  (∃ first_molecule,
     TorsiondriveInitialize.initial_molecule_dicts TorsiondriveInitializeExample.td_api
       (Torsiondrive.database TorsiondriveExample.middle)
       (Torsiondrive.service_record_id (Torsiondrive.service_orm TorsiondriveExample.middle))
       !! 0 = Some first_molecule ∧
     Torsiondrive.molecule_template
       (Torsiondrive.service_state
          (Torsiondrive.service_orm TorsiondriveInitializeExample.initialized.2)) =
       TorsiondriveInitialize.molecule_dict TorsiondriveInitializeExample.td_api
         first_molecule) ∧
  Torsiondrive.dependencies
    (Torsiondrive.service_orm TorsiondriveInitializeExample.initialized.2) =
    Torsiondrive.dependencies (Torsiondrive.service_orm TorsiondriveExample.middle) ∧
  Torsiondrive.optimizations
    (Torsiondrive.td_orm TorsiondriveInitializeExample.initialized.2) =
    Torsiondrive.optimizations (Torsiondrive.td_orm TorsiondriveExample.middle) ∧
  ∀ (grid_id : list Z) (St : Type) (st : St),
    Torsiondrive.set_values
      (Torsiondrive.dihedral_template
         (Torsiondrive.service_state
            (Torsiondrive.service_orm TorsiondriveInitializeExample.initialized.2)))
      (Torsiondrive.enumerate grid_id) st =
    (if decide (length grid_id ≤ length [[0; 1; 2; 3]])
     then Ok (imap (λ i idx, Torsiondrive.mkConstraint "dihedral" idx (grid_id !! i))
                [[0; 1; 2; 3]])
     else Raise IndexError, st).
Proof.
  apply (initialize_service_template TorsiondriveInitializeExample.td_api
           TorsiondriveExample.middle TorsiondriveInitializeExample.initialized.2).
  vm_compute. reflexivity.
Defined.
(** ** Torsiondrive: the end of an iteration *)

Section TorsiondriveDone.
Import Torsiondrive.
Context {P : Payloads} (rs : Collaborators P).





End TorsiondriveDone.


Section UpdateFinishedLocks.
Context (rs : RootSocket) (manager_name : string).

Lemma process_result_locks item fr r fr' :
  process_result rs manager_name item fr = (r, fr') →
  ∃ locks succ fail rej,
    row_locks (session fr') = row_locks (session fr) ++ locks ∧
    tasks_success fr' = tasks_success fr ++ succ ∧
    tasks_failures fr' = tasks_failures fr ++ fail ∧
    tasks_rejected fr' = tasks_rejected fr ++ rej ∧
    (∀ task_id, task_id ∈ succ ++ fail → LockTask task_id ∈ locks) ∧
    (∀ task_id reason, (task_id, reason) ∈ rej →
       reason ≠ "Task does not exist in the task queue" → LockTask task_id ∈ locks) ∧
    (∀ l, l ∈ locks → l = LockTask item.1 ∨ ∃ rid, l = LockRecord rid).
Proof.
  destruct item as [task_id result]. intros Hcase%process_result_cases.
  assert (Hlocks : ∀ rid l, l ∈ [LockTask task_id; LockRecord rid] →
            l = LockTask task_id ∨ ∃ rid', l = LockRecord rid').
  { intros rid l [->|[->|[]%elem_of_nil]%elem_of_cons]%elem_of_cons; eauto. }
  assert (Hone : ∀ (x : nat) rid, ∀ y, y ∈ [x] →
            LockTask y ∈ [LockTask x; LockRecord rid]).
  { intros x rid y ->%list_elem_of_singleton. left. }
  assert (Hrej : ∀ (x : nat) (reason : string) rid, ∀ y reason', (y, reason') ∈ [(x, reason)] →
            LockTask y ∈ [LockTask x; LockRecord rid]).
  { intros x reason rid y reason' [= -> ->]%list_elem_of_singleton. left. }
  assert (Hnone : ∀ (x : nat) (reason : string), ∀ y reason', (y, reason') ∈ [(x, reason)] →
            reason' ≠ reason → LockTask y ∈ @nil RowLock).
  { by intros x reason y reason' [= -> ->]%list_elem_of_singleton. }
  inversion Hcase; subst;
    cbn [session tasks_success tasks_failures tasks_rejected session_after row_locks fst];
    [ exists [], [], [], [(task_id, "Task does not exist in the task queue")]
    | eexists _, [], [], [(task_id, _)]
    | eexists _, [], [], [(task_id, _)]
    | eexists _, [], [task_id], []
    | eexists _, [], [], [(task_id, _)]
    | eexists _, [task_id], [], []
    | eexists _, [], [], [(task_id, _)]
    | eexists _, [], [], [] ];
    (split_and!;
     [reflexivity || by rewrite app_nil_r
     |reflexivity || by rewrite app_nil_r
     |reflexivity || by rewrite app_nil_r
     |reflexivity || by rewrite app_nil_r
     |simpl; try (intros ? Hin; by apply elem_of_nil in Hin); eauto
     |simpl; try (intros ? ? Hin; by apply elem_of_nil in Hin); eauto
     |simpl; try (intros ? Hin; by apply elem_of_nil in Hin); eauto]).
Qed.

Lemma for_each_process_result_locks results fr r fr' :
  for_each results (process_result rs manager_name) fr = (r, fr') →
  ∃ locks succ fail rej,
    row_locks (session fr') = row_locks (session fr) ++ locks ∧
    tasks_success fr' = tasks_success fr ++ succ ∧
    tasks_failures fr' = tasks_failures fr ++ fail ∧
    tasks_rejected fr' = tasks_rejected fr ++ rej ∧
    (∀ task_id, task_id ∈ succ ++ fail → LockTask task_id ∈ locks) ∧
    (∀ task_id reason, (task_id, reason) ∈ rej →
       reason ≠ "Task does not exist in the task queue" → LockTask task_id ∈ locks) ∧
    (∀ l, l ∈ locks →
       (∃ task_id, task_id ∈ results.*1 ∧ l = LockTask task_id) ∨ ∃ rid, l = LockRecord rid).
Proof.
  revert fr. induction results as [|item rest IH]; intros fr Hloop.
  { injection Hloop as <- <-. exists [], [], [], []. rewrite !app_nil_r.
    split_and!; try done.
    - by intros ? ?%elem_of_nil.
    - by intros ? ? ?%elem_of_nil.
    - by intros ? ?%elem_of_nil. }
  simpl in Hloop. rewrite bind_run in Hloop.
  destruct (process_result rs manager_name item fr) as [[[]|e] fr1] eqn:Hbody.
  - destruct (process_result_locks _ _ _ _ Hbody)
      as (l1 & s1 & f1 & r1 & Hl1 & Hs1 & Hf1 & Hr1 & Hacc1 & Hrej1 & Honly1).
    destruct (IH _ Hloop) as (l2 & s2 & f2 & r2 & Hl2 & Hs2 & Hf2 & Hr2 & Hacc2 & Hrej2 & Honly2).
    exists (l1 ++ l2), (s1 ++ s2), (f1 ++ f2), (r1 ++ r2).
    rewrite Hl2, Hs2, Hf2, Hr2, Hl1, Hs1, Hf1, Hr1, !(assoc_L (++)).
    split_and!; try done.
    + intros task_id Hin. rewrite !elem_of_app in Hin. rewrite elem_of_app.
      assert (Ha1 : task_id ∈ s1 ∨ task_id ∈ f1 → LockTask task_id ∈ l1)
        by (rewrite <- elem_of_app; apply Hacc1).
      assert (Ha2 : task_id ∈ s2 ∨ task_id ∈ f2 → LockTask task_id ∈ l2)
        by (rewrite <- elem_of_app; apply Hacc2).
      tauto.
    + intros task_id reason [Hin|Hin]%elem_of_app Hne; apply elem_of_app; eauto.
    + intros l [Hin|Hin]%elem_of_app.
      * destruct (Honly1 l Hin) as [->|?]; [|by right]. left. exists item.1.
        split; [|done]. rewrite fmap_cons. left.
      * destruct (Honly2 l Hin) as [(task_id & Hid & ->)|?]; [|by right]. left.
        exists task_id. split; [|done]. rewrite fmap_cons. by right.
  - injection Hloop as <- <-.
    destruct (process_result_locks _ _ _ _ Hbody)
      as (l1 & s1 & f1 & r1 & Hl1 & Hs1 & Hf1 & Hr1 & Hacc1 & Hrej1 & Honly1).
    exists l1, s1, f1, r1. split_and!; try done.
    intros l Hin. destruct (Honly1 l Hin) as [->|?]; [|by right]. left. exists item.1.
    split; [|done]. rewrite fmap_cons. left.
Qed.

(** X6.  However a call of [update_finished] ends, with its metadata or with
    an exception, it leaves no savepoint open and gives up no row lock.  The
    savepoints of the session are those it had before the call.  The rows
    locked before the call are still locked, after them the row of the
    manager, if there is one, and after it rows of tasks of the batch and of
    records only.  When the call returns its metadata, the row of every task
    whose result was accepted, or rejected for another reason than that the
    task does not exist, is locked: a rollback for one result releases no
    lock. *)
Theorem update_finished_releases_savepoints results s r s' :
  update_finished rs manager_name results s = (r, s') →
  savepoints s' = savepoints s ∧
  ∃ locks,
    row_locks s' =
      row_locks s
      ++ match compute_manager s !! manager_name with
         | Some _ => [LockManager manager_name]
         | None => []
         end
      ++ locks ∧
    (∀ l, l ∈ locks →
       (∃ task_id, task_id ∈ results.*1 ∧ l = LockTask task_id) ∨ ∃ rid, l = LockRecord rid) ∧
    ∀ meta, r = Ok meta →
      (∀ task_id, task_id ∈ accepted_ids meta → LockTask task_id ∈ locks) ∧
      (∀ task_id reason, (task_id, reason) ∈ rejected_info meta →
         reason ≠ "Task does not exist in the task queue" → LockTask task_id ∈ locks).
Proof.
  intros Hrun.
  destruct (compute_manager s !! manager_name) as [manager|] eqn:Hm.
  - destruct (decide (ComputeManagerORM.status manager = ManagerStatusEnum.active))
      as [Hact|Hoff].
    + rewrite (update_finished_active rs manager_name results s manager Hm Hact) in Hrun.
      destruct (for_each results (process_result rs manager_name) _) as [[[]|e] fr] eqn:Hloop.
      * destruct (for_each_process_result_session _ _ _ _ _ _ Hloop) as [Hsp _].
        destruct (for_each_process_result_locks _ _ _ _ Hloop)
          as (l & succ & fail & rej & Hl & Hsucc & Hfail & Hrej & Hacc & Hrejected & Honly).
        simpl in Hsp, Hl, Hsucc, Hfail, Hrej.
        assert (Hmeta : ∀ meta,
                  meta = mkTaskReturnMetadata (tasks_rejected fr)
                           (tasks_success fr ++ tasks_failures fr) →
                  (∀ task_id, task_id ∈ accepted_ids meta → LockTask task_id ∈ l) ∧
                  (∀ task_id reason, (task_id, reason) ∈ rejected_info meta →
                     reason ≠ "Task does not exist in the task queue" →
                     LockTask task_id ∈ l)).
        { intros meta ->. simpl. rewrite Hsucc, Hfail, Hrej. done. }
        destruct (enabled (auto_reset (qcf_config rs)) && bool_decide (to_be_reset fr ≠ [])).
        -- destruct (records_reset rs _ _) as [[[]|e] st']; injection Hrun as <- <-; simpl;
             (split; [done|]); exists l; rewrite Hl, <- (assoc_L (++));
             (split_and!; [done|done|]); [|done].
           intros meta [= <-]. by apply Hmeta.
        -- injection Hrun as <- <-. simpl. split; [done|].
           exists l. rewrite Hl, <- (assoc_L (++)). split_and!; [done|done|].
           intros meta [= <-]. by apply Hmeta.
      * destruct (for_each_process_result_session _ _ _ _ _ _ Hloop) as [Hsp _].
        destruct (for_each_process_result_locks _ _ _ _ Hloop)
          as (l & _ & _ & _ & Hl & _ & _ & _ & _ & _ & Honly).
        simpl in Hsp, Hl. injection Hrun as <- <-. split; [done|].
        exists l. rewrite Hl, <- (assoc_L (++)). split_and!; done.
    + unfold update_finished, update_finished_body in Hrun. rewrite bind_run in Hrun.
      unfold in_session, zoom, select_manager_for_update in Hrun. simpl in Hrun.
      rewrite Hm in Hrun. simpl in Hrun. rewrite decide_True in Hrun by done.
      injection Hrun as <- <-. simpl. split; [done|]. exists [].
      split_and!; [done| |done]. by intros ? ?%elem_of_nil.
  - unfold update_finished, update_finished_body in Hrun. rewrite bind_run in Hrun.
    unfold in_session, zoom, select_manager_for_update in Hrun. simpl in Hrun.
    rewrite Hm in Hrun. injection Hrun as <- <-. simpl. split; [done|].
    exists []. rewrite app_nil_r. split_and!; [done| |done]. by intros ? ?%elem_of_nil.
Qed.

End UpdateFinishedLocks.

Lemma update_finished_releases_savepoints_witness :
  savepoints Example.update_run.2 = savepoints Example.running_session ∧
  ∃ locks,
    row_locks Example.update_run.2 =
      row_locks Example.running_session
      ++ match compute_manager Example.running_session !! "manager-1" with
         | Some _ => [LockManager "manager-1"]
         | None => []
         end
      ++ locks ∧
    (∀ l, l ∈ locks →
       (∃ task_id, task_id ∈ Example.batch.*1 ∧ l = LockTask task_id) ∨
       ∃ rid, l = LockRecord rid) ∧
    ∀ meta, Ok Example.update_meta = Ok meta →
      (∀ task_id, task_id ∈ accepted_ids meta → LockTask task_id ∈ locks) ∧
      (∀ task_id reason, (task_id, reason) ∈ rejected_info meta →
         reason ≠ "Task does not exist in the task queue" → LockTask task_id ∈ locks).
Proof.
  apply (update_finished_releases_savepoints Example.root_socket "manager-1" Example.batch
           Example.running_session (Ok Example.update_meta) Example.update_run.2
           example_update_run).
Defined.
